(** * KanjiVG/kvg: the document model, the codec, the renumbering
    engine, the structural queries and the file-name grammar, embedded from [kvg.go],
    with [strip], [guessShape] and [skipToNums] of its commands. *)

From Stdlib Require Import ZArith String Ascii List DecimalString DecimalPos Lia Bool.
From stdpp Require Import base list strings gmap.

Local Open Scope Z_scope.

(** ** Strings and numbers as Go has them *)

(** Go strings are byte sequences; [string] is a list of 8-bit [ascii]. *)

(** [fmt.Sprintf("%d", n)] for a signed integer. *)
Definition fmt_d (n : Z) : string := NilZero.string_of_int (Z.to_int n).

(** [int64] arithmetic wraps around modulo 2^64. *)
Definition wrap64 (z : Z) : Z := (z + 2 ^ 63) mod 2 ^ 64 - 2 ^ 63.

(** [*p++] on an [int64]. *)
Definition incr64 (n : Z) : Z := wrap64 (n + 1).

(** [s[:n]] and [s[n:]]; both panic (here: [None]) when [n > len(s)]. *)
Fixpoint str_take (n : nat) (s : string) : option string :=
  match n, s with
  | O, _ => Some EmptyString
  | S n', String c s' => String c <$> str_take n' s'
  | S _, EmptyString => None
  end.

Fixpoint str_drop (n : nat) (s : string) : option string :=
  match n, s with
  | O, _ => Some s
  | S n', String _ s' => str_drop n' s'
  | S _, EmptyString => None
  end.

(** ** The document model (the structs of [kvg.go])

    The [XMLName] fields (the element name, fixed by the struct tag) and
    the [Parent] back pointers (tagged [xml:"-"]) are read by none of the
    functions below and are left out. *)

Record Path := mkPath {
  Path_ID : string;
  Path_Type : string;
  Path_D : string;
  Path_Class : string
}.

Record Text := mkText {
  Text_Transform : string;
  Text_Content : string;
  Text_Class : string
}.

(** A [Child] is a Go struct holding all three of [Path], [Group] and
    [Text] by value, and two flags saying which one is meant. *)
Inductive Group := mkGroup {
  Group_ID : string;
  Group_Element : string;
  Group_Part : string;
  Group_Variant : bool;
  Group_Number : string;
  Group_Original : string;
  Group_Partial : bool;
  Group_TradForm : string;
  Group_Position : string;
  Group_Radical : string;
  Group_Phon : string;
  Group_RadicalForm : string;
  Group_Style : string;
  Group_Children : list Child
}
with Child := mkChild {
  Child_Path : Path;
  Child_Group : Group;
  Child_Text : Text;
  Child_IsGroup : bool;
  Child_IsText : bool
}.

Record SVG := mkSVG {
  SVG_XMLNS : string;
  SVG_Width : string;
  SVG_Height : string;
  SVG_ViewBox : string;
  SVG_Groups : list Group
}.

(** Zero values ([var c Child], and so on). *)
Definition zeroPath : Path := mkPath "" "" "" "".
Definition zeroText : Text := mkText "" "" "".
Definition zeroGroup : Group :=
  mkGroup "" "" "" false "" "" false "" "" "" "" "" "" [].
Definition zeroChild : Child := mkChild zeroPath zeroGroup zeroText false false.

(** Field assignments. *)
Definition set_Path_ID (v : string) (p : Path) : Path :=
  mkPath v (Path_Type p) (Path_D p) (Path_Class p).

Definition set_Text_Content (v : string) (t : Text) : Text :=
  mkText (Text_Transform t) v (Text_Class t).

Definition set_Group_ID (v : string) (g : Group) : Group :=
  mkGroup v (Group_Element g) (Group_Part g) (Group_Variant g)
    (Group_Number g) (Group_Original g) (Group_Partial g) (Group_TradForm g)
    (Group_Position g) (Group_Radical g) (Group_Phon g) (Group_RadicalForm g)
    (Group_Style g) (Group_Children g).

Definition set_Group_Style (v : string) (g : Group) : Group :=
  mkGroup (Group_ID g) (Group_Element g) (Group_Part g) (Group_Variant g)
    (Group_Number g) (Group_Original g) (Group_Partial g) (Group_TradForm g)
    (Group_Position g) (Group_Radical g) (Group_Phon g) (Group_RadicalForm g)
    v (Group_Children g).

Definition set_Group_Children (v : list Child) (g : Group) : Group :=
  mkGroup (Group_ID g) (Group_Element g) (Group_Part g) (Group_Variant g)
    (Group_Number g) (Group_Original g) (Group_Partial g) (Group_TradForm g)
    (Group_Position g) (Group_Radical g) (Group_Phon g) (Group_RadicalForm g)
    (Group_Style g) v.

Definition set_Child_Path (v : Path) (c : Child) : Child :=
  mkChild v (Child_Group c) (Child_Text c) (Child_IsGroup c) (Child_IsText c).

Definition set_Child_Group (v : Group) (c : Child) : Child :=
  mkChild (Child_Path c) v (Child_Text c) (Child_IsGroup c) (Child_IsText c).

Definition set_Child_Text (v : Text) (c : Child) : Child :=
  mkChild (Child_Path c) (Child_Group c) v (Child_IsGroup c) (Child_IsText c).

Definition set_SVG_Groups (v : list Group) (kvg : SVG) : SVG :=
  mkSVG (SVG_XMLNS kvg) (SVG_Width kvg) (SVG_Height kvg) (SVG_ViewBox kvg) v.

(** Writes through [&kvg.Groups[i]], [&g.Children[j]] and [&c.Group];
    the callers check the index first, as Go does. *)
Definition at_Groups (i : nat) (f : Group -> Group) (kvg : SVG) : SVG :=
  set_SVG_Groups (alter f i (SVG_Groups kvg)) kvg.

Definition at_Children (j : nat) (f : Child -> Child) (g : Group) : Group :=
  set_Group_Children (alter f j (Group_Children g)) g.

Definition at_Child_Group (f : Group -> Group) (c : Child) : Child :=
  set_Child_Group (f (Child_Group c)) c.

(** ** Effects: in-place mutation, run-time panics and [log.Fatalf]

    The methods have a pointer receiver [*SVG] and mutate the document in
    place.  A computation therefore maps the document on entry to an
    outcome that carries the document as it stands when control leaves:
    on a normal return, at a run-time panic, or at [log.Fatalf] (which
    prints and calls [os.Exit(1)]).  Text written to the log or to
    standard output is not part of the state. *)

Inductive runtime_error :=
| IndexOutOfRange (i : nat) (len : nat)
| SliceBoundsOutOfRange (n : nat) (len : nat).

Inductive outcome (A : Type) : Type :=
| Return (a : A) (kvg : SVG)
| Panic (e : runtime_error) (kvg : SVG)
| Fatalf (msg : string) (kvg : SVG).
Arguments Return {A} a kvg.
Arguments Panic {A} e kvg.
Arguments Fatalf {A} msg kvg.

Definition M (A : Type) : Type := SVG -> outcome A.

Definition ret {A} (a : A) : M A := fun kvg => Return a kvg.

Definition bind {A B} (m : M A) (k : A -> M B) : M B :=
  fun kvg =>
    match m kvg with
    | Return a kvg' => k a kvg'
    | Panic e kvg' => Panic e kvg'
    | Fatalf msg kvg' => Fatalf msg kvg'
    end.

Notation "'do' x <- m ; k" := (bind m (fun x => k))
  (at level 10, x name, m at level 100, k at level 200).
Notation "m ;; k" := (bind m (fun _ => k))
  (at level 100, k at level 200, right associativity).

Definition panic {A} (e : runtime_error) : M A := fun kvg => Panic e kvg.
Definition log_Fatalf {A} (msg : string) : M A := fun kvg => Fatalf msg kvg.
Definition get : M SVG := fun kvg => Return kvg kvg.
Definition modify (f : SVG -> SVG) : M unit := fun kvg => Return tt (f kvg).

(** [l[i]] with Go's bounds check. *)
Definition elem_at {A} (l : list A) (i : nat) : M A :=
  match l !! i with
  | Some x => ret x
  | None => panic (IndexOutOfRange i (length l))
  end.

(** [if c { body }] where [body] does not return. *)
Definition when_ (c : bool) (body : M unit) : M unit :=
  if c then body else ret tt.

(** What the caller sees. *)
Definition returns_to_caller {A} (o : outcome A) : Prop :=
  match o with Return _ _ => True | _ => False end.

Definition final_doc {A} (o : outcome A) : SVG :=
  match o with Return _ d | Panic _ d | Fatalf _ d => d end.

(** ** The renumbering engine *)

(** [fmt.Sprintf("%s-g%d", base, n)] and [fmt.Sprintf("%s-s%d", base, n)]. *)
Definition sprintf_g (base : string) (n : Z) : string := base +:+ "-g" +:+ fmt_d n.
Definition sprintf_s (base : string) (n : Z) : string := base +:+ "-s" +:+ fmt_d n.

(** [renumber(child, base, nPathPtr, nGroupPtr)]: the child is updated in
    place and the two counters are updated through their pointers; the
    function returns the new child and the new counters [(nPath, nGroup)].
    A child that is not a group takes the path branch, a text child
    included: the function does not look at [IsText]. *)
Fixpoint renumber (child : Child) (base : string) (nPath nGroup : Z)
  {struct child} : Child * (Z * Z) :=
  if Child_IsGroup child then
    let nGroup := incr64 nGroup in
    let '(cs, n) :=
      (fix range (cs : list Child) (nPath nGroup : Z) : list Child * (Z * Z) :=
         match cs with
         | [] => ([], (nPath, nGroup))
         | c :: cs' =>
             let '(c', (nPath, nGroup)) := renumber c base nPath nGroup in
             let '(cs'', n) := range cs' nPath nGroup in
             (c' :: cs'', n)
         end) (Group_Children (Child_Group child)) nPath nGroup in
    (set_Child_Group
       (set_Group_Children cs
          (set_Group_ID (sprintf_g base nGroup) (Child_Group child))) child, n)
  else
    let nPath := incr64 nPath in
    (set_Child_Path (set_Path_ID (sprintf_s base nPath) (Child_Path child)) child,
     (nPath, nGroup)).

(** [for i := range cs { renumber(&cs[i], base, &nPath, &nGroup) }], the
    loop of [renumber], [SetBase] and [RenumberXML]. *)
Fixpoint renumber_range (cs : list Child) (base : string) (nPath nGroup : Z)
  : list Child * (Z * Z) :=
  match cs with
  | [] => ([], (nPath, nGroup))
  | c :: cs' =>
      let '(c', (nPath, nGroup)) := renumber c base nPath nGroup in
      let '(cs'', n) := renumber_range cs' base nPath nGroup in
      (c' :: cs'', n)
  end.

(** [kvg.BaseGroup()]: the address [&kvg.Groups[0].Children[0].Group].
    Taking it checks both indices and nothing else; the result here is the
    group stored at that address. *)
Definition BaseGroup : M Group :=
  do kvg <- get;
  do g0 <- elem_at (SVG_Groups kvg) 0;
  do c0 <- elem_at (Group_Children g0) 0;
  ret (Child_Group c0).

(** A write through the pointer returned by [BaseGroup]. *)
Definition at_BaseGroup (f : Group -> Group) : SVG -> SVG :=
  at_Groups 0 (at_Children 0 (at_Child_Group f)).

(** [strings.Replace(s, "kvg:", "", 1)]: the first occurrence removed. *)
Fixpoint remove_first_kvg (s : string) : string :=
  match s with
  | EmptyString => EmptyString
  | String c s' =>
      if String.prefix "kvg:" s then default s (str_drop 4 s)
      else String c (remove_first_kvg s')
  end.

(** [kvg.Base()]. *)
Definition Base : M (string * string) :=
  do baseGroup <- BaseGroup;
  let base := Group_ID baseGroup in
  ret (base, remove_first_kvg base).

(** The loop over the base group's children, through the pointer
    returned by [BaseGroup]. *)
Definition walk_base (base : string) (c0 : Child) : Child :=
  at_Child_Group (fun baseGroup =>
    set_Group_Children (renumber_range (Group_Children baseGroup) base 0 0).1
      baseGroup) c0.

Definition fatal_msg (base : string) : string :=
  "Base name '" +:+ base +:+ "' does not start with 'kvg:'".

(** [kvg.SetBase(base)]. *)
Definition SetBase (base : string) : M unit :=
  do head <- (match str_take 4 base with
              | Some h => ret h
              | None => panic (SliceBoundsOutOfRange 4 (String.length base))
              end);
  when_ (negb (String.eqb head "kvg:"))
    (log_Fatalf (fatal_msg base)) ;;
  do _ <- BaseGroup;
  modify (at_BaseGroup (set_Group_ID base)) ;;
  let tail := default "" (str_drop 4 base) in
  modify (at_Groups 0 (set_Group_ID ("kvg:StrokePaths_" +:+ tail))) ;;
  do kvg <- get;
  when_ (1 <? length (SVG_Groups kvg))%nat
    (modify (at_Groups 1 (set_Group_ID ("kvg:StrokeNumbers_" +:+ tail)))) ;;
  modify (at_Groups 0 (at_Children 0 (walk_base base))).

(** The body of the loop of [RenumberLabels] at index [i]: a child that
    is not a text is reported and skipped, a text gets [i+1] in decimal. *)
Definition relabel (i : nat) (c : Child) : Child :=
  if negb (Child_IsText c) then c
  else set_Child_Text (set_Text_Content (fmt_d (Z.of_nat i + 1)) (Child_Text c)) c.

(** [kvg.RenumberLabels()].  [labels := kvg.Groups[1]] copies the group
    header, but [labels.Children] shares its backing array with
    [kvg.Groups[1].Children], so the writes through [&labels.Children[i]]
    land in the document. *)
Definition RenumberLabels : M unit :=
  do kvg <- get;
  do _ <- elem_at (SVG_Groups kvg) 1;
  modify (at_Groups 1 (fun labels =>
    set_Group_Children (imap relabel (Group_Children labels)) labels)).

(** [removeChildStyles(g)].  [for _, child := range c] binds [child] to a
    copy of [c[i]]; the body assigns to that copy and recurses on the
    address of the copy's [Group] field, whose [Children] slice is again
    only ranged over by value.  No assignment reaches [*g] or a backing
    array.  The function returns [*g] as it stands on exit, together with
    the final values of the per-iteration copies, which Go discards.  (The
    callee leaves its pointee as it found it, so the assignment to [Style]
    is written around the recursive call to keep the recursion
    structural.) *)
Fixpoint removeChildStyles (g : Group) {struct g} : Group * list Child :=
  let c := Group_Children g in
  (g,
   (fix range (c : list Child) : list Child :=
      match c with
      | [] => []
      | child :: c' =>
          (if Child_IsGroup child then
             set_Child_Group
               (set_Group_Style "" (removeChildStyles (Child_Group child)).1)
               child
           else child) :: range c'
      end) c).

Definition style_paths : string :=
  "fill:none;stroke:#000000;stroke-width:3;stroke-linecap:round;stroke-linejoin:round;".
Definition style_numbers : string := "font-size:8;fill:#808080".

(** [svg.SetStyle()]. *)
Definition SetStyle : M unit :=
  do svg <- get;
  do _ <- elem_at (SVG_Groups svg) 0;
  modify (at_Groups 0 (set_Group_Style style_paths)) ;;
  do _ <- elem_at (SVG_Groups svg) 1;
  modify (at_Groups 1 (set_Group_Style style_numbers)) ;;
  modify (at_Groups 0 (fun g => (removeChildStyles g).1)).

(** [svg.RenumberXML()]. *)
Definition RenumberXML : M unit :=
  do baseGroup <- BaseGroup;
  let base := Group_ID baseGroup in
  modify (at_Groups 0 (at_Children 0 (walk_base base))) ;;
  RenumberLabels ;;
  SetStyle.

(** ** Children as the decoder builds them

    [Group.UnmarshalXML] starts from [var c Child] (the zero value), fills
    one of the three fields and sets the flags. *)
Definition groupChild (g : Group) : Child := mkChild zeroPath g zeroText true false.
Definition pathChild (p : Path) : Child := mkChild p zeroGroup zeroText false false.
Definition textChild (t : Text) : Child := mkChild zeroPath zeroGroup t false true.


(** ** Structural queries *)

(** A [*Group] inside the tree of the receiver [gp]: the indices of the
    children to go through, [[]] for [gp] itself and [p ++ [i]] for
    [&p.Children[i].Group]. *)
Definition GroupPtr := list nat.

Fixpoint deref (g : Group) (p : GroupPtr) : option Group :=
  match p with
  | [] => Some g
  | i :: p' =>
      match Group_Children g !! i with
      | Some c => deref (Child_Group c) p'
      | None => None
      end
  end.

(** [multiSearch(depth, pos, gp, funky, locs, debug)] with [debug] false,
    as [FindMultiElement] calls it ([depth] only feeds the debug output).
    [g] is the group [gp] points to.  [pos] is a slice passed by value:
    the callee's appends never show in the caller's [pos], but the
    assignment [pos = append(pos, gPtr)] inside the loop stays in force
    for the following iterations.  Returns the new [*locs]. *)
Fixpoint multiSearch (pos : list GroupPtr) (gp : GroupPtr) (g : Group) (funky : string)
  (locs : list (list GroupPtr)) {struct g} : list (list GroupPtr) :=
  let pos := pos ++ [gp] in
  (fix range (i : nat) (cs : list Child) (pos : list GroupPtr)
      (locs : list (list GroupPtr)) : list (list GroupPtr) :=
     match cs with
     | [] => locs
     | c :: cs' =>
         if negb (Child_IsGroup c) then range (S i) cs' pos locs
         else
           let gPtr := gp ++ [i] in
           if negb (String.eqb (Group_Element (Child_Group c)) funky) then
             range (S i) cs' pos (multiSearch pos gPtr (Child_Group c) funky locs)
           else
             let pos := pos ++ [gPtr] in
             let copyPos := pos in
             range (S i) cs' pos (locs ++ [copyPos])
     end) 0%nat (Group_Children g) pos locs.

(** [gp.FindMultiElement(funky)]. *)
Definition FindMultiElement (gp : Group) (funky : string) : list (list GroupPtr) :=
  multiSearch [] [] gp funky [].

(** What the specification asks of [FindAllByElement], in its words: every
    group below the queried root whose element name is [name], in
    document order, each with the chain of groups from the root down to
    it.  Used only to state what the code is compared with. *)
Fixpoint FindAllByElement_spec (chain : list GroupPtr) (gp : GroupPtr) (g : Group)
  (name : string) {struct g} : list (list GroupPtr) :=
  (fix range (i : nat) (cs : list Child) : list (list GroupPtr) :=
     match cs with
     | [] => []
     | c :: cs' =>
         (if Child_IsGroup c then
            (if String.eqb (Group_Element (Child_Group c)) name
             then [chain ++ [gp; gp ++ [i]]] else [])
            ++ FindAllByElement_spec (chain ++ [gp]) (gp ++ [i]) (Child_Group c) name
          else [])
         ++ range (S i) cs'
     end) 0%nat (Group_Children g).

(** ** Regular expressions

    The fragment of Go's [regexp] syntax that [kvg.go] uses, with the
    leftmost-first (backtracking priority) matching of the package.
    Repetition is only ever applied to a single-character class.  The
    subject is matched byte by byte: every atom but [.] of the patterns
    below is an ASCII character, which never occurs inside a multi-byte
    rune. *)
Module Regexp.

Inductive regex :=
| Empty
| Lit (c : ascii)
| Class (p : ascii -> bool)
| Seq (r1 r2 : regex)
| Alt (r1 r2 : regex)
| Opt (r : regex)
| Star (p : ascii -> bool)
| Cap (n : nat) (r : regex)
| EndText.

(** Submatch indices as [FindStringSubmatchIndex] reports them: for each
    group the byte offsets of its start and end, or nothing when the
    group took no part in the match. *)
Definition caps := list (option (nat * nat)).

(** The rest of the match: remaining input, offset, submatches so far. *)
Definition cont := list ascii -> nat -> caps -> option caps.

(** Greedy [x*] over a character class, then the continuation. *)
Fixpoint star (p : ascii -> bool) (s : list ascii) (i : nat) (c : caps) (k : cont)
  : option caps :=
  match s with
  | a :: s' =>
      if p a then
        match star p s' (S i) c k with
        | Some c' => Some c'
        | None => k s i c
        end
      else k s i c
  | [] => k s i c
  end.

(** Backtracking in priority order. *)
Fixpoint run (r : regex) (s : list ascii) (i : nat) (c : caps) (k : cont)
  : option caps :=
  match r with
  | Empty => k s i c
  | Lit x =>
      match s with
      | a :: s' => if Ascii.eqb a x then k s' (S i) c else None
      | [] => None
      end
  | Class p =>
      match s with
      | a :: s' => if p a then k s' (S i) c else None
      | [] => None
      end
  | Seq r1 r2 => run r1 s i c (fun s' i' c' => run r2 s' i' c' k)
  | Alt r1 r2 =>
      match run r1 s i c k with
      | Some c' => Some c'
      | None => run r2 s i c k
      end
  | Opt r1 =>
      match run r1 s i c k with
      | Some c' => Some c'
      | None => k s i c
      end
  | Star p => star p s i c k
  | Cap n r1 => run r1 s i c (fun s' i' c' => k s' i' (<[n := Some (i, i')]> c'))
  | EndText =>
      match s with
      | [] => k s i c
      | _ :: _ => None
      end
  end.

(** The number of the last capturing group. *)
Fixpoint ngroups (r : regex) : nat :=
  match r with
  | Seq r1 r2 | Alt r1 r2 => Nat.max (ngroups r1) (ngroups r2)
  | Opt r1 => ngroups r1
  | Cap n r1 => Nat.max n (ngroups r1)
  | _ => 0
  end.

(** A match starting at offset [i], where [s] is the input from there on. *)
Definition match_at (r : regex) (s : list ascii) (i : nat) : option caps :=
  run r s i (replicate (S (ngroups r)) None)
    (fun _ j c => Some (<[0%nat := Some (i, j)]> c)).

(** The leftmost start, from offset [i] on. *)
Fixpoint search (r : regex) (s : list ascii) (i : nat) : option caps :=
  match match_at r s i with
  | Some c => Some c
  | None =>
      match s with
      | _ :: s' => search r s' (S i)
      | [] => None
      end
  end.

Definition submatch (s : list ascii) (o : option (nat * nat)) : string :=
  match o with
  | Some (a, b) => string_of_list_ascii (take (b - a) (drop a s))
  | None => ""
  end.

(** [re.FindStringSubmatch(s)]; [None] is the nil slice. *)
Definition FindStringSubmatch (r : regex) (s : string) : option (list string) :=
  let l := list_ascii_of_string s in
  match search r l 0 with
  | None => None
  | Some c => Some (map (submatch l) c)
  end.

(** [re.MatchString(s)]. *)
Definition MatchString (r : regex) (s : string) : bool :=
  match FindStringSubmatch r s with Some _ => true | None => false end.

(** Pattern syntax: a literal string, [r{n}], [a|b|...], [[lo-hi]]. *)
Fixpoint lit (s : string) : regex :=
  match s with
  | EmptyString => Empty
  | String a EmptyString => Lit a
  | String a s' => Seq (Lit a) (lit s')
  end.

Fixpoint times (n : nat) (r : regex) : regex :=
  match n with
  | O => Empty
  | 1%nat => r
  | S n' => Seq r (times n' r)
  end.

Fixpoint alts (rs : list regex) : regex :=
  match rs with
  | [] => Empty
  | [r] => r
  | r :: rs' => Alt r (alts rs')
  end.

Definition in_range (lo hi : ascii) (a : ascii) : bool :=
  ((nat_of_ascii lo <=? nat_of_ascii a) && (nat_of_ascii a <=? nat_of_ascii hi))%nat.

(** [.] without the [s] flag: anything but a newline. *)
Definition dot (a : ascii) : bool := negb (Ascii.eqb a "010").

End Regexp.

(** ** File names *)

Import Regexp.

(** The alternatives of [Variant], in the order of the source. *)
Definition variant_tokens : list string :=
  [ "Kaisho"; "MidFst"; "HzLst"; "VtLst"; "HzFstLeRi"; "HzFstRiLe"; "TenLst";
    "Hyougai"; "Jinmei"; "HzFst"; "VtFstRiLe"; "LeFst"; "Vt6"; "VtFstRiLe";
    "HzFst"; "HzFstVtLst"; "MdLst"; "VtFst"; "Vt4"; "Ten3"; "DgLst"; "Insatsu";
    "MdFst"; "MdFst2"; "Dg3"; "TenFst"; "RiLe"; "NoDot" ].

(** [Variant]: a hyphen and one of the listed endings, anywhere. *)
Definition Variant : regex := Seq (Lit "-") (Cap 1 (alts (map lit variant_tokens))).

Definition is_hex (a : ascii) : bool := in_range "0" "9" a || in_range "a" "f" a.
Definition is_alpha (a : ascii) : bool := in_range "A" "Z" a || in_range "a" "z" a.
Definition is_alnum (a : ascii) : bool := is_alpha a || in_range "0" "9" a.

(** [hexID = "([0-9a-f]{5})"], as group [n] of the pattern it is put in. *)
Definition hexID (n : nat) : regex := Cap n (times 5 (Class is_hex)).

(** [filePartRe]: an optional [.*/], then group 1, made of [hexID] as
    group 2 and optionally of [-] and group 3, a letter [A-Za-z] followed
    by any number of [A-Za-z0-9]; then [\.svg$]. *)
Definition filePartRe : regex :=
  Seq (Opt (Seq (Star dot) (Lit "/")))
    (Seq (Cap 1 (Seq (hexID 2)
                   (Opt (Seq (Lit "-")
                           (Cap 3 (Seq (Class is_alpha) (Star is_alnum)))))))
       (Seq (lit ".svg") EndText)).

(** A call that may end the process with [os.Exit]. *)
Inductive proc (A : Type) : Type :=
| Returns (a : A)
| os_Exit (code : Z).
Arguments Returns {A} a.
Arguments os_Exit {A} code.

(** [strconv.ParseInt(s, base, 64)] for a base from 2 to 36; [None] is
    an error (a syntax error or a value out of range). *)
Definition digit_val (a : ascii) : option Z :=
  let n := Z.of_nat (nat_of_ascii a) in
  if in_range "0" "9" a then Some (n - 48)
  else if in_range "a" "z" a then Some (n - 97 + 10)
  else if in_range "A" "Z" a then Some (n - 65 + 10)
  else None.

Fixpoint parse_digits (base acc : Z) (s : list ascii) : option Z :=
  match s with
  | [] => Some acc
  | a :: s' =>
      match digit_val a with
      | Some d => if d <? base then parse_digits base (acc * base + d) s' else None
      | None => None
      end
  end.

Definition ParseUint (s : list ascii) (base : Z) : option Z :=
  match s with
  | [] => None
  | _ =>
      match parse_digits base 0 s with
      | Some n => if n <? 2 ^ 64 then Some n else None
      | None => None
      end
  end.

Definition ParseInt (s : string) (base : Z) : option Z :=
  match list_ascii_of_string s with
  | [] => None
  | a :: s' =>
      let neg := Ascii.eqb a "-" in
      let digits := if Ascii.eqb a "+" || neg then s' else a :: s' in
      match ParseUint digits base with
      | None => None
      | Some un =>
          if negb neg && (2 ^ 63 <=? un) then None
          else if neg && (2 ^ 63 <? un) then None
          else Some (if neg then - un else un)
      end
  end.

(** [HexIDToNum(hexID)]: [die] ends the process on a parse error. *)
Definition HexIDToNum (hexID : string) : proc Z :=
  match ParseInt hexID 16 with
  | Some num => Returns num
  | None => os_Exit 1
  end.

(** [FileToParts(fileName)]. *)
Definition FileToParts (fileName : string) : proc (string * Z * string) :=
  match FindStringSubmatch filePartRe fileName with
  | None => Returns ("", 0, "")
  | Some match_ =>
      match HexIDToNum (default "" (match_ !! 2%nat)) with
      | os_Exit code => os_Exit code
      | Returns num =>
          Returns (default "" (match_ !! 1%nat), num, default "" (match_ !! 3%nat))
      end
  end.

(** [fileIDRe]: [.*], then [hexID] as group 1, optionally [-] and one
    character or more, then [\.svg$]. *)
Definition fileIDRe : regex :=
  Seq (Star dot)
    (Seq (hexID 1)
       (Seq (Opt (Seq (Lit "-") (Seq (Class dot) (Star dot))))
          (Seq (lit ".svg") EndText))).

(** [FileToNum(fileName)]: without a match it prints and calls
    [os.Exit(1)]. *)
Definition FileToNum (fileName : string) : proc Z :=
  match FindStringSubmatch fileIDRe fileName with
  | None => os_Exit 1
  | Some match_ => HexIDToNum (default "" (match_ !! 1%nat))
  end.

(** ** [fixXML] *)

(** [strings.Replace(s, old, new, -1)] for an [old] that is not empty:
    the occurrences of [old] are taken from the left, none overlapping
    another; [skip] counts the characters of an occurrence still to pass. *)
Fixpoint replace_from (old new : string) (skip : nat) (s : string) : string :=
  match s with
  | EmptyString => EmptyString
  | String a s' =>
      match skip with
      | S k => replace_from old new k s'
      | O =>
          if String.prefix old s
          then new +:+ replace_from old new (String.length old - 1) s'
          else String a (replace_from old new 0 s')
      end
  end.

Definition Replace (s old new : string) : string := replace_from old new 0 s.

Definition tab : ascii := "009"%char.
Definition line_feed : ascii := "010"%char.

(** [fixXML(xmlout)]; [Heading] is a variable of the package, which
    [cmd/strip.go] assigns to. *)
Definition fixXML (Heading : string) (xmlout : string) : string :=
  let outFixed := Replace xmlout "></path>" "/>" in
  let outFixed := Replace outFixed (String tab "<g") "<g" in
  let outFixed := Replace outFixed (String tab "<g") "<g" in
  let outFixed := Replace outFixed (String tab (String tab "<path")) "<path" in
  let outFixed := Replace outFixed (String tab "<text") "<text" in
  let outFixed := Replace outFixed (String tab "</g>") "</g>" in
  let outFixed := Replace outFixed (String tab "</g>") "</g>" in
  Heading +:+ outFixed +:+ String line_feed "".

(** ** The codec

    [encoding/xml] and [unicode/utf8] are libraries, not part of this
    repository.  What the repository's code does with them is modelled
    as follows:
    - marshalling follows the struct tags of [SVG], [Group], [Path] and
      [Text] and the method [Child.MarshalXML], and produces a tree whose
      names are the strings of the tags ([marshalSVG]);
    - [xml.MarshalIndent] prints that tree ([MarshalIndent]): a start tag
      with its attributes, the children, an end tag, each tag on a line
      of its own where the element holds elements; attribute values and
      character data are escaped ([EscapeText]), and the escaping writes
      U+FFFD for a byte that starts no UTF-8 sequence and for a character
      that XML cannot carry;
    - [MakeXML] hands the printed bytes to [fixXML];
    - unmarshalling follows [Group.UnmarshalXML], [Path.UnmarshalXML] and
      the library's default for [Text] and [SVG], that is, the struct
      tags; it consumes the tokens of the library's tokenizer, taken here
      as the tree of the root element ([Node]);
    - [reparse] is the tree of tokens for a tree that was printed: the
      same elements, with names split at the colon, white-space character
      data where the output was indented, and every attribute value and
      character data as the escaping carries it ([xml_text]). *)
Module Utf8.

(** A byte as a number. *)
Definition byte (a : ascii) : Z := Z.of_N (N_of_ascii a).

Definition between (lo hi x : Z) : bool := (lo <=? x) && (x <=? hi).

(** [utf8.RuneError], U+FFFD. *)
Definition RuneError : Z := 0xFFFD.

(** The tables [first] and [acceptRanges]: for a byte that starts an
    encoding of more than one byte, the size of the encoding and the
    range of its second byte. *)
Definition first (p0 : Z) : option (nat * Z * Z) :=
  if between 0xC2 0xDF p0 then Some (2%nat, 0x80, 0xBF)
  else if p0 =? 0xE0 then Some (3%nat, 0xA0, 0xBF)
  else if between 0xE1 0xEC p0 then Some (3%nat, 0x80, 0xBF)
  else if p0 =? 0xED then Some (3%nat, 0x80, 0x9F)
  else if between 0xEE 0xEF p0 then Some (3%nat, 0x80, 0xBF)
  else if p0 =? 0xF0 then Some (4%nat, 0x90, 0xBF)
  else if between 0xF1 0xF3 p0 then Some (4%nat, 0x80, 0xBF)
  else if p0 =? 0xF4 then Some (4%nat, 0x80, 0x8F)
  else None.

(** [p[i]], for an [i] below [len(p)]. *)
Definition at_ (p : string) (i : nat) : Z :=
  match String.get i p with
  | Some a => byte a
  | None => 0
  end.

(** [utf8.DecodeRune(p)]: the first rune of [p] and its width in bytes;
    [(RuneError, 1)] when [p] does not start with a well-formed encoding,
    [(RuneError, 0)] when [p] is empty. *)
Definition DecodeRune (p : string) : Z * nat :=
  match p with
  | EmptyString => (RuneError, 0%nat)
  | String a0 _ =>
      let p0 := byte a0 in
      if p0 <? 0x80 then (p0, 1%nat)
      else
        match first p0 with
        | None => (RuneError, 1%nat)
        | Some (sz, lo, hi) =>
            if (String.length p <? sz)%nat then (RuneError, 1%nat)
            else
              let b1 := at_ p 1 in
              if negb (between lo hi b1) then (RuneError, 1%nat)
              else if (sz <=? 2)%nat then
                (Z.lor (Z.shiftl (Z.land p0 0x1F) 6) (Z.land b1 0x3F), 2%nat)
              else
                let b2 := at_ p 2 in
                if negb (between 0x80 0xBF b2) then (RuneError, 1%nat)
                else if (sz <=? 3)%nat then
                  (Z.lor (Z.lor (Z.shiftl (Z.land p0 0x0F) 12)
                            (Z.shiftl (Z.land b1 0x3F) 6))
                     (Z.land b2 0x3F), 3%nat)
                else
                  let b3 := at_ p 3 in
                  if negb (between 0x80 0xBF b3) then (RuneError, 1%nat)
                  else
                    (Z.lor (Z.lor (Z.lor (Z.shiftl (Z.land p0 0x07) 18)
                                     (Z.shiftl (Z.land b1 0x3F) 12))
                              (Z.shiftl (Z.land b2 0x3F) 6))
                       (Z.land b3 0x3F), 4%nat)
        end
  end.

End Utf8.

Module Xml.

(** [xml.Name] and [xml.Attr]. *)
Record Name := mkName { Space : string; Local : string }.
Record Attr := mkAttr { Attr_Name : Name; Attr_Value : string }.

(** The tokens from a start tag to its end tag, as a tree.  [Other] is a
    comment, a processing instruction or a directive. *)
#[warnings="-register-all"]
Inductive Node :=
| Element (name : Name) (attrs : list Attr) (children : list Node)
| CharData (data : string)
| Other.

(** What the encoder writes, before it is printed. *)
#[warnings="-register-all"]
Inductive ONode :=
| OElement (name : string) (attrs : list (string * string)) (children : list ONode)
| OCharData (data : string).

Definition Name_eqb (a b : Name) : bool :=
  String.eqb (Space a) (Space b) && String.eqb (Local a) (Local b).

(** Is there an element of this name among the nodes or below them? *)
Fixpoint has_element (name : Name) (n : Node) : bool :=
  match n with
  | Element name' _ children =>
      Name_eqb name' name || existsb (has_element name) children
  | _ => false
  end.

(** [isInCharacterRange(r)]: the characters of XML 1.0. *)
Definition isInCharacterRange (r : Z) : bool :=
  (r =? 0x09) || (r =? 0x0A) || (r =? 0x0D)
  || ((0x20 <=? r) && (r <=? 0xD7FF))
  || ((0xE000 <=? r) && (r <=? 0xFFFD))
  || ((0x10000 <=? r) && (r <=? 0x10FFFF)).

(** [escFFFD]: the three bytes of U+FFFD. *)
Definition escFFFD : string := String "239" (String "191" (String "189" "")).

(** The loop of [escapeText] and of [printer.EscapeString]: the runes of
    [s] from the left, each one written as [esc] says or, where [esc]
    says nothing, as its own bytes; [skip] counts the bytes of a rune
    still to pass. *)
Fixpoint each_rune (esc : Z -> nat -> option string) (skip : nat) (s : string)
  : string :=
  match s with
  | EmptyString => EmptyString
  | String _ s' =>
      match skip with
      | S k => each_rune esc k s'
      | O =>
          let '(r, width) := Utf8.DecodeRune s in
          default (substring 0 width s) (esc r width)
          +:+ each_rune esc (width - 1) s'
      end
  end.

(** A rune that is written as U+FFFD: outside the characters of XML, or
    the [RuneError] of a malformed byte. *)
Definition replaced (r : Z) (width : nat) : bool :=
  negb (isInCharacterRange r) || ((r =? 0xFFFD) && (width =? 1)%nat).

(** The [switch r] of the loop. *)
Definition escape (escapeNewline : bool) (r : Z) (width : nat) : option string :=
  if r =? 0x22 then Some "&#34;"
  else if r =? 0x27 then Some "&#39;"
  else if r =? 0x26 then Some "&amp;"
  else if r =? 0x3C then Some "&lt;"
  else if r =? 0x3E then Some "&gt;"
  else if r =? 0x09 then Some "&#x9;"
  else if r =? 0x0A then (if escapeNewline then Some "&#xA;" else None)
  else if r =? 0x0D then Some "&#xD;"
  else if replaced r width then Some escFFFD
  else None.

(** [escapeText(w, s, escapeNewline)]; [xml.EscapeText(w, s)], which is
    [escapeText(w, s, true)]; and [p.EscapeString(s)], which has the same
    loop and always escapes the line feed. *)
Definition escapeText (escapeNewline : bool) (s : string) : string :=
  each_rune (escape escapeNewline) 0 s.
Definition EscapeText (s : string) : string := escapeText true s.
Definition EscapeString (s : string) : string := each_rune (escape true) 0 s.

(** A rune as it comes back from the escaping: U+FFFD if it was
    replaced, its own bytes otherwise. *)
Definition keep_rune (r : Z) (width : nat) : option string :=
  if replaced r width then Some escFFFD else None.

(** What the tokenizer reads from [EscapeText s]: the entities and the
    character references are read as the characters they stand for, so
    [s] comes back but for the runes written as U+FFFD. *)
Definition xml_text (s : string) : string := each_rune keep_rune 0 s.

(** A name as the tokenizer reads it: [prefix:local] is split when both
    parts are non-empty.  (A name with two colons is refused by the
    tokenizer; the names that are written are those of the struct tags,
    with one colon at most, and such a name is kept whole here.) *)
Fixpoint split_colon (s : string) : option (string * string) :=
  match s with
  | EmptyString => None
  | String c s' =>
      if Ascii.eqb c ":" then Some (EmptyString, s')
      else match split_colon s' with
           | Some (p, l) => Some (String c p, l)
           | None => None
           end
  end.

Definition read_name (s : string) : Name :=
  match split_colon s with
  | Some (p, l) =>
      match p, l, split_colon l with
      | String _ _, String _ _, None => mkName p l
      | _, _, _ => mkName "" s
      end
  | None => mkName "" s
  end.

(** An element name without prefix takes the default name space. *)
Definition read_element_name (ns : string) (s : string) : Name :=
  let n := read_name s in
  if String.eqb (Space n) "" then mkName ns (Local n) else n.

(** An attribute as the tokenizer reads it. *)
Definition read_attr (a : string * string) : Attr :=
  mkAttr (read_name a.1) (xml_text a.2).

Definition xmlns_of (ns : string) (attrs : list (string * string)) : string :=
  match find (fun a => String.eqb a.1 "xmlns") attrs with
  | Some a => xml_text a.2
  | None => ns
  end.

Definition double_quote : ascii := "034"%char.

Definition is_element (o : ONode) : bool :=
  match o with OElement _ _ _ => true | OCharData _ => false end.

(** The tree the tokenizer reads from the printed output.  [indent d] is
    the white space in front of a tag at depth [d]; the strings are those
    of [xml_text]. *)
Fixpoint reparse (indent : nat -> string) (ns : string) (depth : nat) (o : ONode)
  : Node :=
  match o with
  | OCharData s => CharData (xml_text s)
  | OElement name attrs children =>
      let ns' := xmlns_of ns attrs in
      Element (read_element_name ns' name) (map read_attr attrs)
        (flat_map (fun child =>
                     if is_element child
                     then [CharData (indent (S depth));
                           reparse indent ns' (S depth) child]
                     else [reparse indent ns' (S depth) child]) children
         ++ (if existsb is_element children then [CharData (indent depth)] else []))
  end.

(** [p.writeIndent]: a line feed, [prefix] and [depth] times [indent];
    nothing when [prefix] and [indent] are both empty. *)
Definition writeIndent (prefix indent : string) (depth : nat) : string :=
  if String.eqb prefix "" && String.eqb indent "" then ""
  else String line_feed (prefix +:+ String.concat "" (repeat indent depth)).

(** An attribute in a start tag, as [p.writeStart] writes it. *)
Definition writeAttr (a : string * string) : string :=
  " " +:+ a.1 +:+ "=" +:+ String double_quote (EscapeString a.2)
  +:+ String double_quote "".

(** The printer, at [depth] elements below the root.  [writeIndent] comes
    in front of every start tag, and in front of an end tag when an
    element was written since its start tag; character data is written
    where it stands. *)
Fixpoint print (prefix indent : string) (depth : nat) (o : ONode) : string :=
  match o with
  | OCharData s => EscapeText s
  | OElement name attrs children =>
      "<" +:+ name +:+ String.concat "" (map writeAttr attrs) +:+ ">"
      +:+ String.concat ""
            (map (fun child =>
                    if is_element child
                    then writeIndent prefix indent (S depth)
                         +:+ print prefix indent (S depth) child
                    else print prefix indent (S depth) child) children)
      +:+ (if existsb is_element children then writeIndent prefix indent depth
           else "")
      +:+ "</" +:+ name +:+ ">"
  end.

(** [xml.MarshalIndent(v, prefix, indent)] on the tree of [v]: the first
    start tag has no line feed in front of it. *)
Definition MarshalIndent (v : ONode) (prefix indent : string) : string :=
  prefix +:+ print prefix indent 0 v.

End Xml.

Import Xml.

(** *** Marshalling *)

(** An attribute tagged [omitempty]. *)
Definition omitempty (name value : string) : list (string * string) :=
  if String.eqb value "" then [] else [(name, value)].

Definition omitfalse (name : string) (value : bool) : list (string * string) :=
  if value then [(name, "true")] else [].

Definition marshalPath (p : Path) : ONode :=
  OElement "path"
    ([("id", Path_ID p)] ++ omitempty "kvg:type" (Path_Type p)
     ++ [("d", Path_D p)] ++ omitempty "class" (Path_Class p)) [].

Definition marshalText (t : Text) : ONode :=
  OElement "text"
    (omitempty "transform" (Text_Transform t) ++ omitempty "class" (Text_Class t))
    (if String.eqb (Text_Content t) "" then [] else [OCharData (Text_Content t)]).

Definition Group_attrs (g : Group) : list (string * string) :=
  omitempty "id" (Group_ID g) ++ omitempty "kvg:element" (Group_Element g)
  ++ omitempty "kvg:part" (Group_Part g) ++ omitfalse "kvg:variant" (Group_Variant g)
  ++ omitempty "kvg:number" (Group_Number g)
  ++ omitempty "kvg:original" (Group_Original g)
  ++ omitfalse "kvg:partial" (Group_Partial g)
  ++ omitempty "kvg:tradForm" (Group_TradForm g)
  ++ omitempty "kvg:position" (Group_Position g)
  ++ omitempty "kvg:radical" (Group_Radical g) ++ omitempty "kvg:phon" (Group_Phon g)
  ++ omitempty "kvg:radicalForm" (Group_RadicalForm g)
  ++ omitempty "style" (Group_Style g).

(** [Child.MarshalXML]: a group if [IsGroup], else a text if [IsText],
    else a path. *)
Fixpoint marshalChild (c : Child) : ONode :=
  if Child_IsGroup c then
    OElement "g" (Group_attrs (Child_Group c))
      (map marshalChild (Group_Children (Child_Group c)))
  else if Child_IsText c then marshalText (Child_Text c)
  else marshalPath (Child_Path c).

Definition marshalGroup (g : Group) : ONode :=
  OElement "g" (Group_attrs g) (map marshalChild (Group_Children g)).

Definition marshalSVG (kvg : SVG) : ONode :=
  OElement "svg"
    ([("xmlns", SVG_XMLNS kvg); ("width", SVG_Width kvg); ("height", SVG_Height kvg)]
     ++ omitempty "viewBox" (SVG_ViewBox kvg))
    (map marshalGroup (SVG_Groups kvg)).

(** [MakeXML(kanjivg)]: the renumbering, then the bytes of the renumbered
    document, marshalled with tabs and handed to [fixXML];
    [xml.MarshalIndent] has no error to report on these types, so the
    [log.Fatalf] after it is never reached.  [Heading] is the variable of
    the package that [fixXML] reads. *)
Definition MakeXML (Heading : string) : M string :=
  RenumberXML ;;
  do kanjivg <- get;
  let output := MarshalIndent (marshalSVG kanjivg) "" (String tab "") in
  ret (fixXML Heading output).

(** *** Unmarshalling *)

(** The [switch attr.Name.Local] of [Path.UnmarshalXML]. *)
Definition Path_attr (p : Path) (attr : Attr) : Path :=
  let l := Local (Attr_Name attr) in
  if String.eqb l "d" then mkPath (Path_ID p) (Path_Type p) (Attr_Value attr) (Path_Class p)
  else if String.eqb l "id" then set_Path_ID (Attr_Value attr) p
  else if String.eqb l "type" then
    mkPath (Path_ID p) (Attr_Value attr) (Path_D p) (Path_Class p)
  else p.

(** [Path.UnmarshalXML]: the attributes, then tokens are read up to the
    first end tag equal to the path's own; when an element of the same
    name lies inside, that end tag comes early and the library rejects
    the element as not consumed. *)
Definition Path_UnmarshalXML (name : Name) (attrs : list Attr) (children : list Node)
  : option Path :=
  if existsb (has_element name) children then None
  else Some (fold_left Path_attr attrs zeroPath).

(** The library's default for [Text]: attributes by local name, and the
    character data directly inside the element. *)
Definition Text_attr (t : Text) (attr : Attr) : Text :=
  let l := Local (Attr_Name attr) in
  if String.eqb l "transform" then mkText (Attr_Value attr) (Text_Content t) (Text_Class t)
  else if String.eqb l "class" then mkText (Text_Transform t) (Text_Content t) (Attr_Value attr)
  else t.

Definition chardata (n : Node) : string :=
  match n with CharData s => s | _ => "" end.

Definition Text_unmarshal (attrs : list Attr) (children : list Node) : Text :=
  set_Text_Content (fold_right String.append "" (map chardata children))
    (fold_left Text_attr attrs zeroText).

(** The [switch attr.Name.Local] of [Group.UnmarshalXML]. *)
Definition Group_attr (g : Group) (attr : Attr) : Group :=
  let l := Local (Attr_Name attr) in
  let v := Attr_Value attr in
  let is_true := String.eqb v "true" in
  let '(mkGroup id el part var num orig partial trad pos rad phon radf style cs) := g in
  if String.eqb l "element" then mkGroup id v part var num orig partial trad pos rad phon radf style cs
  else if String.eqb l "id" then mkGroup v el part var num orig partial trad pos rad phon radf style cs
  else if String.eqb l "number" then mkGroup id el part var v orig partial trad pos rad phon radf style cs
  else if String.eqb l "original" then mkGroup id el part var num v partial trad pos rad phon radf style cs
  else if String.eqb l "part" then mkGroup id el v var num orig partial trad pos rad phon radf style cs
  else if String.eqb l "partial" then
    mkGroup id el part var num orig (if is_true then true else partial) trad pos rad phon radf style cs
  else if String.eqb l "phon" then mkGroup id el part var num orig partial trad pos rad v radf style cs
  else if String.eqb l "position" then mkGroup id el part var num orig partial trad v rad phon radf style cs
  else if String.eqb l "radical" then mkGroup id el part var num orig partial trad pos v phon radf style cs
  else if String.eqb l "radicalForm" then mkGroup id el part var num orig partial trad pos rad phon v style cs
  else if String.eqb l "style" then mkGroup id el part var num orig partial trad pos rad phon radf v cs
  else if String.eqb l "tradForm" then mkGroup id el part var num orig partial v pos rad phon radf style cs
  else if String.eqb l "variant" then
    mkGroup id el part (if is_true then true else var) num orig partial trad pos rad phon radf style cs
  else g.

(** The token loop of [Group.UnmarshalXML], for one node inside the group:
    the children it appends.  A [g], [path] or [text] element is decoded
    whole into a fresh [Child].  The start tag of any other element is
    reported and the loop goes on with the tokens inside that element.
    Character data, comments and the like are passed over. *)
Fixpoint Group_token (n : Node) : option (list Child) :=
  match n with
  | Element name attrs children =>
      let inside :=
        (fix tokens (l : list Node) : option (list Child) :=
           match l with
           | [] => Some []
           | x :: l' =>
               match Group_token x, tokens l' with
               | Some a, Some b => Some (a ++ b)
               | _, _ => None
               end
           end) children in
      if String.eqb (Local name) "g" then
        match inside with
        | Some cs =>
            Some [groupChild (set_Group_Children cs (fold_left Group_attr attrs zeroGroup))]
        | None => None
        end
      else if String.eqb (Local name) "path" then
        match Path_UnmarshalXML name attrs children with
        | Some p => Some [pathChild p]
        | None => None
        end
      else if String.eqb (Local name) "text" then
        Some [textChild (Text_unmarshal attrs children)]
      else inside
  | _ => Some []
  end.

Fixpoint Group_tokens (l : list Node) : option (list Child) :=
  match l with
  | [] => Some []
  | x :: l' =>
      match Group_token x, Group_tokens l' with
      | Some a, Some b => Some (a ++ b)
      | _, _ => None
      end
  end.

(** [Group.UnmarshalXML] on a zero [Group]. *)
Definition Group_UnmarshalXML (attrs : list Attr) (children : list Node) : option Group :=
  match Group_tokens children with
  | Some cs => Some (set_Group_Children cs (fold_left Group_attr attrs zeroGroup))
  | None => None
  end.

(** The library's default for [SVG]: the root must be called [svg]; the
    attributes go by local name; each child element called [g] is
    appended to [Groups]; everything else is skipped. *)
Definition SVG_attr (kvg : SVG) (attr : Attr) : SVG :=
  let l := Local (Attr_Name attr) in
  let v := Attr_Value attr in
  if String.eqb l "xmlns" then mkSVG v (SVG_Width kvg) (SVG_Height kvg) (SVG_ViewBox kvg) (SVG_Groups kvg)
  else if String.eqb l "width" then mkSVG (SVG_XMLNS kvg) v (SVG_Height kvg) (SVG_ViewBox kvg) (SVG_Groups kvg)
  else if String.eqb l "height" then mkSVG (SVG_XMLNS kvg) (SVG_Width kvg) v (SVG_ViewBox kvg) (SVG_Groups kvg)
  else if String.eqb l "viewBox" then mkSVG (SVG_XMLNS kvg) (SVG_Width kvg) (SVG_Height kvg) v (SVG_Groups kvg)
  else kvg.

Fixpoint SVG_groups (l : list Node) : option (list Group) :=
  match l with
  | [] => Some []
  | Element name attrs children :: l' =>
      if String.eqb (Local name) "g" then
        match Group_UnmarshalXML attrs children, SVG_groups l' with
        | Some g, Some gs => Some (g :: gs)
        | _, _ => None
        end
      else SVG_groups l'
  | _ :: l' => SVG_groups l'
  end.

(** [ParseKanji(contents)], on the root element the tokenizer finds in
    [contents]; [None] is an error of [xml.Unmarshal]. *)
Definition ParseKanji (root : Node) : option SVG :=
  match root with
  | Element name attrs children =>
      if String.eqb (Local name) "svg" then
        match SVG_groups children with
        | Some gs =>
            Some (set_SVG_Groups gs (fold_left SVG_attr attrs (mkSVG "" "" "" "" [])))
        | None => None
        end
      else None
  | _ => None
  end.

(** The document that [ParseKanji] builds from a marshalled tree, printed
    and tokenized again. *)
Definition read_back (indent : nat -> string) (out : ONode) : option SVG :=
  ParseKanji (reparse indent "" 0 out).

(** ** Observations on trees *)

(** The groups below a child, in document order (a group before its
    descendants), following only the children that are groups. *)
Fixpoint groups_preorder (c : Child) : list Group :=
  if Child_IsGroup c then
    Child_Group c :: flat_map groups_preorder (Group_Children (Child_Group c))
  else [].

(** The children that are not groups, in document order. *)
Fixpoint leaves_preorder (c : Child) : list Child :=
  if Child_IsGroup c then
    flat_map leaves_preorder (Group_Children (Child_Group c))
  else [c].

(** The paths among them: the leaves that are not texts. *)
Definition paths_preorder (c : Child) : list Child :=
  filter (fun l => Child_IsText l = false) (leaves_preorder c).

(** No text below this child. *)
Definition text_free (c : Child) : Prop :=
  Forall (fun l => Child_IsText l = false) (leaves_preorder c).

(** The identifiers [base-g1 .. base-gn] and [base-s1 .. base-sn]. *)
Definition g_ids (base : string) (first : Z) (n : nat) : list string :=
  map (fun k => sprintf_g base (first + Z.of_nat k)) (seq 0 n).
Definition s_ids (base : string) (first : Z) (n : nat) : list string :=
  map (fun k => sprintf_s base (first + Z.of_nat k)) (seq 0 n).

(** The tree shape: which children are groups, and how they nest. *)
#[warnings="-register-all"]
Inductive shape := ShapeGroup (children : list shape) | ShapeLeaf.

Fixpoint shape_of (c : Child) : shape :=
  if Child_IsGroup c then
    ShapeGroup (map shape_of (Group_Children (Child_Group c)))
  else ShapeLeaf.

(** The identifiers the walk assigns below a child, in document order. *)
Fixpoint walk_ids (c : Child) : list string :=
  if Child_IsGroup c then
    Group_ID (Child_Group c) :: flat_map walk_ids (Group_Children (Child_Group c))
  else [Path_ID (Child_Path c)].

(** Everything the walk leaves alone: a child with the identifiers the
    walk may assign blanked ([Group.ID] of a group child and of the groups
    below it, [Path.ID] of a child that is not a group). *)
Fixpoint frame_child (c : Child) : Child :=
  if Child_IsGroup c then
    set_Child_Group
      (set_Group_Children (map frame_child (Group_Children (Child_Group c)))
         (set_Group_ID "" (Child_Group c))) c
  else set_Child_Path (set_Path_ID "" (Child_Path c)) c.

(** The label texts blanked. *)
Definition frame_label (c : Child) : Child :=
  if Child_IsText c then set_Child_Text (set_Text_Content "" (Child_Text c)) c
  else c.

(** Everything [SetBase] and [RenumberXML] leave alone: the document with
    blanked
    - [ID] and [Style] of the first two top-level groups,
    - [ID] of the base group and the identifiers of the walk below it,
    - [Content] of the text children of the second top-level group. *)
Definition frame_top (g : Group) : Group := set_Group_Style "" (set_Group_ID "" g).

Definition frame_base (c : Child) : Child :=
  at_Child_Group (fun baseGroup =>
    set_Group_Children (map frame_child (Group_Children baseGroup))
      (set_Group_ID "" baseGroup)) c.

Definition frame_SVG (kvg : SVG) : SVG :=
  at_Groups 1 (fun g => set_Group_Children (map frame_label (Group_Children g))
                          (frame_top g))
    (at_Groups 0 (fun g => at_Children 0 frame_base (frame_top g)) kvg).

(** Structural induction on children, through the list of a group. *)
Fixpoint Child_ind' (P : Child -> Prop)
  (H : forall c, Forall P (Group_Children (Child_Group c)) -> P c)
  (c : Child) {struct c} : P c :=
  H c ((fix go (cs : list Child) : Forall P cs :=
          match cs with
          | [] => @List.Forall_nil Child P
          | c' :: cs' => @List.Forall_cons Child P c' cs' (Child_ind' P H c') (go cs')
          end) (Group_Children (Child_Group c))).

(** ** What the codec keeps *)

(** The part of a child that is marshalled: the variant its flags select,
    the other two fields at their zero values. *)
Fixpoint visible_child (c : Child) : Child :=
  if Child_IsGroup c then
    groupChild (set_Group_Children
                  (map visible_child (Group_Children (Child_Group c)))
                  (Child_Group c))
  else if Child_IsText c then textChild (Child_Text c)
  else pathChild (Child_Path c).

Definition visible_group (g : Group) : Group :=
  set_Group_Children (map visible_child (Group_Children g)) g.

Definition visible_SVG (kvg : SVG) : SVG :=
  set_SVG_Groups (map visible_group (SVG_Groups kvg)) kvg.

(** No path that is marshalled has a [class]: [Path.UnmarshalXML] has no
    case for that attribute. *)
Fixpoint class_free (c : Child) : bool :=
  if Child_IsGroup c then forallb class_free (Group_Children (Child_Group c))
  else if Child_IsText c then true
  else String.eqb (Path_Class (Child_Path c)) "".

Definition class_free_SVG (kvg : SVG) : bool :=
  forallb (fun g => forallb class_free (Group_Children g)) (SVG_Groups kvg).

(** A document as the decoder builds it: nothing out of sight, no class
    on a path. *)
Definition decoded (kvg : SVG) : Prop :=
  visible_SVG kvg = kvg /\ class_free_SVG kvg = true.

(** Structural induction on nodes, through the list of an element. *)
Fixpoint Node_ind' (P : Node -> Prop)
  (HE : forall name attrs children, Forall P children -> P (Element name attrs children))
  (HC : forall s, P (CharData s)) (HO : P Other)
  (n : Node) {struct n} : P n :=
  match n with
  | Element name attrs children =>
      HE name attrs children
        ((fix go (l : list Node) : Forall P l :=
            match l with
            | [] => @List.Forall_nil Node P
            | x :: l' => @List.Forall_cons Node P x l' (Node_ind' P HE HC HO x) (go l')
            end) children)
  | CharData s => HC s
  | Other => HO
  end.

(** ** Vocabulary of the statements *)

(** *** The walk *)

Definition n_groups (cs : list Child) : nat := length (flat_map groups_preorder cs).
Definition n_leaves (cs : list Child) : nat := length (flat_map leaves_preorder cs).

(** The identifier a leaf holds in its [Path] field. *)
Definition pid (l : Child) : string := Path_ID (Child_Path l).

(** The children of the base group, [[]] when there is no base group. *)
Definition base_children (kvg : SVG) : list Child :=
  match BaseGroup kvg with
  | Return g _ => Group_Children g
  | _ => []
  end.

(** [cs'] is [cs] numbered from [base]: in document order the groups
    hold [base-g1], [base-g2], ... and the children that are not groups
    hold [base-s1], [base-s2], ...; when no text is among them these are
    the paths; and the shape of the tree is that of [cs]. *)
Definition numbered (base : string) (cs cs' : list Child) : Prop :=
  map Group_ID (flat_map groups_preorder cs') = g_ids base 1 (n_groups cs) /\
  map pid (flat_map leaves_preorder cs') = s_ids base 1 (n_leaves cs) /\
  (Forall text_free cs ->
   map pid (flat_map paths_preorder cs')
     = s_ids base 1 (length (flat_map paths_preorder cs))) /\
  map shape_of cs' = map shape_of cs.

(** The state of the walk after a list of children, started with the
    counters at [nP] and [nG]. *)
Definition walk_post (base : string) (nP nG : Z) (gs : list Group) (ls : list Child)
  (gs' : list Group) (ls' : list Child) (n : Z * Z) : Prop :=
  n = (nP + Z.of_nat (length ls), nG + Z.of_nat (length gs)) /\
  map Group_ID gs' = g_ids base (nG + 1) (length gs) /\
  map pid ls' = s_ids base (nP + 1) (length ls) /\
  map Child_IsText ls' = map Child_IsText ls.

Definition walk_post_child (base : string) (c : Child) : Prop :=
  forall nP nG, 0 <= nP -> 0 <= nG ->
    nP + Z.of_nat (length (leaves_preorder c)) < 2 ^ 63 ->
    nG + Z.of_nat (length (groups_preorder c)) < 2 ^ 63 ->
    walk_post base nP nG (groups_preorder c) (leaves_preorder c)
      (groups_preorder (renumber c base nP nG).1)
      (leaves_preorder (renumber c base nP nG).1)
      (renumber c base nP nG).2.

Definition shape_fun (base : string) (c1 : Child) : Prop :=
  forall c2 a b, shape_of c1 = shape_of c2 ->
    walk_ids (renumber c1 base a b).1 = walk_ids (renumber c2 base a b).1 /\
    (renumber c1 base a b).2 = (renumber c2 base a b).2.

(** The base identifier and the shape below the base group. *)
Definition base_shape (kvg : SVG) : option (string * list shape) :=
  match BaseGroup kvg with
  | Return g _ => Some (Group_ID g, map shape_of (Group_Children g))
  | _ => None
  end.

(** The identifiers below the base group, in document order. *)
Definition base_walk_ids (kvg : SVG) : list string :=
  flat_map walk_ids (base_children kvg).

(** The styles of the first two top-level groups. *)
Definition top_styles (kvg : SVG) : list string :=
  map Group_Style (take 2 (SVG_Groups kvg)).

(** The styles of the groups below the first top-level group. *)
Definition descendant_styles (kvg : SVG) : list string :=
  match SVG_Groups kvg with
  | [] => []
  | g0 :: _ => map Group_Style (flat_map groups_preorder (Group_Children g0))
  end.

(** *** Sample documents *)

Definition ex_path (d : string) : Child := pathChild (mkPath "" "" d "").
Definition ex_group (id el : string) (cs : list Child) : Group :=
  mkGroup id el "" false "" "" false "" "" "" "" "" "" cs.

(** Base [kvg:09999], children [Path, Group[Path, Path], Path]. *)
Definition example_children : list Child :=
  [ ex_path "M1"; groupChild (ex_group "" "Y" [ex_path "M2"; ex_path "M3"]);
    ex_path "M4" ].

Definition example_doc : SVG :=
  mkSVG "http://www.w3.org/2000/svg" "109" "109" "0 0 109 109"
    [ ex_group "kvg:StrokePaths_09999" ""
        [ groupChild (ex_group "kvg:09999" "X" example_children) ];
      ex_group "kvg:StrokeNumbers_09999" ""
        [ textChild (mkText "matrix(1 0 0 1 4 4)" "7" "") ] ].

(** The same tree under other attributes and identifiers. *)
Definition example_doc' : SVG :=
  mkSVG "http://www.w3.org/2000/svg" "200" "200" ""
    [ ex_group "" ""
        [ groupChild (ex_group "kvg:09999" "Z"
            [ ex_path "L1"; groupChild (ex_group "old" "W" [ex_path "L2"; ex_path "L3"]);
              ex_path "L4" ]) ];
      ex_group "" "" [] ].

(** A text in front of a path, below the base group. *)
Definition text_first_doc : SVG :=
  mkSVG "http://www.w3.org/2000/svg" "109" "109" ""
    [ ex_group "kvg:StrokePaths_09999" ""
        [ groupChild (ex_group "kvg:09999" "X"
            [ textChild (mkText "" "1" ""); ex_path "M1" ]) ];
      ex_group "kvg:StrokeNumbers_09999" "" [] ].

(** The first child of the first top-level group is a path. *)
Definition path_first_doc : SVG :=
  mkSVG "http://www.w3.org/2000/svg" "109" "109" ""
    [ ex_group "kvg:StrokePaths_09999" "" [ ex_path "M1" ];
      ex_group "kvg:StrokeNumbers_09999" "" [ textChild (mkText "" "1" "") ] ].

(** No group of stroke numbers. *)
Definition one_group_doc : SVG :=
  mkSVG "http://www.w3.org/2000/svg" "109" "109" ""
    [ ex_group "kvg:StrokePaths_09999" ""
        [ groupChild (ex_group "kvg:09999" "X" [ ex_path "M1" ]) ] ].

(** Styles on the base group and on a group below it. *)
Definition styled_doc : SVG :=
  mkSVG "http://www.w3.org/2000/svg" "109" "109" ""
    [ ex_group "kvg:StrokePaths_09999" ""
        [ groupChild
            (set_Group_Style "fill:red"
               (ex_group "kvg:09999" "X"
                  [ groupChild (set_Group_Style "stroke:blue"
                                  (ex_group "" "Y" [ ex_path "M1" ])) ])) ];
      ex_group "kvg:StrokeNumbers_09999" "" [ textChild (mkText "" "1" "") ] ].

(** Two sibling groups with the element [x], a path between them. *)
Definition two_matches : Group :=
  ex_group "r" "root"
    [ groupChild (ex_group "a" "x" []); ex_path "M1"; groupChild (ex_group "b" "x" []) ].

(** A group with the element [x] inside another one. *)
Definition nested_match : Group :=
  ex_group "r" "root"
    [ groupChild (ex_group "a" "x" [ groupChild (ex_group "c" "x" []) ]) ].

(** A file of one stroke as the tokenizer reads it, with [label] as the
    stroke number. *)
Definition attr (name value : string) : Attr := mkAttr (mkName "" name) value.
Definition kvg_attr (name value : string) : Attr := mkAttr (mkName "kvg" name) value.
Definition svg_name (l : string) : Name := mkName "http://www.w3.org/2000/svg" l.

Definition sample_input (label : string) : Node :=
  Element (svg_name "svg")
    [ attr "xmlns" "http://www.w3.org/2000/svg"; attr "width" "109";
      attr "height" "109"; attr "viewBox" "0 0 109 109" ]
    [ CharData "
";
      Element (svg_name "g")
        [ attr "id" "kvg:StrokePaths_04e00"; attr "style" style_paths ]
        [ Element (svg_name "g")
            [ attr "id" "kvg:04e00"; kvg_attr "element" "X" ]
            [ Element (svg_name "path")
                [ attr "id" "kvg:04e00-s1"; kvg_attr "type" "T";
                  attr "d" "M11,54.25c3.19,0.62" ] [] ] ];
      Element (svg_name "g")
        [ attr "id" "kvg:StrokeNumbers_04e00"; attr "style" style_numbers ]
        [ Element (svg_name "text")
            [ attr "transform" "matrix(1 0 0 1 4.25 54.13)" ] [ CharData label ] ] ].

(** The file as the encoder leaves it, with the label [1]. *)
Definition canonical_input : Node := sample_input "1".

(** The same file without the group of stroke numbers. *)
Definition no_numbers_input : Node :=
  Element (svg_name "svg")
    [ attr "xmlns" "http://www.w3.org/2000/svg"; attr "width" "109";
      attr "height" "109"; attr "viewBox" "0 0 109 109" ]
    [ CharData "
";
      Element (svg_name "g")
        [ attr "id" "kvg:StrokePaths_04e00"; attr "style" style_paths ]
        [ Element (svg_name "g")
            [ attr "id" "kvg:04e00"; kvg_attr "element" "X" ]
            [ Element (svg_name "path")
                [ attr "id" "kvg:04e00-s1"; kvg_attr "type" "T";
                  attr "d" "M11,54.25c3.19,0.62" ] [] ] ] ].

(** The document decoded from [sample_input label]. *)
Definition sample_path : Child :=
  pathChild (mkPath "kvg:04e00-s1" "T" "M11,54.25c3.19,0.62" "").
Definition sample_label (label : string) : Child :=
  textChild (mkText "matrix(1 0 0 1 4.25 54.13)" label "").

Definition sample_doc (label : string) : SVG :=
  mkSVG "http://www.w3.org/2000/svg" "109" "109" "0 0 109 109"
    [ set_Group_Style style_paths
        (ex_group "kvg:StrokePaths_04e00" ""
           [ groupChild (ex_group "kvg:04e00" "X" [ sample_path ]) ]);
      set_Group_Style style_numbers
        (ex_group "kvg:StrokeNumbers_04e00" "" [ sample_label label ]) ].

(** The document decoded from [no_numbers_input]. *)
Definition no_numbers_doc : SVG :=
  mkSVG "http://www.w3.org/2000/svg" "109" "109" "0 0 109 109"
    [ set_Group_Style style_paths
        (ex_group "kvg:StrokePaths_04e00" ""
           [ groupChild (ex_group "kvg:04e00" "X" [ sample_path ]) ]) ].

(** *** File names *)

(** What a pattern matches: [matches r i w rest c c'] says that [r],
    started at offset [i] with the submatches [c], can consume [w] in
    front of [rest] and leave the submatches [c']. *)
Inductive matches : regex -> nat -> list ascii -> list ascii -> caps -> caps -> Prop :=
| M_Empty i rest c : matches Empty i [] rest c c
| M_Lit x i rest c : matches (Lit x) i [x] rest c c
| M_Class p a i rest c : p a = true -> matches (Class p) i [a] rest c c
| M_Seq r1 r2 i w1 w2 rest c c1 c2 :
    matches r1 i w1 (w2 ++ rest) c c1 ->
    matches r2 (i + length w1) w2 rest c1 c2 ->
    matches (Seq r1 r2) i (w1 ++ w2) rest c c2
| M_Alt_l r1 r2 i w rest c c' :
    matches r1 i w rest c c' -> matches (Alt r1 r2) i w rest c c'
| M_Alt_r r1 r2 i w rest c c' :
    matches r2 i w rest c c' -> matches (Alt r1 r2) i w rest c c'
| M_Opt_some r i w rest c c' :
    matches r i w rest c c' -> matches (Opt r) i w rest c c'
| M_Opt_none r i rest c : matches (Opt r) i [] rest c c
| M_Star p i w rest c :
    Forall (fun a => p a = true) w -> matches (Star p) i w rest c c
| M_Cap n r i w rest c c' :
    matches r i w rest c c' ->
    matches (Cap n r) i w rest c (<[n := Some (i, (i + length w)%nat)]> c')
| M_EndText i c : matches EndText i [] [] c c.

Definition dot_svg : list ascii := list_ascii_of_string ".svg".
Definition slash : ascii := "/"%char.

(** Nothing, or a hyphen and a token: a letter, then letters and digits. *)
Definition suffix_ok (osuf : list ascii) : Prop :=
  osuf = [] \/
  exists ch t, osuf = "-"%char :: ch :: t /\ is_alpha ch = true /\
               Forall (fun x => is_alnum x = true) t.

(** The submatches 1 to 3 of [filePartRe] when the five digits start at
    offset [a] and [osuf] follows them. *)
Definition suffix_caps (a : nat) (osuf : list ascii) (c c' : caps) : Prop :=
  (osuf = [] /\
   c' = <[1%nat := Some (a, a + 5)%nat]> (<[2%nat := Some (a, a + 5)%nat]> c)) \/
  (exists ch t, osuf = "-"%char :: ch :: t /\ is_alpha ch = true /\
     Forall (fun x => is_alnum x = true) t /\
     c' = <[1%nat := Some (a, a + 5 + length osuf)%nat]>
            (<[3%nat := Some (a + 6, a + 6 + length (ch :: t))%nat]>
               (<[2%nat := Some (a, a + 5)%nat]> c))).

Definition dir_ok (dir : list ascii) : Prop := dir = [] \/ exists x, dir = x ++ [slash].
Definition no_slash (l : list ascii) : Prop := Forall (fun a => a <> slash) l.

(** Five lower-case hexadecimal digits. *)
Definition hex5 (h : string) : Prop :=
  String.length h = 5%nat /\
  Forall (fun x => is_hex x = true) (list_ascii_of_string h).

(** A letter followed by letters and digits. *)
Definition token (t : string) : Prop :=
  exists ch rest, t = String ch rest /\ is_alpha ch = true /\
    Forall (fun x => is_alnum x = true) (list_ascii_of_string rest).

(** Nothing, or a path that ends in a slash. *)
Definition directory (dir : string) : Prop :=
  dir = "" \/ exists x, dir = x +:+ "/".

(** *** The codec *)

(** The children of an element as [reparse] lays them out. *)
Definition reparse_children (indent : nat -> string) (ns : string) (depth : nat)
  (children : list ONode) : list Node :=
  flat_map (fun child =>
              if is_element child
              then [CharData (indent (S depth)); reparse indent ns (S depth) child]
              else [reparse indent ns (S depth) child]) children
  ++ (if existsb is_element children then [CharData (indent depth)] else []).

Definition child_ok (c : Child) : Prop := visible_child c = c /\ class_free c = true.

(** ** Queries that return pointers

    A pointer into the tree of the receiver is the list of the indices of
    the children to go through, as for [multiSearch]. *)

(** A [*Child] or a [*Path] inside the tree of the receiver: the indices
    of the children to go through, [p ++ [i]] for [&p.Children[i]] and for
    [&p.Children[i].Path]. *)
Definition ChildPtr := list nat.

(** The child that a [*Child] points to. *)
Fixpoint deref_child (g : Group) (p : ChildPtr) : option Child :=
  match p with
  | [] => None
  | i :: p' =>
      match Group_Children g !! i with
      | Some c =>
          match p' with
          | [] => Some c
          | _ :: _ => deref_child (Child_Group c) p'
          end
      | None => None
      end
  end.

(** [FindElement(gp, funky)].  The results [found] and [loc] are named:
    the loop assigns both from each recursive call, and the final
    [return false, loc] returns [loc] as the last call left it. *)
Fixpoint FindElement (gp : GroupPtr) (g : Group) (funky : string) {struct g}
  : bool * list GroupPtr :=
  if String.eqb (Group_Element g) funky then (true, [gp])
  else
    (fix range (i : nat) (cs : list Child) (loc : list GroupPtr)
       : bool * list GroupPtr :=
       match cs with
       | [] => (false, loc)
       | c :: cs' =>
           if Child_IsGroup c then
             let '(found, loc) := FindElement (gp ++ [i]) (Child_Group c) funky in
             if found then (true, loc ++ [gp]) else range (S i) cs' loc
           else range (S i) cs' loc
       end) 0%nat (Group_Children g) [].

(** [FindType(g, t)]. *)
Fixpoint FindType (gp : GroupPtr) (g : Group) (t : string) {struct g}
  : bool * list ChildPtr :=
  (fix range (i : nat) (cs : list Child) (loc : list ChildPtr)
     : bool * list ChildPtr :=
     match cs with
     | [] => (false, loc)
     | c :: cs' =>
         if Child_IsGroup c then
           let '(found, loc) := FindType (gp ++ [i]) (Child_Group c) t in
           if found then (true, loc ++ [gp ++ [i]]) else range (S i) cs' loc
         else
           if String.eqb (Path_Type (Child_Path c)) t then (true, [gp ++ [i]])
           else range (S i) cs' loc
     end) 0%nat (Group_Children g) [].

(** [getPaths(g)]: pointers to the [Path] fields. *)
Fixpoint getPaths (gp : GroupPtr) (g : Group) {struct g} : list ChildPtr :=
  (fix range (i : nat) (cs : list Child) (paths : list ChildPtr) : list ChildPtr :=
     match cs with
     | [] => paths
     | c :: cs' =>
         if Child_IsGroup c then
           let gpaths := getPaths (gp ++ [i]) (Child_Group c) in
           range (S i) cs' (paths ++ gpaths)
         else range (S i) cs' (paths ++ [gp ++ [i]])
     end) 0%nat (Group_Children g) [].

(** [svg.GetPaths()]: the pointers are relative to the base group. *)
Definition SVG_GetPaths : M (list ChildPtr) :=
  do base <- BaseGroup;
  ret (getPaths [] base).

(** [base.GetGroups()]. *)
Fixpoint GetGroups (gp : GroupPtr) (base : Group) {struct base} : list GroupPtr :=
  (fix range (i : nat) (cs : list Child) (groups : list GroupPtr) : list GroupPtr :=
     match cs with
     | [] => groups
     | c :: cs' =>
         if negb (Child_IsGroup c) then range (S i) cs' groups
         else
           let cgroups := GetGroups (gp ++ [i]) (Child_Group c) in
           range (S i) cs' (groups ++ cgroups)
     end) 0%nat (Group_Children base) [] ++ [gp].

(** [struct Radical]. *)
Record Radical := mkRadical {
  Radical_General : list GroupPtr;
  Radical_Tradit : list GroupPtr;
  Radical_Nelson : list GroupPtr;
  Radical_JIS : list GroupPtr
}.

(** [g.SearchRadical(radPtr)], with [PrintDouble] and the log left out:
    the children first, then [g] itself by the value of [kvg:radical]. *)
Fixpoint SearchRadical (gp : GroupPtr) (g : Group) (rad : Radical) {struct g} : Radical :=
  let rad :=
    (fix range (i : nat) (cs : list Child) (rad : Radical) : Radical :=
       match cs with
       | [] => rad
       | c :: cs' =>
           if negb (Child_IsGroup c) then range (S i) cs' rad
           else range (S i) cs' (SearchRadical (gp ++ [i]) (Child_Group c) rad)
       end) 0%nat (Group_Children g) rad in
  let r := Group_Radical g in
  if (String.length r =? 0)%nat then rad
  else if String.eqb r "general" then
    mkRadical (Radical_General rad ++ [gp]) (Radical_Tradit rad) (Radical_Nelson rad)
      (Radical_JIS rad)
  else if String.eqb r "nelson" then
    mkRadical (Radical_General rad) (Radical_Tradit rad) (Radical_Nelson rad ++ [gp])
      (Radical_JIS rad)
  else if String.eqb r "jis" then
    mkRadical (Radical_General rad) (Radical_Tradit rad) (Radical_Nelson rad)
      (Radical_JIS rad ++ [gp])
  else if String.eqb r "tradit" then
    mkRadical (Radical_General rad) (Radical_Tradit rad ++ [gp]) (Radical_Nelson rad)
      (Radical_JIS rad)
  else rad.

(** [base.Subgroups()].  The inner [range celgr] touches each key of
    [celgr] once. *)
Fixpoint Subgroups (gp : GroupPtr) (base : Group) {struct base}
  : gmap string (list GroupPtr) :=
  let el := Group_Element base in
  let elgr :=
    (fix range (i : nat) (cs : list Child) (elgr : gmap string (list GroupPtr))
       : gmap string (list GroupPtr) :=
       match cs with
       | [] => elgr
       | c :: cs' =>
           if negb (Child_IsGroup c) then range (S i) cs' elgr
           else
             let celgr := Subgroups (gp ++ [i]) (Child_Group c) in
             range (S i) cs'
               (map_fold (fun s gr elgr => <[s := default [] (elgr !! s) ++ gr]> elgr)
                  elgr celgr)
       end) 0%nat (Group_Children base) ∅ in
  <[el := default [] (elgr !! el) ++ [gp]]> elgr.

(** ** Identifiers and their numbers *)

(** [[0-9]]. *)
Definition is_digit (a : ascii) : bool := in_range "0" "9" a.

(** [groupIDRe] and [pathIDRe]: [kvg:], [hexID] as group 1, [.*], then
    [-g] or [-s] and group 2, one decimal digit or more. *)
Definition id_tail (letter : ascii) : regex :=
  Seq (Star dot)
    (Seq (Seq (Lit "-") (Lit letter))
       (Cap 2 (Seq (Class is_digit) (Star is_digit)))).

Definition idRe (letter : ascii) : regex :=
  Seq (lit "kvg:") (Seq (hexID 1) (id_tail letter)).

Definition groupIDRe : regex := idRe "g".
Definition pathIDRe : regex := idRe "s".

(** [decimalToNum(Decimal)]. *)
Definition decimalToNum (Decimal : string) : proc Z :=
  match ParseInt Decimal 10 with
  | Some num => Returns num
  | None => os_Exit 1
  end.

(** [PathIDToNum(id)]: [match[2]] is taken without a look at [match],
    which is nil when the pattern does not match. *)
Definition PathIDToNum (id : string) : runtime_error + proc Z :=
  let match_ := default [] (FindStringSubmatch pathIDRe id) in
  match match_ !! 2%nat with
  | Some d => inr (decimalToNum d)
  | None => inl (IndexOutOfRange 2 (length match_))
  end.

(** ** Names of backup files *)

(** [Backup]: [/\.#|/#|~$]. *)
Definition Backup : regex :=
  alts [lit "/.#"; lit "/#"; Seq (Lit "~") EndText].

(** ** [strip] of [cmd/strip.go]

    The body of [strip] between reading the file and writing it. *)

(** [p.Type = v]. *)
Definition set_Path_Type (v : string) (p : Path) : Path :=
  mkPath (Path_ID p) v (Path_D p) (Path_Class p).

(** Writes through a [*Group] and through a [*Path] into the tree they
    point into. *)
Fixpoint at_GroupPtr (p : GroupPtr) (f : Group -> Group) (g : Group) : Group :=
  match p with
  | [] => f g
  | i :: p' => at_Children i (at_Child_Group (at_GroupPtr p' f)) g
  end.

Fixpoint at_PathPtr (p : ChildPtr) (f : Path -> Path) (g : Group) : Group :=
  match p with
  | [] => g
  | [i] => at_Children i (fun c => set_Child_Path (f (Child_Path c)) c) g
  | i :: p' => at_Children i (at_Child_Group (at_PathPtr p' f)) g
  end.

(** The eleven assignments of the first loop of [strip]. *)
Definition strip_attributes (g : Group) : Group :=
  mkGroup (Group_ID g) "" "" false "" "" false "" "" "" "" ""
    (Group_Style g) (Group_Children g).

(** [strip] between reading and writing the file, on the base group:
    both slices of pointers are taken first, then come the two loops. *)
Definition strip_tree (base : Group) : Group :=
  let paths := getPaths [] base in
  let groups := GetGroups [] base in
  let base := foldl (fun b g => at_GroupPtr g strip_attributes b) base groups in
  foldl (fun b p => at_PathPtr p (set_Path_Type "") b) base paths.

(** On the document: [base] is [svg.BaseGroup()]. *)
Definition strip_body : M unit :=
  do _ <- BaseGroup;
  modify (at_BaseGroup strip_tree).

(** ** [guessShape] of [cmd/skip.go]

    The SKIP code guessed from the first child of the base group.  The
    [int] of the program is taken at 64 bits.  What is printed is left
    out; the three counters of the report that [guessShape] advances are
    passed in and out. *)

(** The constants of the program. *)
Definition unknown : Z := -1.

Definition SkipLeftRight : Z := 1.
Definition SkipUpDown : Z := 2.
Definition SkipEnclosure : Z := 3.
Definition SkipSolid : Z := 4.

Definition SkipTop : Z := 1.
Definition SkipBottom : Z := 2.
Definition SkipThrough : Z := 3.
Definition SkipOthers : Z := 4.

(** [nogroup], [nopos] and [oneChild]. *)
Record Counters := mkCounters {
  nogroup : Z;
  nopos : Z;
  oneChild : Z
}.

(** [case a, b, ...] of a [switch], and a chain of [==] joined by [||]. *)
Definition one_of (s : string) (l : list string) : bool :=
  existsb (String.eqb s) l.

(** [guessShape(base)].  [child0] and [child1] are the [Group] fields of
    the first two children; the second is read whatever its flags say. *)
Definition guessShape (base : Group) (n : Counters)
  : runtime_error + (Z * Z * Z * Counters) :=
  if (length (Group_Children base) =? 1)%nat then
    inr (SkipSolid, unknown, unknown,
         mkCounters (nogroup n) (nopos n) (incr64 (oneChild n)))
  else
    match Group_Children base !! 0%nat with
    | None => inl (IndexOutOfRange 0 (length (Group_Children base)))
    | Some c0 =>
        if negb (Child_IsGroup c0) then
          inr (SkipSolid, unknown, unknown,
               mkCounters (incr64 (nogroup n)) (nopos n) (oneChild n))
        else
          let child0 := Child_Group c0 in
          let pos := Group_Position child0 in
          let element := Group_Element child0 in
          let nchild0 := Z.of_nat (length (getPaths [] child0)) in
          let nbase := Z.of_nat (length (getPaths [] base)) in
          let nremaining := wrap64 (nbase - nchild0) in
          let '(nchild0, nremaining) :=
            if one_of element ["匚"; "囗"]
            then (incr64 nchild0, wrap64 (nremaining - 1))
            else (nchild0, nremaining) in
          if String.eqb pos "left" then
            inr (SkipLeftRight, nchild0, nremaining, n)
          else if one_of pos ["tare"; "nyo"; "kamae"; "⿵A"] then
            if String.eqb pos "kamae" && String.eqb element "行" then
              inr (SkipLeftRight, nchild0, nremaining, n)
            else if String.eqb pos "tare"
                    && (String.eqb element "户" || String.eqb element "戸") then
              inr (SkipUpDown, nchild0, nremaining, n)
            else inr (SkipEnclosure, nchild0, nremaining, n)
          else if one_of pos ["nyoc"; "tarec"; "⿶"; "⿶2"] then
            inr (SkipEnclosure, nremaining, nchild0, n)
          else if String.eqb pos "top" then
            inr (SkipUpDown, nchild0, nremaining, n)
          else if (0 <? String.length pos)%nat then
            inr (SkipSolid, nbase, SkipOthers, n)
          else
            match Group_Children base !! 1%nat with
            | None => inl (IndexOutOfRange 1 (length (Group_Children base)))
            | Some c1 =>
                let child1 := Child_Group c1 in
                let pos1 := Group_Position child1 in
                if String.eqb pos1 "kamae" then
                  inr (SkipEnclosure, nchild0, nremaining, n)
                else if one_of element ["尺"; "几"; "广"; "弋"; "戈"; "耂"] then
                  inr (SkipLeftRight, nchild0, nremaining, n)
                else if String.eqb element "衣" then
                  inr (SkipUpDown, 2, wrap64 (nbase - 2), n)
                else if String.eqb element "弍" then
                  inr (SkipUpDown, 3, wrap64 (nbase - 3), n)
                else if one_of element ["一"; "二"] then
                  inr (SkipSolid, nbase, SkipTop, n)
                else
                  inr (SkipSolid, nbase, SkipOthers,
                       mkCounters (nogroup n) (incr64 (nopos n)) (oneChild n))
            end
    end.

(** The stroke count that [makeSkip] compares with the one of the SKIP
    code, computed when neither [a] nor [b] is [unknown]. *)
Definition strCount (bshape a b : Z) : Z :=
  if bshape =? 4 then a else wrap64 (a + b).

(** A base group of two parts, the first on the left. *)
Definition left_right_base : Group :=
  ex_group "kvg:04f11" "X"
    [ groupChild (mkGroup "kvg:04f11-g1" "Y" "" false "" "" false "" "left" "" "" "" ""
                    [ex_path "M1"; ex_path "M2"]);
      groupChild (ex_group "kvg:04f11-g2" "Z"
                    [ex_path "M3"; ex_path "M4"; ex_path "M5"; ex_path "M6"]) ].

(** ** [skipToNums] of [cmd/skip.go] *)

(** [struct skipcode]. *)
Record skipcode := mkskipcode {
  skipcode_shape : Z;
  skipcode_a : Z;
  skipcode_b : Z
}.

(** [[0-9]+]. *)
Definition digits1 : regex := Seq (Class is_digit) (Star is_digit).

(** [skipre]: [([1-4])-([0-9]+)-([0-9]+)]. *)
Definition skipre : regex :=
  Seq (Cap 1 (Class (in_range "1" "4")))
    (Seq (Lit "-") (Seq (Cap 2 digits1) (Seq (Lit "-") (Cap 3 digits1)))).

(** The loop of [strconv.ParseUint] in base 10: [None] is a syntax error;
    on a value that does not fit in 64 bits it stops with the largest
    one. *)
Fixpoint atoi_digits (n : Z) (s : list ascii) : option Z :=
  match s with
  | [] => Some n
  | c :: s' =>
      if is_digit c then
        let d := Z.of_nat (nat_of_ascii c) - 48 in
        if (2 ^ 64 - 1) / 10 + 1 <=? n then Some (2 ^ 64 - 1)
        else if 2 ^ 64 - 1 <? n * 10 + d then Some (2 ^ 64 - 1)
        else atoi_digits (n * 10 + d) s'
      else None
  end.

(** [n, _ = strconv.Atoi(s)] for an [int] of 64 bits: 0 after a syntax
    error, the nearest [int] after a value out of range. *)
Definition Atoi (s : string) : Z :=
  match list_ascii_of_string s with
  | [] => 0
  | a :: s' =>
      let neg := Ascii.eqb a "-" in
      let digits := if Ascii.eqb a "+" || neg then s' else a :: s' in
      match digits with
      | [] => 0
      | _ :: _ =>
          match atoi_digits 0 digits with
          | None => 0
          | Some un =>
              if negb neg && (2 ^ 63 <=? un) then 2 ^ 63 - 1
              else if neg && (2 ^ 63 <? un) then - 2 ^ 63
              else if neg then - un else un
          end
      end
  end.

(** [skipToNums(skip)]. *)
Definition skipToNums (skip : string) : runtime_error + proc skipcode :=
  let matches := default [] (FindStringSubmatch skipre skip) in
  if (length matches =? 0)%nat then inr (os_Exit 1)
  else
    match matches !! 1%nat, matches !! 2%nat, matches !! 3%nat with
    | Some m1, Some m2, Some m3 => inr (Returns (mkskipcode (Atoi m1) (Atoi m2) (Atoi m3)))
    | None, _, _ => inl (IndexOutOfRange 1 (length matches))
    | _, None, _ => inl (IndexOutOfRange 2 (length matches))
    | _, _, None => inl (IndexOutOfRange 3 (length matches))
    end.

(** ** Vocabulary of the further statements *)

(** *** Trees listed with pointers

    The groups and the other children of a tree, each with the pointer
    that leads to it, and the loops of the queries as functions of their
    own. *)

(** The chain from a pointer up to the receiver: the pointer, the group
    it is a child of, and so on; the receiver ([[]]) comes last. *)
Definition chain_up (q : GroupPtr) : list GroupPtr :=
  map (fun k => take k q) (rev (seq 0 (S (length q)))).

(** Pointers below child [i]. *)
Definition below {A} (i : nat) (l : list (list nat * A)) : list (list nat * A) :=
  map (fun x : list nat * A => (i :: x.1, x.2)) l.

(** The groups at and below a child, in document order, each with its
    pointer relative to that child. *)
Fixpoint child_groups (c : Child) : list (GroupPtr * Group) :=
  if Child_IsGroup c then
    ([], Child_Group c)
    :: concat (imap below (map child_groups (Group_Children (Child_Group c))))
  else [].

(** The groups of the tree of [g], [g] first. *)
Definition group_list (g : Group) : list (GroupPtr * Group) :=
  ([], g) :: concat (imap below (map child_groups (Group_Children g))).

(** The test of [FindElement] on a listed group. *)
Definition element_matches (funky : string) (x : GroupPtr * Group) : bool :=
  String.eqb (Group_Element x.2) funky.

(** The loop of [FindElement] from child [i] on. *)
Fixpoint FindElement_range (gp : GroupPtr) (funky : string) (i : nat) (cs : list Child)
  (loc : list GroupPtr) : bool * list GroupPtr :=
  match cs with
  | [] => (false, loc)
  | c :: cs' =>
      if Child_IsGroup c then
        let '(found, loc) := FindElement (gp ++ [i]) (Child_Group c) funky in
        if found then (true, loc ++ [gp]) else FindElement_range gp funky (S i) cs' loc
      else FindElement_range gp funky (S i) cs' loc
  end.

(** The first match of a listing and its chain, as pointers from [gp]. *)
Definition FindElement_spec (gp : GroupPtr) (funky : string)
  (l : list (GroupPtr * Group)) : bool * list GroupPtr :=
  match find (element_matches funky) l with
  | Some x => (true, map (app gp) (chain_up x.1))
  | None => (false, [])
  end.

(** The children at and below a child that are not groups, in document
    order, each with its pointer relative to that child ([[]] for the
    child itself). *)
Fixpoint child_leaves (c : Child) : list (ChildPtr * Child) :=
  if Child_IsGroup c then
    concat (imap below (map child_leaves (Group_Children (Child_Group c))))
  else [([], c)].

(** The children below [g] that are not groups, with their pointers. *)
Definition leaf_list (g : Group) : list (ChildPtr * Child) :=
  concat (imap below (map child_leaves (Group_Children g))).

(** The chain from a child up to the child of the receiver it is in. *)
Definition chain_child (q : ChildPtr) : list ChildPtr :=
  map (fun k => take k q) (rev (seq 1 (length q))).

(** The test of [FindType] on a listed child. *)
Definition type_matches (t : string) (x : ChildPtr * Child) : bool :=
  String.eqb (Path_Type (Child_Path x.2)) t.

(** The loop of [FindType] from child [i] on. *)
Fixpoint FindType_range (gp : GroupPtr) (t : string) (i : nat) (cs : list Child)
  (loc : list ChildPtr) : bool * list ChildPtr :=
  match cs with
  | [] => (false, loc)
  | c :: cs' =>
      if Child_IsGroup c then
        let '(found, loc) := FindType (gp ++ [i]) (Child_Group c) t in
        if found then (true, loc ++ [gp ++ [i]]) else FindType_range gp t (S i) cs' loc
      else
        if String.eqb (Path_Type (Child_Path c)) t then (true, [gp ++ [i]])
        else FindType_range gp t (S i) cs' loc
  end.

(** The loop of [getPaths] from child [i] on. *)
Fixpoint getPaths_range (gp : GroupPtr) (i : nat) (cs : list Child)
  (paths : list ChildPtr) : list ChildPtr :=
  match cs with
  | [] => paths
  | c :: cs' =>
      if Child_IsGroup c then
        getPaths_range gp (S i) cs' (paths ++ getPaths (gp ++ [i]) (Child_Group c))
      else getPaths_range gp (S i) cs' (paths ++ [gp ++ [i]])
  end.

(** The first match of a listing and its chain, as pointers from [gp]. *)
Definition FindType_spec (gp : GroupPtr) (t : string)
  (l : list (ChildPtr * Child)) : bool * list ChildPtr :=
  match find (type_matches t) l with
  | Some x => (true, map (app gp) (chain_child x.1))
  | None => (false, [])
  end.

(** The groups at and below a child, each after the groups below it. *)
Fixpoint child_groups_post (c : Child) : list (GroupPtr * Group) :=
  if Child_IsGroup c then
    concat (imap below (map child_groups_post (Group_Children (Child_Group c))))
    ++ [([], Child_Group c)]
  else [].

(** The groups of the tree of [g], each after the groups below it. *)
Definition group_list_post (g : Group) : list (GroupPtr * Group) :=
  concat (imap below (map child_groups_post (Group_Children g))) ++ [([], g)].

(** The loop of [GetGroups] from child [i] on. *)
Fixpoint GetGroups_range (gp : GroupPtr) (i : nat) (cs : list Child)
  (groups : list GroupPtr) : list GroupPtr :=
  match cs with
  | [] => groups
  | c :: cs' =>
      if negb (Child_IsGroup c) then GetGroups_range gp (S i) cs' groups
      else GetGroups_range gp (S i) cs' (groups ++ GetGroups (gp ++ [i]) (Child_Group c))
  end.

(** No pointer is followed by a pointer below it. *)
Definition post_ordered (l : list GroupPtr) : Prop :=
  forall l1 p l2, l = l1 ++ p :: l2 -> Forall (fun q => ~ p `prefix_of` q) l2.

(** Is the group that [p] points to in the tree of [g] one with this
    [kvg:radical], or with this [kvg:element]? *)
Definition radical_is (g : Group) (v : string) (p : GroupPtr) : bool :=
  match deref g p with
  | Some m => String.eqb (Group_Radical m) v
  | None => false
  end.

Definition element_is (g : Group) (v : string) (p : GroupPtr) : bool :=
  match deref g p with
  | Some m => String.eqb (Group_Element m) v
  | None => false
  end.

(** The loop of [SearchRadical] from child [i] on. *)
Fixpoint SearchRadical_range (gp : GroupPtr) (i : nat) (cs : list Child) (rad : Radical)
  : Radical :=
  match cs with
  | [] => rad
  | c :: cs' =>
      if negb (Child_IsGroup c) then SearchRadical_range gp (S i) cs' rad
      else SearchRadical_range gp (S i) cs' (SearchRadical (gp ++ [i]) (Child_Group c) rad)
  end.

(** The pointers of a listing whose groups have this [kvg:radical]. *)
Definition bucket (gp : GroupPtr) (v : string) (l : list (GroupPtr * Group))
  : list GroupPtr :=
  map (fun x => gp ++ x.1) (List.filter (fun x => String.eqb (Group_Radical x.2) v) l).

(** A [Radical] with the groups of a listing added by their [kvg:radical]. *)
Definition add_buckets (gp : GroupPtr) (l : list (GroupPtr * Group)) (rad : Radical)
  : Radical :=
  mkRadical (Radical_General rad ++ bucket gp "general" l)
    (Radical_Tradit rad ++ bucket gp "tradit" l)
    (Radical_Nelson rad ++ bucket gp "nelson" l)
    (Radical_JIS rad ++ bucket gp "jis" l).

(** A key is in the map only with a list that is not empty. *)
Definition nonempty {A} (l : list A) : option (list A) :=
  match l with [] => None | _ :: _ => Some l end.

(** The loop of [Subgroups] from child [i] on. *)
Fixpoint Subgroups_range (gp : GroupPtr) (i : nat) (cs : list Child)
  (elgr : gmap string (list GroupPtr)) : gmap string (list GroupPtr) :=
  match cs with
  | [] => elgr
  | c :: cs' =>
      if negb (Child_IsGroup c) then Subgroups_range gp (S i) cs' elgr
      else
        Subgroups_range gp (S i) cs'
          (map_fold (fun s gr elgr => <[s := default [] (elgr !! s) ++ gr]> elgr)
             elgr (Subgroups (gp ++ [i]) (Child_Group c)))
  end.

(** The pointers of a listing whose groups have this [kvg:element]. *)
Definition by_element (gp : GroupPtr) (el : string) (l : list (GroupPtr * Group))
  : list GroupPtr :=
  map (fun x => gp ++ x.1) (List.filter (fun x => String.eqb (Group_Element x.2) el) l).

(** The identifier in the [Path] field that [p] points to. *)
Definition path_id_at (g : Group) (p : ChildPtr) : option string :=
  pid <$> deref_child g p.

(** *** Renumbering *)

(** The identifier of the top-level group [i]. *)
Definition top_id (kvg : SVG) (i : nat) : option string :=
  Group_ID <$> SVG_Groups kvg !! i.

(** The children of the second top-level group. *)
Definition labels (kvg : SVG) : list Child :=
  match SVG_Groups kvg !! 1%nat with
  | Some g => Group_Children g
  | None => []
  end.

(** What a run of [RenumberXML] sets besides the identifiers of the
    walk: the two styles and the labels, when the second top-level group is
    there. *)
Definition styles_and_labels (kvg : SVG) : SVG :=
  match SVG_Groups kvg with
  | g0 :: g1 :: gs =>
      set_SVG_Groups
        (set_Group_Style style_paths g0
         :: set_Group_Style style_numbers
              (set_Group_Children (imap relabel (Group_Children g1)) g1)
         :: gs) kvg
  | _ => kvg
  end.

(** *** Identifiers and patterns *)

(** The prefix [kvg:] as characters. *)
Definition kvg_colon : list ascii := list_ascii_of_string "kvg:".

(** No line feed: every character is one that [.] takes. *)
Definition no_newline (s : string) : Prop :=
  Forall (fun a => dot a = true) (list_ascii_of_string s).

(** [s] has [t] somewhere inside; [s] ends in [t]. *)
Definition contains (t s : string) : Prop := exists a b, s = a +:+ t +:+ b.
Definition ends_in (t s : string) : Prop := exists a, s = a +:+ t.

(** The identifier holds [kvg:], five hexadecimal digits and, later on the
    same line, [-s] and a decimal digit. *)
Definition has_path_number (id : string) : Prop :=
  exists pre h mid d rest,
    id = pre +:+ "kvg:" +:+ h +:+ mid +:+ "-s" +:+ String d rest /\
    hex5 h /\ no_newline mid /\ is_digit d = true.

(** [fileIDRe] after its leading [.*]. *)
Definition suffix_re : regex := Seq (Lit "-") (Seq (Class dot) (Star dot)).
Definition svg_end_re : regex := Seq (lit ".svg") EndText.
Definition fileID_tail : regex := Seq (hexID 1) (Seq (Opt suffix_re) svg_end_re).

(** A tail [T] that [fileID_tail] takes whole, with group 1 on its first
    five characters, and of which it takes no proper suffix. *)
Definition code_tail (T : list ascii) : Prop :=
  (forall i c k, run fileID_tail T i c k
                 = k [] (i + length T)%nat (<[1%nat := Some (i, (i + 5)%nat)]> c)) /\
  (forall m rest0 i c k, m <> [] -> T = m ++ rest0 -> run fileID_tail rest0 i c k = None).

(** The token does not end in five hexadecimal digits. *)
Definition no_hex5_tail (t : list ascii) : Prop :=
  forall a b, t = a ++ b -> length b = 5%nat -> ~ Forall (fun x => is_hex x = true) b.

(** The token does not end in five hexadecimal digits. *)
Definition no_hex5_end (t : string) : Prop :=
  forall a b, t = a +:+ b -> ~ hex5 b.

(** *** Marshalling *)

(** What is read back of a child that was marshalled: the variant its
    flags select, of a path everything but its [class], and every string
    as [xml_text] has it. *)
Definition written_Path (p : Path) : Path :=
  mkPath (xml_text (Path_ID p)) (xml_text (Path_Type p)) (xml_text (Path_D p)) "".

Definition written_Text (t : Text) : Text :=
  mkText (xml_text (Text_Transform t)) (xml_text (Text_Content t))
    (xml_text (Text_Class t)).

(** The attributes of a group, its children as they are. *)
Definition written_Group (g : Group) : Group :=
  mkGroup (xml_text (Group_ID g)) (xml_text (Group_Element g))
    (xml_text (Group_Part g)) (Group_Variant g) (xml_text (Group_Number g))
    (xml_text (Group_Original g)) (Group_Partial g) (xml_text (Group_TradForm g))
    (xml_text (Group_Position g)) (xml_text (Group_Radical g))
    (xml_text (Group_Phon g)) (xml_text (Group_RadicalForm g))
    (xml_text (Group_Style g)) (Group_Children g).

Fixpoint written_child (c : Child) : Child :=
  if Child_IsGroup c then
    groupChild (set_Group_Children
                  (map written_child (Group_Children (Child_Group c)))
                  (written_Group (Child_Group c)))
  else if Child_IsText c then textChild (written_Text (Child_Text c))
  else pathChild (written_Path (Child_Path c)).

(** The same of a document. *)
Definition written_SVG (kvg : SVG) : SVG :=
  mkSVG (xml_text (SVG_XMLNS kvg)) (xml_text (SVG_Width kvg))
    (xml_text (SVG_Height kvg)) (xml_text (SVG_ViewBox kvg))
    (map (fun g => set_Group_Children (map written_child (Group_Children g))
                     (written_Group g))
       (SVG_Groups kvg)).

(** A string that the escaping carries as it is: the tokenizer yields no
    other, it refuses a byte that starts no UTF-8 sequence and a character
    that XML cannot carry. *)
Definition is_xml_text (s : string) : bool := String.eqb (xml_text s) s.

(** A tree of tokens whose attribute values and character data are XML
    text. *)
Fixpoint tokenized (n : Node) : bool :=
  match n with
  | Element _ attrs children =>
      forallb (fun a => is_xml_text (Attr_Value a)) attrs && forallb tokenized children
  | CharData s => is_xml_text s
  | Other => true
  end.

(** *** [strip] *)

(** A tree with [f] applied to every group, the groups below a group
    before the group. *)
Fixpoint map_groups_child (f : Group -> Group) (c : Child) : Child :=
  if Child_IsGroup c then
    set_Child_Group
      (f (set_Group_Children
            (map (map_groups_child f) (Group_Children (Child_Group c)))
            (Child_Group c))) c
  else c.

(** The same of a group, [f] applied to it last. *)
Definition map_groups (f : Group -> Group) (g : Group) : Group :=
  f (set_Group_Children (map (map_groups_child f) (Group_Children g)) g).

(** A tree with [h] applied to the [Path] field of every child that is
    not a group. *)
Fixpoint map_paths_child (h : Path -> Path) (c : Child) : Child :=
  if Child_IsGroup c then
    set_Child_Group
      (set_Group_Children
         (map (map_paths_child h) (Group_Children (Child_Group c)))
         (Child_Group c)) c
  else set_Child_Path (h (Child_Path c)) c.

(** The same of a group. *)
Definition map_paths (h : Path -> Path) (g : Group) : Group :=
  set_Group_Children (map (map_paths_child h) (Group_Children g)) g.

(** The tree without the attributes and the types. *)
Fixpoint stripped_child (c : Child) : Child :=
  if Child_IsGroup c then
    set_Child_Group
      (strip_attributes
         (set_Group_Children
            (map stripped_child (Group_Children (Child_Group c)))
            (Child_Group c))) c
  else set_Child_Path (set_Path_Type "" (Child_Path c)) c.

(** The same of a group. *)
Definition stripped (g : Group) : Group :=
  strip_attributes (set_Group_Children (map stripped_child (Group_Children g)) g).

(** *** [fixXML] *)

(** A string without its tabs. *)
Fixpoint drop_tabs (s : string) : string :=
  match s with
  | EmptyString => EmptyString
  | String a s' => if Ascii.eqb a tab then drop_tabs s' else String a (drop_tabs s')
  end.

(** ** Tactics *)

Ltac fields :=
  cbv [walk_base at_Child_Group at_Children at_Groups frame_SVG frame_top frame_base
       frame_label visible_group visible_SVG class_free_SVG
       groupChild pathChild textChild
       set_Child_Group set_Child_Path set_Child_Text set_Group_Children set_Group_Style
       set_Group_ID set_SVG_Groups set_Path_ID set_Text_Content
       Child_Group Child_Path Child_Text Child_IsGroup
       Child_IsText Group_Children Group_ID Group_Element Group_Part Group_Variant
       Group_Number Group_Original Group_Partial Group_TradForm Group_Position
       Group_Radical Group_Phon Group_RadicalForm Group_Style
       Path_ID Path_Type Path_D Path_Class Text_Transform Text_Content Text_Class
       SVG_Groups SVG_XMLNS SVG_Width SVG_Height SVG_ViewBox final_doc].

Ltac inv_matches :=
  repeat match goal with
    | H : matches (Seq _ _) _ _ _ _ _ |- _ => inversion H; subst; clear H
    | H : matches (Cap _ _) _ _ _ _ _ |- _ => inversion H; subst; clear H
    | H : matches (Lit _) _ _ _ _ _ |- _ => inversion H; subst; clear H
    | H : matches (Class _) _ _ _ _ _ |- _ => inversion H; subst; clear H
    | H : matches (Star _) _ _ _ _ _ |- _ => inversion H; subst; clear H
    | H : matches EndText _ _ _ _ _ |- _ => inversion H; subst; clear H
    | H : matches (Opt _) _ _ _ _ _ |- _ => inversion H; subst; clear H
    end.

(** * Properties *)

(** ** The walk *)

Lemma incr64_small n : 0 <= n -> n + 1 < 2 ^ 63 -> incr64 n = n + 1.
Proof.
  intros H0 H1. unfold incr64, wrap64.
  rewrite Z.mod_small; lia.
Qed.

(** The loop inside [renumber] is [renumber_range]. *)
Lemma renumber_unfold c base nP nG :
  renumber c base nP nG =
  if Child_IsGroup c then
    let nG' := incr64 nG in
    let '(cs, n) := renumber_range (Group_Children (Child_Group c)) base nP nG' in
    (set_Child_Group
       (set_Group_Children cs (set_Group_ID (sprintf_g base nG') (Child_Group c))) c, n)
  else
    let nP' := incr64 nP in
    (set_Child_Path (set_Path_ID (sprintf_s base nP') (Child_Path c)) c, (nP', nG)).
Proof.
  destruct c as [p g t ig it]. destruct ig; [|reflexivity].
  cbn [renumber Child_IsGroup Child_Group].
  generalize (incr64 nG) as a. generalize nP as b.
  generalize (Group_Children g) as cs.
  intros cs b a.
  match goal with |- (let '(_, _) := ?F cs b a in _) = _ =>
    assert (E : forall cs b a, F cs b a = renumber_range cs base b a) end.
  { clear. induction cs as [|c cs IH]; intros b a; [reflexivity|].
    cbn [renumber_range]. destruct (renumber c base b a) as [c' [b' a']].
    rewrite IH. reflexivity. }
  rewrite E. reflexivity.
Qed.

Lemma g_ids_app base a n m :
  g_ids base a (n + m) = g_ids base a n ++ g_ids base (a + Z.of_nat n) m.
Proof.
  unfold g_ids. rewrite seq_app, map_app. f_equal.
  rewrite Nat.add_0_l, <- (Nat.add_0_r n) at 1.
  rewrite <- (fmap_add_seq n 0 m).
  change (map ?f (?g <$> ?l)) with (map f (map g l)). rewrite map_map.
  apply map_ext. intros k. f_equal. lia.
Qed.

Lemma s_ids_app base a n m :
  s_ids base a (n + m) = s_ids base a n ++ s_ids base (a + Z.of_nat n) m.
Proof.
  unfold s_ids. rewrite seq_app, map_app. f_equal.
  rewrite Nat.add_0_l, <- (Nat.add_0_r n) at 1.
  rewrite <- (fmap_add_seq n 0 m).
  change (map ?f (?g <$> ?l)) with (map f (map g l)). rewrite map_map.
  apply map_ext. intros k. f_equal. lia.
Qed.

Lemma renumber_range_spec_aux base cs :
  Forall (walk_post_child base) cs ->
  forall nP nG, 0 <= nP -> 0 <= nG ->
    nP + Z.of_nat (n_leaves cs) < 2 ^ 63 ->
    nG + Z.of_nat (n_groups cs) < 2 ^ 63 ->
    walk_post base nP nG (flat_map groups_preorder cs) (flat_map leaves_preorder cs)
      (flat_map groups_preorder (renumber_range cs base nP nG).1)
      (flat_map leaves_preorder (renumber_range cs base nP nG).1)
      (renumber_range cs base nP nG).2.
Proof.
  unfold n_leaves, n_groups.
  induction 1 as [|c cs Hc Hcs IH]; intros nP nG HP HG HbP HbG.
  - cbn. unfold walk_post. cbn. repeat split; f_equal; lia.
  - cbn [flat_map] in *. rewrite !length_app in *.
    cbn [renumber_range].
    specialize (Hc nP nG HP HG ltac:(lia) ltac:(lia)).
    destruct (renumber c base nP nG) as [c' [nP1 nG1]] eqn:E.
    destruct Hc as (Hn & Hg & Hs & Ht). cbn [fst snd] in *.
    inversion Hn; subst nP1 nG1; clear Hn.
    specialize (IH (nP + Z.of_nat (length (leaves_preorder c)))
                   (nG + Z.of_nat (length (groups_preorder c)))
                   ltac:(lia) ltac:(lia) ltac:(lia) ltac:(lia)).
    destruct (renumber_range cs base _ _) as [cs' n'] eqn:E'.
    destruct IH as (Hn' & Hg' & Hs' & Ht'). cbn [fst snd] in *.
    unfold walk_post. cbn [flat_map fst snd].
    rewrite !length_app.
    rewrite !map_app, Hg, Hs, Ht, Hg', Hs', Ht', g_ids_app, s_ids_app.
    repeat split.
    + rewrite Hn'. f_equal; lia.
    + do 2 f_equal. lia.
    + do 2 f_equal. lia.
Qed.

(** The walk below one child: the counters advance by the numbers of
    leaves and groups, which hold consecutive identifiers in document order. *)
Lemma renumber_spec base c : walk_post_child base c.
Proof.
  induction c as [c IH] using Child_ind'.
  intros nP nG HP HG HbP HbG.
  pose proof (renumber_range_spec_aux base _ IH) as R. clear IH.
  rewrite renumber_unfold.
  unfold walk_post, n_leaves, n_groups in *.
  destruct c as [p g t ig it]. cbn [Child_IsGroup Child_Group Child_Path] in *.
  destruct ig.
  - cbn [groups_preorder leaves_preorder Child_IsGroup Child_Group length] in *.
    rewrite Nat2Z.inj_succ in HbG.
    rewrite incr64_small by (clear R; lia).
    destruct (R nP (nG + 1)) as (Hn & Hg & Hs & Ht); [clear R; lia..|]. clear R.
    cbn zeta.
    destruct (renumber_range (Group_Children g) base nP (nG + 1)) as [cs' n'].
    cbn [fst snd] in *.
    cbn [groups_preorder leaves_preorder set_Child_Group Child_IsGroup Child_Group
         set_Group_Children set_Group_ID Group_Children Group_ID map].
    rewrite Hg, Hs, Ht. repeat split.
    + rewrite Hn. f_equal. lia.
    + change (S ?n) with (1 + n)%nat. rewrite g_ids_app. cbn.
      rewrite Z.add_0_r. reflexivity.
  - clear R. cbn in *. rewrite incr64_small by lia.
    repeat split; try reflexivity; f_equal; try f_equal; lia.
Qed.

(** The same for a list of children. *)
Lemma renumber_range_spec base cs nP nG :
  0 <= nP -> 0 <= nG ->
  nP + Z.of_nat (n_leaves cs) < 2 ^ 63 ->
  nG + Z.of_nat (n_groups cs) < 2 ^ 63 ->
  walk_post base nP nG (flat_map groups_preorder cs) (flat_map leaves_preorder cs)
    (flat_map groups_preorder (renumber_range cs base nP nG).1)
    (flat_map leaves_preorder (renumber_range cs base nP nG).1)
    (renumber_range cs base nP nG).2.
Proof.
  apply renumber_range_spec_aux. apply Forall_forall. intros c _.
  apply renumber_spec.
Qed.

Lemma renumber_range_frame_aux base cs :
  Forall (fun c => forall a b, frame_child (renumber c base a b).1 = frame_child c) cs ->
  forall a b, map frame_child (renumber_range cs base a b).1 = map frame_child cs.
Proof.
  induction 1 as [|c cs Hc _ IH]; intros a b; [reflexivity|].
  cbn [renumber_range]. specialize (Hc a b).
  destruct (renumber c base a b) as [c' [a' b']].
  specialize (IH a' b'). destruct (renumber_range cs base a' b') as [cs' n'].
  cbn [fst map] in *. congruence.
Qed.

(** The walk changes identifiers only. *)
Lemma renumber_frame base c a b :
  frame_child (renumber c base a b).1 = frame_child c.
Proof.
  revert a b. induction c as [c IH] using Child_ind'. intros a b.
  pose proof (renumber_range_frame_aux base _ IH) as R. clear IH.
  rewrite renumber_unfold.
  destruct c as [p g t ig it]. cbn [Child_IsGroup Child_Group Child_Path] in *.
  destruct ig; [|reflexivity].
  cbn zeta. specialize (R a (incr64 b)).
  destruct (renumber_range (Group_Children g) base a (incr64 b)) as [cs' n'].
  destruct g. cbn in *. rewrite R. reflexivity.
Qed.

Lemma renumber_range_frame base cs a b :
  map frame_child (renumber_range cs base a b).1 = map frame_child cs.
Proof.
  apply renumber_range_frame_aux. apply Forall_forall. intros c _ a' b'.
  apply renumber_frame.
Qed.

Lemma renumber_range_idem_aux base cs :
  Forall (fun c => forall a b,
            renumber (renumber c base a b).1 base a b = renumber c base a b) cs ->
  forall a b, renumber_range (renumber_range cs base a b).1 base a b
              = renumber_range cs base a b.
Proof.
  induction 1 as [|c cs Hc _ IH]; intros a b; [reflexivity|].
  cbn [renumber_range]. specialize (Hc a b).
  destruct (renumber c base a b) as [c' [a' b']].
  specialize (IH a' b'). destruct (renumber_range cs base a' b') as [cs' n'].
  cbn [fst renumber_range] in *. rewrite Hc, IH. reflexivity.
Qed.

(** Walking a walked tree from the same counters changes nothing. *)
Lemma renumber_idem base c a b :
  renumber (renumber c base a b).1 base a b = renumber c base a b.
Proof.
  revert a b. induction c as [c IH] using Child_ind'. intros a b.
  pose proof (renumber_range_idem_aux base _ IH) as R. clear IH.
  rewrite (renumber_unfold c).
  destruct c as [p g t ig it]. cbn [Child_IsGroup Child_Group Child_Path] in *.
  destruct ig; [|reflexivity].
  cbn zeta. specialize (R a (incr64 b)).
  destruct (renumber_range (Group_Children g) base a (incr64 b)) as [cs' n'].
  rewrite renumber_unfold. destruct g. cbn in *. rewrite R. reflexivity.
Qed.

Lemma renumber_range_idem base cs a b :
  renumber_range (renumber_range cs base a b).1 base a b = renumber_range cs base a b.
Proof.
  apply renumber_range_idem_aux. apply Forall_forall. intros c _ a' b'.
  apply renumber_idem.
Qed.

Lemma renumber_range_shape_aux base cs1 :
  Forall (shape_fun base) cs1 ->
  forall cs2 a b, map shape_of cs1 = map shape_of cs2 ->
    flat_map walk_ids (renumber_range cs1 base a b).1
      = flat_map walk_ids (renumber_range cs2 base a b).1 /\
    (renumber_range cs1 base a b).2 = (renumber_range cs2 base a b).2.
Proof.
  induction 1 as [|c1 cs1 Hc _ IH]; intros [|c2 cs2] a b E; try discriminate.
  - split; reflexivity.
  - cbn [map] in E. injection E as E1 E2.
    cbn [renumber_range]. destruct (Hc c2 a b E1) as [Hi Hn].
    destruct (renumber c1 base a b) as [c1' [a1 b1]].
    destruct (renumber c2 base a b) as [c2' [a2 b2]].
    cbn [fst snd] in *. injection Hn as -> ->.
    destruct (IH cs2 a2 b2 E2) as [Hi' Hn'].
    destruct (renumber_range cs1 base a2 b2) as [cs1' n1].
    destruct (renumber_range cs2 base a2 b2) as [cs2' n2].
    cbn [fst snd flat_map] in *. split; congruence.
Qed.

(** The identifiers and final counters depend on the shape only. *)
Lemma renumber_shape base c1 : shape_fun base c1.
Proof.
  induction c1 as [c1 IH] using Child_ind'. intros c2 a b E.
  pose proof (renumber_range_shape_aux base _ IH) as R. clear IH.
  rewrite !renumber_unfold.
  destruct c1 as [p1 g1 t1 ig1 it1], c2 as [p2 g2 t2 ig2 it2].
  cbn [shape_of Child_IsGroup Child_Group Child_Path] in *.
  destruct ig1, ig2; try discriminate.
  - injection E as E. cbn zeta.
    destruct (R _ a (incr64 b) E) as [Hi Hn].
    destruct (renumber_range (Group_Children g1) base a (incr64 b)) as [cs1' n1].
    destruct (renumber_range (Group_Children g2) base a (incr64 b)) as [cs2' n2].
    cbn in *. split; congruence.
  - split; reflexivity.
Qed.

Lemma renumber_range_shape base cs1 cs2 a b :
  map shape_of cs1 = map shape_of cs2 ->
  flat_map walk_ids (renumber_range cs1 base a b).1
    = flat_map walk_ids (renumber_range cs2 base a b).1.
Proof.
  intros E. apply renumber_range_shape_aux; [|exact E].
  apply Forall_forall. intros c _. apply renumber_shape.
Qed.

Lemma renumber_range_shape_of base cs a b :
  map shape_of (renumber_range cs base a b).1 = map shape_of cs.
Proof.
  pose proof (renumber_range_frame base cs a b) as F.
  assert (S : forall c, shape_of (frame_child c) = shape_of c).
  { induction c as [c IH] using Child_ind'.
    destruct c as [p g t ig it]. destruct ig; [|reflexivity].
    cbn in *. f_equal. destruct g; cbn in *.
    rewrite map_map. apply map_ext_Forall. exact IH. }
  transitivity (map shape_of (map frame_child (renumber_range cs base a b).1)).
  - rewrite map_map. apply map_ext. intros c. symmetry. apply S.
  - rewrite F, map_map. apply map_ext, S.
Qed.

(** [removeChildStyles] leaves its pointee as it was. *)
Lemma removeChildStyles_noop g : (removeChildStyles g).1 = g.
Proof. destruct g; reflexivity. Qed.

(** The four operations by cases on the document. *)
Lemma BaseGroup_eq kvg :
  BaseGroup kvg =
  match SVG_Groups kvg with
  | [] => Panic (IndexOutOfRange 0 0) kvg
  | g0 :: _ =>
      match Group_Children g0 with
      | [] => Panic (IndexOutOfRange 0 0) kvg
      | c0 :: _ => Return (Child_Group c0) kvg
      end
  end.
Proof.
  unfold BaseGroup, bind, get, elem_at. destruct (SVG_Groups kvg) as [|g0 gs]; [reflexivity|].
  cbn. destruct (Group_Children g0); reflexivity.
Qed.

Lemma RenumberXML_eq kvg :
  RenumberXML kvg =
  match SVG_Groups kvg with
  | [] => Panic (IndexOutOfRange 0 0) kvg
  | g0 :: gs =>
      match Group_Children g0 with
      | [] => Panic (IndexOutOfRange 0 0) kvg
      | c0 :: cs =>
          let g0' := set_Group_Children
                       (walk_base (Group_ID (Child_Group c0)) c0 :: cs) g0 in
          match gs with
          | [] => Panic (IndexOutOfRange 1 1) (set_SVG_Groups [g0'] kvg)
          | g1 :: gs' =>
              Return tt
                (set_SVG_Groups
                   (set_Group_Style style_paths g0'
                    :: set_Group_Style style_numbers
                         (set_Group_Children (imap relabel (Group_Children g1)) g1)
                    :: gs') kvg)
          end
      end
  end.
Proof.
  destruct kvg as [ns w h vb gs]. destruct gs as [|g0 gs]; [reflexivity|].
  cbn [SVG_Groups]. destruct g0 as [i0 e0 p0 v0 n0 o0 pa0 tf0 po0 r0 ph0 rf0 s0 ch0].
  cbn [Group_Children]. destruct ch0 as [|c0 cs]; [reflexivity|].
  destruct gs as [|g1 gs']; [reflexivity|].
  unfold RenumberXML, RenumberLabels, SetStyle, bind, modify, get, elem_at, BaseGroup, ret.
  cbn. reflexivity.
Qed.

Lemma SetBase_eq base kvg :
  SetBase base kvg =
  match str_take 4 base with
  | None => Panic (SliceBoundsOutOfRange 4 (String.length base)) kvg
  | Some head =>
      if negb (String.eqb head "kvg:") then Fatalf (fatal_msg base) kvg
      else
        match SVG_Groups kvg with
        | [] => Panic (IndexOutOfRange 0 0) kvg
        | g0 :: gs =>
            match Group_Children g0 with
            | [] => Panic (IndexOutOfRange 0 0) kvg
            | c0 :: cs =>
                let tail := default "" (str_drop 4 base) in
                Return tt
                  (set_SVG_Groups
                     (set_Group_ID ("kvg:StrokePaths_" +:+ tail)
                        (set_Group_Children
                           (walk_base base (at_Child_Group (set_Group_ID base) c0) :: cs) g0)
                      :: match gs with
                         | [] => []
                         | g1 :: gs' =>
                             set_Group_ID ("kvg:StrokeNumbers_" +:+ tail) g1 :: gs'
                         end) kvg)
            end
        end
  end.
Proof.
  unfold SetBase, bind at 1. destruct (str_take 4 base) as [head|]; [|reflexivity].
  cbn [ret]. unfold bind at 1, when_.
  destruct (negb (String.eqb head "kvg:")); [reflexivity|].
  cbn [ret].
  destruct kvg as [ns w h vb gs]. destruct gs as [|g0 gs]; [reflexivity|].
  cbn [SVG_Groups]. destruct g0 as [i0 e0 p0 v0 n0 o0 pa0 tf0 po0 r0 ph0 rf0 s0 ch0].
  cbn [Group_Children]. destruct ch0 as [|c0 cs]; [reflexivity|].
  destruct gs as [|g1 gs']; reflexivity.
Qed.

(** The test [base[0:4] != "kvg:"] is a prefix test. *)
Lemma str_take_prefix p : forall s h,
  str_take (String.length p) s = Some h -> String.eqb h p = String.prefix p s.
Proof.
  induction p as [|a p IH]; intros s h E; cbn in *.
  - injection E as <-. destruct s; reflexivity.
  - destruct s as [|b s]; [discriminate|].
    destruct (str_take (String.length p) s) as [h'|] eqn:E'; [|discriminate].
    injection E as <-. cbn. rewrite (IH _ _ E').
    destruct (ascii_dec a b) as [->|N].
    + rewrite Ascii.eqb_refl. reflexivity.
    + destruct (Ascii.eqb_spec b a); [congruence|reflexivity].
Qed.

Lemma str_take_None n : forall s, (String.length s < n)%nat -> str_take n s = None.
Proof.
  induction n as [|n IH]; intros [|a s] L; cbn in *; try lia; [reflexivity|].
  rewrite IH by lia. reflexivity.
Qed.

Lemma str_take_Some n : forall s, (n <= String.length s)%nat -> exists h, str_take n s = Some h.
Proof.
  induction n as [|n IH]; intros s L; [eexists; reflexivity|].
  destruct s as [|a s]; cbn in L; [lia|].
  destruct (IH s ltac:(lia)) as [h E]. exists (String a h). cbn. rewrite E. reflexivity.
Qed.

Lemma filter_all_IsText (ls : list Child) :
  Forall (fun l => Child_IsText l = false) ls ->
  filter (fun l => Child_IsText l = false) ls = ls.
Proof.
  induction 1 as [|l ls Hl _ IH]; [reflexivity|].
  rewrite filter_cons. destruct (decide (Child_IsText l = false)); congruence.
Qed.

Lemma flat_map_paths cs :
  flat_map paths_preorder cs
  = filter (fun l => Child_IsText l = false) (flat_map leaves_preorder cs).
Proof.
  induction cs as [|c cs IH]; [reflexivity|].
  cbn [flat_map]. rewrite filter_app, IH. reflexivity.
Qed.

Lemma text_free_flat cs :
  Forall text_free cs ->
  Forall (fun l => Child_IsText l = false) (flat_map leaves_preorder cs).
Proof.
  induction 1 as [|c cs Hc _ IH]; [constructor|].
  cbn [flat_map]. apply Forall_app. split; assumption.
Qed.

Lemma Forall_map_eq {A B} (f : A -> B) (P : B -> Prop) (l l' : list A) :
  map f l' = map f l -> Forall (fun x => P (f x)) l -> Forall (fun x => P (f x)) l'.
Proof.
  revert l. induction l' as [|x l' IH]; intros [|y l] E H; try discriminate.
  - constructor.
  - injection E as E1 E2. inversion H; subst. constructor; [congruence|eauto].
Qed.

(** From counters at 0 the walk numbers the children. *)
Lemma renumber_range_numbered base cs :
  Z.of_nat (n_groups cs) < 2 ^ 63 -> Z.of_nat (n_leaves cs) < 2 ^ 63 ->
  numbered base cs (renumber_range cs base 0 0).1.
Proof.
  intros HG HL.
  destruct (renumber_range_spec base cs 0 0) as (_ & Hg & Hs & Ht); try lia.
  unfold numbered. repeat split.
  - exact Hg.
  - exact Hs.
  - intros TF. apply text_free_flat in TF.
    rewrite !flat_map_paths.
    rewrite (filter_all_IsText _ TF).
    rewrite filter_all_IsText; [exact Hs|].
    exact (Forall_map_eq Child_IsText (fun b => b = false) _ _ Ht TF).
  - apply renumber_range_shape_of.
Qed.

Lemma prefix_length p : forall s, String.prefix p s = true -> (String.length p <= String.length s)%nat.
Proof.
  induction p as [|a p IH]; intros s H; [cbn; lia|].
  destruct s as [|b s]; [discriminate|]. cbn in H.
  destruct (ascii_dec a b); [|discriminate]. apply IH in H. cbn. lia.
Qed.

Lemma base_children_RenumberXML kvg g :
  BaseGroup kvg = Return g kvg ->
  base_children (final_doc (RenumberXML kvg))
  = (renumber_range (Group_Children g) (Group_ID g) 0 0).1.
Proof.
  rewrite BaseGroup_eq, RenumberXML_eq. unfold base_children.
  destruct (SVG_Groups kvg) as [|g0 gs] eqn:EG; [discriminate|].
  destruct g0 as [i0 e0 p0 v0 n0 o0 pa0 tf0 po0 r0 ph0 rf0 s0 ch0].
  cbn [Group_Children]. destruct ch0 as [|c0 cs]; [discriminate|].
  intros B. injection B as <-. destruct gs; reflexivity.
Qed.

Lemma base_children_SetBase kvg g base :
  BaseGroup kvg = Return g kvg -> String.prefix "kvg:" base = true ->
  base_children (final_doc (SetBase base kvg))
  = (renumber_range (Group_Children g) base 0 0).1.
Proof.
  intros B P. rewrite SetBase_eq.
  destruct (str_take_Some 4 base (prefix_length _ _ P)) as [h E]. rewrite E.
  rewrite (str_take_prefix "kvg:" base h E), P. cbn [negb].
  revert B. rewrite BaseGroup_eq. unfold base_children.
  destruct (SVG_Groups kvg) as [|g0 gs] eqn:EG; [discriminate|].
  destruct g0 as [i0 e0 p0 v0 n0 o0 pa0 tf0 po0 r0 ph0 rf0 s0 ch0].
  cbn [Group_Children]. destruct ch0 as [|c0 cs]; [discriminate|].
  intros B. injection B as <-. destruct c0 as [p1 [] t1 ig1 it1]. reflexivity.
Qed.

Lemma relabel_idem (l : list Child) : imap relabel (imap relabel l) = imap relabel l.
Proof.
  apply list_eq. intros i. rewrite !list_lookup_imap.
  destruct (l !! i) as [c|]; [|reflexivity]. cbn. f_equal.
  unfold relabel. destruct c as [p g t ig []]; reflexivity.
Qed.

(** A second run finds nothing to change. *)
Lemma RenumberXML_twice kvg :
  (RenumberXML ;; RenumberXML) kvg = RenumberXML kvg.
Proof.
  unfold bind. rewrite (RenumberXML_eq kvg).
  destruct kvg as [ns w h vb gs]. destruct gs as [|g0 gs]; [reflexivity|].
  cbn [SVG_Groups]. destruct g0 as [i0 e0 p0 v0 n0 o0 pa0 tf0 po0 r0 ph0 rf0 s0 ch0].
  cbn [Group_Children]. destruct ch0 as [|c0 cs]; [reflexivity|].
  cbn zeta. destruct gs as [|g1 gs']; [reflexivity|].
  rewrite RenumberXML_eq.
  destruct c0 as [p1 g t1 ig1 it1].
  destruct g as [i e p v n o pa tf po r ph rf s ch].
  destruct g1 as [i1 e1 p1' v1 n1 o1 pa1 tf1 po1 r1 ph1 rf1 s1 ch1].
  cbv [walk_base at_Child_Group set_Child_Group set_Group_Children set_Group_Style
       set_Group_ID set_SVG_Groups Child_Group Child_Path Child_Text Child_IsGroup
       Child_IsText Group_Children Group_ID Group_Element Group_Part Group_Variant
       Group_Number Group_Original Group_Partial Group_TradForm Group_Position
       Group_Radical Group_Phon Group_RadicalForm Group_Style
       SVG_Groups SVG_XMLNS SVG_Width SVG_Height SVG_ViewBox].
  rewrite relabel_idem.
  pose proof (renumber_range_idem i ch 0 0) as R.
  destruct (renumber_range ch i 0 0) as [ch' n']. cbn [fst] in *. rewrite R.
  reflexivity.
Qed.

Lemma BaseGroup_cases kvg :
  (exists g, BaseGroup kvg = Return g kvg) \/
  (BaseGroup kvg = Panic (IndexOutOfRange 0 0) kvg /\
   RenumberXML kvg = Panic (IndexOutOfRange 0 0) kvg).
Proof.
  rewrite BaseGroup_eq, RenumberXML_eq.
  destruct (SVG_Groups kvg) as [|g0 gs]; [right; split; reflexivity|].
  destruct (Group_Children g0) as [|c0 cs]; [right; split; reflexivity|].
  left. eexists. reflexivity.
Qed.

Lemma base_walk_ids_shape kvg1 kvg2 :
  base_shape kvg1 = base_shape kvg2 ->
  base_walk_ids (final_doc (RenumberXML kvg1))
  = base_walk_ids (final_doc (RenumberXML kvg2)).
Proof.
  unfold base_shape, base_walk_ids.
  destruct (BaseGroup_cases kvg1) as [[g1 B1]|[B1 R1]];
    destruct (BaseGroup_cases kvg2) as [[g2 B2]|[B2 R2]];
    rewrite B1, B2; try discriminate.
  - intros [= Eid Esh].
    rewrite (base_children_RenumberXML _ _ B1), (base_children_RenumberXML _ _ B2).
    rewrite Eid. apply renumber_range_shape. exact Esh.
  - intros _. rewrite R1, R2. unfold base_children. cbn [final_doc].
    rewrite B1, B2. reflexivity.
Qed.

Lemma frame_label_relabel (l : list Child) :
  map frame_label (imap relabel l) = map frame_label l.
Proof.
  apply list_eq. intros i.
  change (map frame_label ?x) with (frame_label <$> x).
  rewrite !list_lookup_fmap, list_lookup_imap.
  destruct (l !! i) as [c|]; [|reflexivity]. cbn. f_equal.
  unfold relabel, frame_label. destruct c as [p g t ig []]; reflexivity.
Qed.

(** The frame of the two operations, on every outcome. *)
Lemma frame_RenumberXML kvg : frame_SVG (final_doc (RenumberXML kvg)) = frame_SVG kvg.
Proof.
  rewrite RenumberXML_eq.
  destruct kvg as [ns w h vb gs]. destruct gs as [|g0 gs]; [reflexivity|].
  cbn [SVG_Groups]. destruct g0 as [i0 e0 p0 v0 n0 o0 pa0 tf0 po0 r0 ph0 rf0 s0 ch0].
  cbn [Group_Children]. destruct ch0 as [|c0 cs]; [reflexivity|].
  destruct c0 as [p1 g t1 ig1 it1].
  destruct g as [i e p v n o pa tf po r ph rf s ch].
  pose proof (renumber_range_frame i ch 0 0) as R.
  destruct gs as [|g1 gs'].
  - fields. cbn. rewrite R. reflexivity.
  - destruct g1 as [i1 e1 p1' v1 n1 o1 pa1 tf1 po1 r1 ph1 rf1 s1 ch1].
    fields. cbn. rewrite R, frame_label_relabel. reflexivity.
Qed.

Lemma frame_SetBase base kvg : frame_SVG (final_doc (SetBase base kvg)) = frame_SVG kvg.
Proof.
  rewrite SetBase_eq.
  destruct (str_take 4 base) as [head|]; [|reflexivity].
  destruct (negb (String.eqb head "kvg:")); [reflexivity|].
  destruct kvg as [ns w h vb gs]. destruct gs as [|g0 gs]; [reflexivity|].
  cbn [SVG_Groups]. destruct g0 as [i0 e0 p0 v0 n0 o0 pa0 tf0 po0 r0 ph0 rf0 s0 ch0].
  cbn [Group_Children]. destruct ch0 as [|c0 cs]; [reflexivity|].
  destruct c0 as [p1 g t1 ig1 it1].
  destruct g as [i e p v n o pa tf po r ph rf s ch].
  pose proof (renumber_range_frame base ch 0 0) as R.
  destruct gs as [|g1 gs'].
  - fields. cbn. rewrite R. reflexivity.
  - destruct g1 as [i1 e1 p1' v1 n1 o1 pa1 tf1 po1 r1 ph1 rf1 s1 ch1].
    fields. cbn. rewrite R. reflexivity.
Qed.

Lemma SetStyle_children kvg kvg' :
  SetStyle kvg = Return tt kvg' ->
  map Group_Children (SVG_Groups kvg') = map Group_Children (SVG_Groups kvg) /\
  descendant_styles kvg' = descendant_styles kvg.
Proof.
  destruct kvg as [ns w h vb gs]. destruct gs as [|g0 [|g1 gs]]; try discriminate.
  destruct g0, g1. unfold SetStyle, bind, get, elem_at, modify. cbn.
  intros [= <-]. split; reflexivity.
Qed.

(** ** File names *)

Lemma star_sound p s : forall i c k res,
  star p s i c k = Some res ->
  exists w rest, s = w ++ rest /\ Forall (fun a => p a = true) w /\
                 k rest (i + length w)%nat c = Some res.
Proof.
  induction s as [|a s IH]; intros i c k res H; cbn in H.
  - exists [], []. rewrite Nat.add_0_r. auto.
  - destruct (p a) eqn:Pa.
    + destruct (star p s (S i) c k) as [res'|] eqn:E.
      * injection H as <-. destruct (IH _ _ _ _ E) as (w & rest & -> & Hw & Hk).
        exists (a :: w), rest. cbn. rewrite <- Nat.add_succ_comm. auto.
      * exists [], (a :: s). rewrite Nat.add_0_r. auto.
    + exists [], (a :: s). rewrite Nat.add_0_r. auto.
Qed.

Lemma run_sound r : forall s i c k res,
  run r s i c k = Some res ->
  exists w rest c', s = w ++ rest /\ matches r i w rest c c' /\
                    k rest (i + length w)%nat c' = Some res.
Proof.
  induction r as [|x|p|r1 IH1 r2 IH2|r1 IH1 r2 IH2|r1 IH1|p|n r1 IH1|];
    intros s i c k res H; cbn [run] in H.
  - exists [], s, c. rewrite Nat.add_0_r. repeat split; [constructor|exact H].
  - destruct s as [|a s]; [discriminate|].
    destruct (Ascii.eqb_spec a x) as [->|]; [|discriminate].
    exists [x], s, c. cbn. rewrite Nat.add_1_r. repeat split; [constructor|exact H].
  - destruct s as [|a s]; [discriminate|].
    destruct (p a) eqn:Pa; [|discriminate].
    exists [a], s, c. cbn. rewrite Nat.add_1_r. repeat split; [constructor; exact Pa|exact H].
  - destruct (IH1 _ _ _ _ _ H) as (w1 & rest1 & c1 & -> & M1 & H1).
    destruct (IH2 _ _ _ _ _ H1) as (w2 & rest & c2 & -> & M2 & H2).
    exists (w1 ++ w2), rest, c2. rewrite <- app_assoc, length_app, Nat.add_assoc.
    repeat split; [econstructor; eassumption|exact H2].
  - destruct (run r1 s i c k) as [res'|] eqn:E.
    + injection H as <-. destruct (IH1 _ _ _ _ _ E) as (w & rest & c' & -> & M & Hk).
      exists w, rest, c'. repeat split; [apply M_Alt_l; exact M|exact Hk].
    + destruct (IH2 _ _ _ _ _ H) as (w & rest & c' & -> & M & Hk).
      exists w, rest, c'. repeat split; [apply M_Alt_r; exact M|exact Hk].
  - destruct (run r1 s i c k) as [res'|] eqn:E.
    + injection H as <-. destruct (IH1 _ _ _ _ _ E) as (w & rest & c' & -> & M & Hk).
      exists w, rest, c'. repeat split; [apply M_Opt_some; exact M|exact Hk].
    + exists [], s, c. rewrite Nat.add_0_r. repeat split; [apply M_Opt_none|exact H].
  - destruct (star_sound _ _ _ _ _ _ H) as (w & rest & -> & Hw & Hk).
    exists w, rest, c. repeat split; [constructor; exact Hw|exact Hk].
  - destruct (IH1 _ _ _ _ _ H) as (w & rest & c' & -> & M & Hk).
    exists w, rest, (<[n := Some (i, (i + length w)%nat)]> c').
    repeat split; [constructor; exact M|exact Hk].
  - destruct s; [|discriminate].
    exists [], [], c. rewrite Nat.add_0_r. repeat split; [constructor|exact H].
Qed.

(** A successful search reports the match at the first offset that has
    one. *)
Lemma search_sound r : forall s i res,
  search r s i = Some res ->
  exists skipped s', s = skipped ++ s' /\
    match_at r s' (i + length skipped)%nat = Some res /\
    forall k, (k < length skipped)%nat -> match_at r (drop k s) (i + k)%nat = None.
Proof.
  induction s as [|a s IH]; intros i res H; cbn [search] in H.
  - destruct (match_at r [] i) as [c|] eqn:E; [|discriminate]. injection H as <-.
    exists [], []. rewrite Nat.add_0_r. repeat split; [exact E|]. cbn. lia.
  - destruct (match_at r (a :: s) i) as [c|] eqn:E.
    + injection H as <-. exists [], (a :: s). rewrite Nat.add_0_r.
      repeat split; [exact E|]. cbn. lia.
    + destruct (IH _ _ H) as (sk & s' & -> & Hm & Hl).
      exists (a :: sk), s'. cbn [length]. rewrite <- Nat.add_succ_comm.
      repeat split; [exact Hm|].
      intros [|k] Hk.
      * rewrite Nat.add_0_r. exact E.
      * cbn [drop app]. rewrite <- Nat.add_succ_comm. apply Hl. cbn in Hk. lia.
Qed.

(** Completeness: where a match exists, the search succeeds. *)
Lemma search_complete r : forall skipped s' i,
  is_Some (match_at r s' (i + length skipped)%nat) ->
  is_Some (search r (skipped ++ s') i).
Proof.
  induction skipped as [|a sk IH]; intros s' i H.
  - cbn [app length] in *. rewrite Nat.add_0_r in H. destruct H as [c E].
    destruct s'; cbn [search]; rewrite E; eauto.
  - cbn [app search]. destruct (match_at r (a :: sk ++ s') i); [eauto|].
    apply IH. cbn [length] in H. rewrite <- Nat.add_succ_comm in H. exact H.
Qed.

(** What [filePartRe] matches, and the submatches it leaves. *)
Lemma filePartRe_matches i w rest c c' :
  matches filePartRe i w rest c c' ->
  exists dir h osuf,
    w = dir ++ h ++ osuf ++ dot_svg /\ rest = [] /\
    (dir = [] \/ exists x, dir = x ++ ["/"%char]) /\
    length h = 5%nat /\ Forall (fun x => is_hex x = true) h /\
    suffix_caps (i + length dir) osuf c c'.
Proof.
  unfold filePartRe, hexID. cbn [times lit]. intros H.
  inv_matches.
  all: match goal with
       | |- context [ (?x ++ ["/"%char]) ++ _ ] => exists (x ++ ["/"%char])
       | _ => exists []
       end.
  all: match goal with
       | |- context [ [?a1] ++ [?a2] ++ [?a3] ++ [?a4] ++ [?a5] ] =>
           exists [a1; a2; a3; a4; a5]
       end.
  all: match goal with
       | |- context [ ["-"%char] ++ [?ch] ++ ?t ] => exists ("-"%char :: ch :: t)
       | _ => exists []
       end.
  all: repeat split; try (repeat constructor; assumption); try reflexivity.
  all: try (left; reflexivity); try (right; eexists; reflexivity).
  all: try (cbn; rewrite <- ?app_assoc; reflexivity).
  all: unfold suffix_caps.
  all: try (right; do 2 eexists; repeat split; try eassumption;
            cbn [length app]; rewrite ?length_app; cbn [length];
            repeat (f_equal; try lia)).
  all: try (left; split; [reflexivity|]; cbn [length app]; rewrite ?length_app;
            cbn [length]; repeat (f_equal; try lia)).
Qed.

Lemma star_exists p t : forall rest i c k,
  Forall (fun x => p x = true) t ->
  is_Some (k rest (i + length t)%nat c) ->
  is_Some (star p (t ++ rest) i c k).
Proof.
  induction t as [|a t IH]; intros rest i c k Ht Hk.
  - cbn [app length] in *. rewrite Nat.add_0_r in Hk.
    destruct rest as [|b rest]; cbn [star]; [exact Hk|].
    destruct (p b); [|exact Hk].
    destruct (star p rest (S i) c k); [eauto|exact Hk].
  - inversion Ht as [|? ? Pa Ht']; subst. cbn [app star]. rewrite Pa.
    cbn [length] in Hk. rewrite <- Nat.add_succ_comm in Hk.
    destruct (IH rest (S i) c k Ht' Hk) as [res ->]. eauto.
Qed.

(** Every name of the grammar is matched. *)
Lemma filePartRe_match_exists h osuf i :
  length h = 5%nat -> Forall (fun x => is_hex x = true) h -> suffix_ok osuf ->
  is_Some (match_at filePartRe (h ++ osuf ++ dot_svg) i).
Proof.
  intros Lh Hh Hs. unfold match_at, filePartRe. cbn [run].
  match goal with |- is_Some (match ?x with _ => _ end) => destruct x; [eauto|] end.
  destruct h as [|a1 [|a2 [|a3 [|a4 [|a5 [|]]]]]]; try discriminate.
  repeat match goal with H : Forall _ (_ :: _) |- _ => inversion H; subst; clear H end.
  unfold hexID. cbn [times run app].
  repeat match goal with H : is_hex _ = true |- _ => rewrite H; clear H end.
  destruct Hs as [->|(ch & t & -> & Hch & Ht)].
  - cbn. eauto.
  - cbn [run app]. cbn [Ascii.eqb Bool.eqb]. rewrite Hch.
    match goal with |- is_Some (match ?x with _ => _ end) =>
      assert (S : is_Some x); [|destruct S as [res ->]; eauto] end.
    apply star_exists; [exact Ht|]. cbn. eauto.
Qed.

Lemma hex_no_slash h : Forall (fun x => is_hex x = true) h -> no_slash h.
Proof. intros F. eapply Forall_impl; [exact F|]. intros a H ->. discriminate. Qed.

Lemma alnum_no_slash t : Forall (fun x => is_alnum x = true) t -> no_slash t.
Proof. intros F. eapply Forall_impl; [exact F|]. intros a H ->. discriminate. Qed.

Lemma suffix_no_slash osuf : suffix_ok osuf -> no_slash osuf.
Proof.
  intros [->|(ch & t & -> & Hch & Ht)]; [constructor|].
  constructor; [discriminate|]. constructor; [intros ->; discriminate|].
  apply alnum_no_slash, Ht.
Qed.

Lemma dir_ok_tail dir k :
  dir_ok dir -> dir <> [] -> forall l, dir = l ++ k -> k <> [] -> slash ∈ k.
Proof.
  intros [->|[x ->]] NE l E Hk; [congruence|].
  apply last_Some_elem_of.
  assert (L : last (x ++ [slash]) = Some slash) by apply last_snoc.
  rewrite E, last_app in L. destruct (last k) eqn:Lk; [exact L|].
  apply last_None in Lk. congruence.
Qed.

Lemma no_slash_not_in l : no_slash l -> slash ∈ l -> False.
Proof. intros H I. unfold no_slash in H. rewrite Forall_forall in H. exact (H _ I eq_refl). Qed.

(** A name ends in the five digits, token and [.svg] in one way only. *)
Lemma split_unique dir B sk dir' B' :
  dir_ok dir -> dir_ok dir' -> (length sk <= length dir)%nat ->
  no_slash B -> no_slash B' ->
  dir ++ B = (sk ++ dir') ++ B' ->
  sk ++ dir' = dir /\ B' = B.
Proof.
  intros D D' L N N' E.
  destruct (app_eq_inv _ _ _ _ E) as [(k & E1 & E2)|(k & E1 & E2)].
  - (* dir = (sk ++ dir') ++ k, B' = k ++ B *)
    destruct k as [|a k]; [rewrite app_nil_r in E1; cbn in E2; auto|].
    exfalso. apply (no_slash_not_in B' N'). rewrite E2.
    apply elem_of_app. left.
    apply (dir_ok_tail dir (a :: k) D) with (l := sk ++ dir'); [|exact E1|discriminate].
    intros ->. destruct sk, dir'; discriminate.
  - (* sk ++ dir' = dir ++ k, B = k ++ B' *)
    destruct k as [|a k]; [rewrite app_nil_r in E1; cbn in E2; auto|].
    exfalso. apply (no_slash_not_in B N). rewrite E2.
    apply elem_of_app. left.
    destruct dir' as [|d dir'].
    + rewrite app_nil_r in E1. rewrite E1, length_app in L. cbn in L. lia.
    + destruct (app_eq_inv _ _ _ _ E1) as [(k' & E3 & E4)|(k' & E3 & E4)].
      * (* sk = dir ++ k', a :: k = k' ++ d :: dir' *)
        assert (k' = []) as ->.
        { destruct k'; [reflexivity|]. rewrite E3, length_app in L. cbn in L. lia. }
        cbn in E4. rewrite E4.
        apply (dir_ok_tail (d :: dir') (d :: dir') D') with (l := []);
          [discriminate|reflexivity|discriminate].
      * (* dir = sk ++ k', d :: dir' = k' ++ a :: k *)
        apply (dir_ok_tail (d :: dir') (a :: k) D') with (l := k');
          [discriminate|exact E4|discriminate].
Qed.

Lemma suffix_caps_ok a osuf c c' : suffix_caps a osuf c c' -> suffix_ok osuf.
Proof.
  intros [[-> _]|(ch & t & -> & Hch & Ht & _)]; [left; reflexivity|].
  right. eauto.
Qed.

(** The submatches the search reports on a name of the grammar. *)
Lemma search_filePart dir h osuf :
  dir_ok dir -> length h = 5%nat -> Forall (fun x => is_hex x = true) h ->
  suffix_ok osuf ->
  exists start stop c',
    search filePartRe (dir ++ h ++ osuf ++ dot_svg) 0
      = Some (<[0%nat := Some (start, stop)]> c') /\
    suffix_caps (length dir) osuf [None; None; None; None] c'.
Proof.
  intros D Lh Hh Hs.
  pose proof (filePartRe_match_exists h osuf) as EX.
  destruct (search_complete filePartRe dir (h ++ osuf ++ dot_svg) 0
              (EX (0 + length dir)%nat Lh Hh Hs)) as [res S].
  destruct (search_sound _ _ _ _ S) as (sk & s' & E & Hm & Hl).
  assert (L : (length sk <= length dir)%nat).
  { destruct (Nat.le_gt_cases (length sk) (length dir)) as [|G]; [assumption|].
    specialize (Hl _ G). rewrite drop_app_length in Hl.
    destruct (EX (0 + length dir)%nat Lh Hh Hs) as [? Hx]. congruence. }
  unfold match_at in Hm.
  destruct (run_sound _ _ _ _ _ _ Hm) as (w & rest & c' & -> & M & Hk).
  injection Hk as <-.
  destruct (filePartRe_matches _ _ _ _ _ M) as (dir' & h' & osuf' & -> & -> & D' & Lh' & Hh' & SC).
  rewrite app_nil_r in E.
  assert (U : sk ++ dir' = dir /\ h' ++ osuf' = h ++ osuf).
  { apply split_unique; try assumption.
    - apply Forall_app. split; [apply hex_no_slash, Hh|apply suffix_no_slash, Hs].
    - apply Forall_app. split; [apply hex_no_slash, Hh'|].
      apply suffix_no_slash. eapply suffix_caps_ok, SC.
    - apply (app_inv_tail dot_svg). rewrite <- !app_assoc. exact E. }
  destruct U as [U1 U2].
  destruct (app_inj_1 h' h osuf' osuf ltac:(congruence) U2) as [-> ->].
  rewrite S. do 3 eexists. split; [reflexivity|].
  rewrite <- U1, length_app. exact SC.
Qed.

Lemma list_ascii_of_string_app s t :
  list_ascii_of_string (s +:+ t) = list_ascii_of_string s ++ list_ascii_of_string t.
Proof.
  induction s as [|a s IH]; [reflexivity|].
  change (String a s +:+ t) with (String a (s +:+ t)).
  cbn [list_ascii_of_string app]. f_equal. exact IH.
Qed.

Lemma string_of_list_ascii_app l k :
  string_of_list_ascii (l ++ k) = string_of_list_ascii l +:+ string_of_list_ascii k.
Proof.
  induction l as [|a l IH]; [reflexivity|].
  cbn [string_of_list_ascii app].
  change (String a ?x +:+ ?y) with (String a (x +:+ y)). f_equal. exact IH.
Qed.

Lemma digit_val_hex a :
  is_hex a = true -> exists d, digit_val a = Some d /\ 0 <= d < 16.
Proof.
  unfold is_hex, digit_val, in_range.
  change (nat_of_ascii "0") with 48%nat. change (nat_of_ascii "9") with 57%nat.
  change (nat_of_ascii "a") with 97%nat. change (nat_of_ascii "f") with 102%nat.
  change (nat_of_ascii "z") with 122%nat. change (nat_of_ascii "A") with 65%nat.
  change (nat_of_ascii "Z") with 90%nat.
  generalize (nat_of_ascii a) as n. intros n H.
  destruct (Nat.leb_spec 48 n), (Nat.leb_spec n 57); cbn [andb orb] in *.
  all: try (eexists; split; [reflexivity|lia]).
  all: destruct (Nat.leb_spec 97 n), (Nat.leb_spec n 102); cbn [andb orb] in *;
       try discriminate.
  all: destruct (Nat.leb_spec n 122); cbn [andb]; try lia.
  all: eexists; split; [reflexivity|lia].
Qed.

Lemma hex_not_sign a :
  is_hex a = true -> Ascii.eqb a "-" = false /\ Ascii.eqb a "+" = false.
Proof.
  intros H. split.
  - destruct (Ascii.eqb_spec a "-") as [->|]; [discriminate|reflexivity].
  - destruct (Ascii.eqb_spec a "+") as [->|]; [discriminate|reflexivity].
Qed.

Lemma parse_digits_hex h : forall acc,
  Forall (fun x => is_hex x = true) h -> 0 <= acc ->
  exists n, parse_digits 16 acc h = Some n /\
            0 <= n < (acc + 1) * 16 ^ Z.of_nat (length h).
Proof.
  induction h as [|a h IH]; intros acc Hh Ha.
  - exists acc. cbn. split; [reflexivity|lia].
  - inversion Hh as [|? ? H1 H2]; subst.
    destruct (digit_val_hex a H1) as (d & E & Hd). cbn [parse_digits]. rewrite E.
    destruct (Z.ltb_spec d 16); [|lia].
    destruct (IH (acc * 16 + d) H2 ltac:(lia)) as (n & En & Hn).
    exists n. split; [exact En|]. cbn [length]. rewrite Nat2Z.inj_succ, Z.pow_succ_r by lia.
    nia.
Qed.

(** Five hexadecimal digits always parse. *)
Lemma ParseInt_hex5 h :
  length h = 5%nat -> Forall (fun x => is_hex x = true) h ->
  exists num, ParseInt (string_of_list_ascii h) 16 = Some num /\ 0 <= num < 16 ^ 5.
Proof.
  intros L Hh. unfold ParseInt. rewrite list_ascii_of_string_of_list_ascii.
  destruct h as [|a h]; [discriminate|].
  inversion Hh as [|? ? H1 H2]; subst.
  destruct (hex_not_sign a H1) as [-> ->]. cbn [orb negb andb].
  destruct (parse_digits_hex (a :: h) 0 Hh ltac:(lia)) as (n & En & Hn).
  unfold ParseUint. rewrite En. rewrite L in Hn. change (Z.of_nat 5) with 5 in Hn.
  destruct (Z.ltb_spec n (2 ^ 64)); [|lia].
  destruct (Z.leb_spec (2 ^ 63) n); [lia|].
  exists n. split; [reflexivity|lia].
Qed.

Lemma submatch_at P w rest :
  submatch (P ++ w ++ rest) (Some (length P, (length P + length w)%nat))
  = string_of_list_ascii w.
Proof.
  unfold submatch. rewrite drop_app_length.
  replace (length P + length w - length P)%nat with (length w) by lia.
  rewrite take_app_length. reflexivity.
Qed.

Lemma submatches_of P h osuf x c' :
  length h = 5%nat ->
  suffix_caps (length P) osuf [None; None; None; None] c' ->
  exists m0,
    map (submatch (P ++ h ++ osuf ++ dot_svg)) (<[0%nat := x]> c')
    = [ m0; string_of_list_ascii (h ++ osuf); string_of_list_ascii h;
        string_of_list_ascii (drop 1 osuf) ].
Proof.
  intros Lh [[-> ->]|(ch & t & -> & Hch & Ht & ->)].
  - eexists. cbn [insert list_insert map drop]. rewrite app_nil_r.
    change ([] ++ dot_svg) with dot_svg. rewrite <- Lh.
    rewrite (submatch_at P h dot_svg). reflexivity.
  - eexists. cbn [insert list_insert map drop]. f_equal. f_equal; [|f_equal; [|f_equal]].
    + replace (length P + 5 + length ("-"%char :: ch :: t))%nat
        with (length P + length (h ++ "-"%char :: ch :: t))%nat
        by (rewrite length_app; lia).
      rewrite (app_assoc h), (submatch_at P (h ++ "-"%char :: ch :: t) dot_svg).
      reflexivity.
    + rewrite <- Lh. apply (submatch_at P h).
    + replace (P ++ h ++ ("-"%char :: ch :: t) ++ dot_svg)
        with ((P ++ h ++ ["-"%char]) ++ (ch :: t) ++ dot_svg)
        by (rewrite <- !app_assoc; reflexivity).
      replace (length P + 6)%nat with (length (P ++ h ++ ["-"%char]))
        by (rewrite !length_app; cbn; lia).
      apply submatch_at.
Qed.

(** [FileToParts] on a name of the grammar. *)
Lemma FileToParts_list dir h osuf :
  dir_ok dir -> length h = 5%nat -> Forall (fun x => is_hex x = true) h ->
  suffix_ok osuf ->
  exists num,
    FileToParts (string_of_list_ascii (dir ++ h ++ osuf ++ dot_svg))
    = Returns (string_of_list_ascii (h ++ osuf), num,
               string_of_list_ascii (drop 1 osuf)) /\
    ParseInt (string_of_list_ascii h) 16 = Some num.
Proof.
  intros D Lh Hh Hs.
  destruct (search_filePart dir h osuf D Lh Hh Hs) as (start & stop & c' & S & SC).
  destruct (submatches_of dir h osuf (Some (start, stop)) c' Lh SC) as [m0 Em].
  destruct (ParseInt_hex5 h Lh Hh) as (num & En & _).
  exists num. split; [|exact En].
  unfold FileToParts, FindStringSubmatch.
  rewrite list_ascii_of_string_of_list_ascii, S. cbn zeta. rewrite Em.
  cbn [lookup list_lookup default]. unfold Datatypes.id, HexIDToNum. rewrite En. reflexivity.
Qed.

(** Whatever [FileToParts] recognises is a name of the grammar. *)
Lemma FileToParts_sound s id num ext :
  FileToParts s = Returns (id, num, ext) -> id <> "" ->
  exists P h osuf,
    list_ascii_of_string s = P ++ h ++ osuf ++ dot_svg /\
    length h = 5%nat /\ Forall (fun x => is_hex x = true) h /\ suffix_ok osuf /\
    id = string_of_list_ascii (h ++ osuf) /\
    ext = string_of_list_ascii (drop 1 osuf) /\
    ParseInt (string_of_list_ascii h) 16 = Some num.
Proof.
  unfold FileToParts, FindStringSubmatch. intros H NE.
  destruct (search filePartRe (list_ascii_of_string s) 0) as [res|] eqn:S;
    [|injection H as <- _ _; congruence].
  destruct (search_sound _ _ _ _ S) as (sk & s' & E & Hm & _).
  unfold match_at in Hm.
  destruct (run_sound _ _ _ _ _ _ Hm) as (w & rest & c' & -> & M & Hk).
  injection Hk as <-.
  destruct (filePartRe_matches _ _ _ _ _ M) as (dir' & h' & osuf' & -> & -> & D' & Lh' & Hh' & SC).
  rewrite app_nil_r in E.
  assert (E' : list_ascii_of_string s = (sk ++ dir') ++ h' ++ osuf' ++ dot_svg)
    by (rewrite E, <- !app_assoc; reflexivity).
  rewrite Nat.add_0_l, <- length_app in SC.
  cbn zeta in H. rewrite E' in H.
  match type of H with context [<[0%nat := ?x]> c'] =>
    destruct (submatches_of (sk ++ dir') h' osuf' x c' Lh' SC) as [m0 Em] end.
  rewrite Em in H.
  cbn [lookup list_lookup default] in H. unfold Datatypes.id, HexIDToNum in H.
  destruct (ParseInt (string_of_list_ascii h') 16) as [n|] eqn:En; [|discriminate].
  injection H as <- <- <-.
  exists (sk ++ dir'), h', osuf'. repeat split; try assumption.
  eapply suffix_caps_ok, SC.
Qed.

(** [FileToParts] never ends the process. *)
Lemma FileToParts_returns s : exists r, FileToParts s = Returns r.
Proof.
  unfold FileToParts, FindStringSubmatch.
  destruct (search filePartRe (list_ascii_of_string s) 0) as [res|] eqn:S; [|eauto].
  destruct (search_sound _ _ _ _ S) as (sk & s' & E & Hm & _).
  unfold match_at in Hm.
  destruct (run_sound _ _ _ _ _ _ Hm) as (w & rest & c' & -> & M & Hk).
  injection Hk as <-.
  destruct (filePartRe_matches _ _ _ _ _ M) as (dir' & h' & osuf' & -> & -> & D' & Lh' & Hh' & SC).
  rewrite app_nil_r in E.
  assert (E' : list_ascii_of_string s = (sk ++ dir') ++ h' ++ osuf' ++ dot_svg)
    by (rewrite E, <- !app_assoc; reflexivity).
  rewrite Nat.add_0_l, <- length_app in SC.
  cbn zeta. rewrite E'.
  match goal with |- context [<[0%nat := ?x]> c'] =>
    destruct (submatches_of (sk ++ dir') h' osuf' x c' Lh' SC) as [m0 Em] end.
  rewrite Em.
  cbn [lookup list_lookup default]. unfold Datatypes.id, HexIDToNum.
  destruct (ParseInt_hex5 h' Lh' Hh') as (num & -> & _). eauto.
Qed.

Lemma string_app_assoc a b c : (a +:+ b) +:+ c = a +:+ b +:+ c.
Proof.
  induction a as [|x a IH]; [reflexivity|].
  change ((String x a +:+ b) +:+ c) with (String x ((a +:+ b) +:+ c)).
  change (String x a +:+ b +:+ c) with (String x (a +:+ b +:+ c)).
  f_equal. exact IH.
Qed.

Lemma length_list_ascii s : length (list_ascii_of_string s) = String.length s.
Proof. induction s as [|a s IH]; cbn; [reflexivity|]. f_equal. exact IH. Qed.

Lemma directory_ok dir : directory dir -> dir_ok (list_ascii_of_string dir).
Proof.
  intros [->|[x ->]]; [left; reflexivity|]. right.
  exists (list_ascii_of_string x). apply list_ascii_of_string_app.
Qed.

Lemma token_ok t : token t -> suffix_ok ("-"%char :: list_ascii_of_string t).
Proof. intros (ch & rest & -> & Hch & Hr). right. exists ch, (list_ascii_of_string rest). auto. Qed.

Lemma ok_token osuf :
  suffix_ok osuf -> osuf <> [] ->
  token (string_of_list_ascii (drop 1 osuf)) /\
  string_of_list_ascii osuf = "-" +:+ string_of_list_ascii (drop 1 osuf).
Proof.
  intros [->|(ch & t & -> & Hch & Ht)] NE; [congruence|]. split; [|reflexivity].
  exists ch, (string_of_list_ascii t). cbn [drop string_of_list_ascii].
  rewrite list_ascii_of_string_of_list_ascii. auto.
Qed.

(** ** The codec *)

Lemma Group_token_unfold name attrs children :
  Group_token (Element name attrs children) =
  if String.eqb (Local name) "g" then
    match Group_tokens children with
    | Some cs =>
        Some [groupChild (set_Group_Children cs (fold_left Group_attr attrs zeroGroup))]
    | None => None
    end
  else if String.eqb (Local name) "path" then
    match Path_UnmarshalXML name attrs children with
    | Some p => Some [pathChild p]
    | None => None
    end
  else if String.eqb (Local name) "text" then
    Some [textChild (Text_unmarshal attrs children)]
  else Group_tokens children.
Proof.
  cbn [Group_token].
  match goal with |- context [?F children] =>
    is_fix F; assert (E : forall l, F l = Group_tokens l) end.
  { induction l as [|x l IH]; [reflexivity|]. cbn [Group_tokens]. rewrite IH. reflexivity. }
  rewrite E. reflexivity.
Qed.

Lemma fold_omitfalse {S} (f : S -> Attr -> S) name (b : bool) (s : S) :
  fold_left f (map read_attr (omitfalse name b)) s
  = if b then f s (read_attr (name, "true")) else s.
Proof. destruct b; reflexivity. Qed.

Lemma fold_omitempty' {S} (f : S -> Attr -> S) name v (s : S) :
  f s (read_attr (name, "")) = s ->
  fold_left f (map read_attr (omitempty name v)) s = f s (read_attr (name, v)).
Proof.
  intros H. unfold omitempty. destruct (String.eqb_spec v "") as [->|]; [|reflexivity].
  symmetry. exact H.
Qed.

Ltac absorb_omitempty f :=
  repeat match goal with
    | |- context [fold_left f (map read_attr (omitempty ?n ?v)) ?s] =>
        lazymatch s with
        | context [omitempty] => fail
        | _ => rewrite (fold_omitempty' f n v s) by reflexivity
        end
    end.

(** The attributes of a group as they are read back. *)
Lemma Group_attrs_written g :
  fold_left Group_attr (map read_attr (Group_attrs g)) zeroGroup
  = set_Group_Children [] (written_Group g).
Proof.
  destruct g as [i e p v n o pa tf po r ph rf s ch].
  unfold Group_attrs, written_Group, set_Group_Children, zeroGroup.
  cbn [Group_ID Group_Element Group_Part Group_Variant Group_Number Group_Original
       Group_Partial Group_TradForm Group_Position Group_Radical Group_Phon
       Group_RadicalForm Group_Style Group_Children].
  rewrite !map_app, !fold_left_app, !fold_omitfalse.
  destruct v, pa; absorb_omitempty Group_attr; reflexivity.
Qed.

Lemma Local_read_element_name ns s :
  Local (read_element_name ns s) = Local (read_name s).
Proof. unfold read_element_name. destruct (String.eqb _ ""); reflexivity. Qed.

Ltac name_tests :=
  rewrite ?Local_read_element_name;
  repeat match goal with
    | |- context [String.eqb (Local (read_name ?s)) ?t] =>
        let b := eval vm_compute in (String.eqb (Local (read_name s)) t) in
        change (String.eqb (Local (read_name s)) t) with b
    end;
  cbn iota.

Lemma is_element_marshalChild c : is_element (marshalChild c) = true.
Proof. destruct c as [p g t [] []]; reflexivity. Qed.

Lemma Group_tokens_app l1 l2 :
  Group_tokens (l1 ++ l2) =
  match Group_tokens l1, Group_tokens l2 with
  | Some a, Some b => Some (a ++ b)
  | _, _ => None
  end.
Proof.
  induction l1 as [|x l1 IH]; cbn [app Group_tokens].
  - destruct (Group_tokens l2); reflexivity.
  - rewrite IH. destruct (Group_token x), (Group_tokens l1), (Group_tokens l2);
      try reflexivity. rewrite app_assoc. reflexivity.
Qed.

Lemma forallb_Forall_impl {A} (f : A -> bool) (P : A -> Prop) (l : list A) :
  Forall (fun x => f x = true -> P x) l -> forallb f l = true -> Forall P l.
Proof.
  induction 1 as [|x l Hx _ IH]; [constructor|]. cbn [forallb].
  intros H. apply andb_true_iff in H as [H1 H2]. constructor; auto.
Qed.

Lemma Path_attr_Class attrs : forall p,
  Path_Class (fold_left Path_attr attrs p) = Path_Class p.
Proof.
  induction attrs as [|a attrs IH]; intros p; [reflexivity|].
  cbn [fold_left]. rewrite IH. unfold Path_attr.
  repeat match goal with |- context [if ?b then _ else _] => destruct b end;
    destruct p; reflexivity.
Qed.

Lemma Forall_ok_visible cs : Forall child_ok cs -> map visible_child cs = cs.
Proof.
  induction 1 as [|c cs [Hv _] _ IH]; [reflexivity|]. cbn [map]. congruence.
Qed.

Lemma Forall_ok_class cs : Forall child_ok cs -> forallb class_free cs = true.
Proof.
  induction 1 as [|c cs [_ Hc] _ IH]; [reflexivity|]. cbn [forallb].
  rewrite Hc, IH. reflexivity.
Qed.

Lemma Group_tokens_ok l :
  Forall (fun n => forall cs, Group_token n = Some cs -> Forall child_ok cs) l ->
  forall cs, Group_tokens l = Some cs -> Forall child_ok cs.
Proof.
  induction 1 as [|n l Hn _ IH]; intros cs E; cbn [Group_tokens] in E.
  - injection E as <-. constructor.
  - destruct (Group_token n) as [a|] eqn:Ea; [|discriminate].
    destruct (Group_tokens l) as [b|] eqn:Eb; [|discriminate].
    injection E as <-. apply Forall_app. split; [apply Hn|apply IH]; reflexivity.
Qed.

(** The decoder builds children with nothing out of sight and no class
    on a path. *)
Lemma Group_token_ok n : forall cs, Group_token n = Some cs -> Forall child_ok cs.
Proof.
  induction n as [name attrs children IH| |] using Node_ind'; intros cs E.
  - rewrite Group_token_unfold in E.
    pose proof (Group_tokens_ok _ IH) as R.
    destruct (String.eqb (Local name) "g").
    { destruct (Group_tokens children) as [cs'|] eqn:Ec; [|discriminate].
      injection E as <-. specialize (R _ eq_refl).
      constructor; [|constructor]. split.
      - cbn [visible_child groupChild Child_IsGroup Child_Group].
        destruct (fold_left Group_attr attrs zeroGroup) as [gi ge gp gv gn go gpa gtf gpo gr gph grf gs0 gch].
        cbn [set_Group_Children Group_Children]. unfold groupChild.
        rewrite (Forall_ok_visible _ R). reflexivity.
      - cbn [class_free groupChild Child_IsGroup Child_Group].
        destruct (fold_left Group_attr attrs zeroGroup) as [gi ge gp gv gn go gpa gtf gpo gr gph grf gs0 gch].
        cbn [set_Group_Children Group_Children]. apply Forall_ok_class, R. }
    destruct (String.eqb (Local name) "path").
    { unfold Path_UnmarshalXML in E.
      destruct (existsb (has_element name) children); [discriminate|].
      injection E as <-. constructor; [|constructor]. split; [reflexivity|].
      cbn [class_free pathChild Child_IsGroup Child_IsText Child_Path].
      rewrite Path_attr_Class. reflexivity. }
    destruct (String.eqb (Local name) "text").
    { injection E as <-. constructor; [|constructor]. split; reflexivity. }
    apply R, E.
  - injection E as <-. constructor.
  - injection E as <-. constructor.
Qed.

Lemma SVG_groups_ok l : forall gs,
  SVG_groups l = Some gs ->
  map visible_group gs = gs /\
  forallb (fun g => forallb class_free (Group_Children g)) gs = true.
Proof.
  induction l as [|n l IH]; intros gs E; cbn [SVG_groups] in E.
  - injection E as <-. split; reflexivity.
  - destruct n as [name attrs children| |]; try (apply IH, E).
    destruct (String.eqb (Local name) "g"); [|apply IH, E].
    unfold Group_UnmarshalXML in E.
    destruct (Group_tokens children) as [cs|] eqn:Ec; [|discriminate].
    destruct (SVG_groups l) as [gs'|] eqn:Eg; [|discriminate].
    injection E as <-. destruct (IH _ eq_refl) as [Hv Hc].
    assert (R : Forall child_ok cs).
    { apply (Group_tokens_ok children); [|exact Ec].
      apply Forall_forall. intros n _. apply Group_token_ok. }
    cbn [map forallb]. rewrite Hv, Hc.
    destruct (fold_left Group_attr attrs zeroGroup) as [gi ge gp gv gn go gpa gtf gpo gr gph grf gs0 gch].
    unfold visible_group. cbn [set_Group_Children Group_Children].
    rewrite (Forall_ok_visible _ R), (Forall_ok_class _ R). split; reflexivity.
Qed.

(** Every decoded document is [decoded]. *)
Lemma ParseKanji_decoded root kvg : ParseKanji root = Some kvg -> decoded kvg.
Proof.
  destruct root as [name attrs children| |]; try discriminate.
  unfold ParseKanji. destruct (String.eqb (Local name) "svg"); [|discriminate].
  destruct (SVG_groups children) as [gs|] eqn:E; [|discriminate].
  intros [= <-]. destruct (SVG_groups_ok _ _ E) as [Hv Hc].
  destruct (fold_left SVG_attr attrs (mkSVG "" "" "" "" [])) as [sns sw sh svb sgs].
  unfold decoded, visible_SVG, class_free_SVG, set_SVG_Groups.
  cbn [SVG_Groups SVG_XMLNS SVG_Width SVG_Height SVG_ViewBox].
  rewrite Hv, Hc. split; reflexivity.
Qed.

(** * The claims *)

(** ** C1: the renumbering walk *)

(** C1 (as amended).  Whenever the base group exists, the walk of
    [RenumberXML] (with the base group's identifier as base) and of
    [SetBase] (with the new base) goes once through the base group's
    descendants in document order, with two counters that start at 0 and
    are shared by the whole subtree: the k-th group gets [base-gk], and
    the k-th child that is not a group gets [base-sk] in its [Path]
    field.  Without text below the base group, the k-th path gets
    [base-sk].  The tree keeps its shape.  For base [kvg:09999] and the
    children [Path, Group[Path, Path], Path] the nested group gets
    [kvg:09999-g1] and the paths [-s1] to [-s4] in document order.  (The
    counters are [int64]; the bounds say that they do not wrap.) *)
Theorem C1_renumber_walk :
  (forall kvg g,
      BaseGroup kvg = Return g kvg ->
      Z.of_nat (n_groups (Group_Children g)) < 2 ^ 63 ->
      Z.of_nat (n_leaves (Group_Children g)) < 2 ^ 63 ->
      numbered (Group_ID g) (Group_Children g)
        (base_children (final_doc (RenumberXML kvg)))) /\
  (forall kvg g base,
      BaseGroup kvg = Return g kvg ->
      String.prefix "kvg:" base = true ->
      Z.of_nat (n_groups (Group_Children g)) < 2 ^ 63 ->
      Z.of_nat (n_leaves (Group_Children g)) < 2 ^ 63 ->
      numbered base (Group_Children g)
        (base_children (final_doc (SetBase base kvg)))) /\
  (let cs' := base_children (final_doc (SetBase "kvg:09999" example_doc)) in
   map Group_ID (flat_map groups_preorder cs') = ["kvg:09999-g1"] /\
   map pid (flat_map paths_preorder cs')
   = ["kvg:09999-s1"; "kvg:09999-s2"; "kvg:09999-s3"; "kvg:09999-s4"]).
Proof.
  split; [|split].
  - intros kvg g B HG HL. rewrite (base_children_RenumberXML kvg g B).
    apply renumber_range_numbered; assumption.
  - intros kvg g base B P HG HL. rewrite (base_children_SetBase kvg g base B P).
    apply renumber_range_numbered; assumption.
  - vm_compute. split; reflexivity.
Qed.

Lemma C1_renumber_walk_witness :
  numbered "kvg:09999" example_children
    (base_children (final_doc (RenumberXML example_doc))) /\
  numbered "kvg:0abcd" example_children
    (base_children (final_doc (SetBase "kvg:0abcd" example_doc))).
Proof.
  split.
  - apply (proj1 C1_renumber_walk example_doc
             (ex_group "kvg:09999" "X" example_children)).
    + reflexivity.
    + vm_compute. reflexivity.
    + vm_compute. reflexivity.
  - apply (proj1 (proj2 C1_renumber_walk) example_doc
             (ex_group "kvg:09999" "X" example_children) "kvg:0abcd").
    + reflexivity.
    + reflexivity.
    + vm_compute. reflexivity.
    + vm_compute. reflexivity.
Defined.

(** C1 as stated fails: with a text in front of it below the base group,
    the first (and only) path is numbered [-s2], not [-s1]. *)
Lemma C1_text_shifts_path_ordinal :
  let cs' := base_children (final_doc (RenumberXML text_first_doc)) in
  RenumberXML text_first_doc = Return tt (final_doc (RenumberXML text_first_doc)) /\
  map Child_IsText cs' = [true; false] /\
  map pid (flat_map paths_preorder cs') = ["kvg:09999-s2"] /\
  map pid (flat_map paths_preorder cs') <> ["kvg:09999-s1"].
Proof. vm_compute. repeat split. discriminate. Qed.

(** ** C2: decoding what was encoded *)

Lemma MakeXML_eq Heading kvg :
  MakeXML Heading kvg =
  match RenumberXML kvg with
  | Return _ kvg' =>
      Return (fixXML Heading (MarshalIndent (marshalSVG kvg') "" (String tab ""))) kvg'
  | Panic e kvg' => Panic e kvg'
  | Fatalf msg kvg' => Fatalf msg kvg'
  end.
Proof. unfold MakeXML, bind. destruct (RenumberXML kvg); reflexivity. Qed.

(** [MakeXML] returns whenever both top-level groups are there and the
    first has a child. *)
Lemma MakeXML_returns Heading kvg g0 g1 gs c0 cs :
  SVG_Groups kvg = g0 :: g1 :: gs -> Group_Children g0 = c0 :: cs ->
  returns_to_caller (MakeXML Heading kvg).
Proof. intros EG EC. rewrite MakeXML_eq, RenumberXML_eq, EG, EC. exact I. Qed.

(** With a single top-level group that has a child, [MakeXML] panics
    after the walk. *)
Lemma MakeXML_single_group Heading kvg g0 c0 cs :
  SVG_Groups kvg = [g0] -> Group_Children g0 = c0 :: cs ->
  MakeXML Heading kvg
  = Panic (IndexOutOfRange 1 1)
      (set_SVG_Groups
         [set_Group_Children (walk_base (Group_ID (Child_Group c0)) c0 :: cs) g0] kvg).
Proof. intros EG EC. rewrite MakeXML_eq, RenumberXML_eq, EG, EC. reflexivity. Qed.

(** C2 (the code at the failing input).  A file in the layout of the
    encoder that has no group of stroke numbers is decoded to a document
    with a single top-level group.  On that document [MakeXML] panics in
    [RenumberLabels], after the walk: it returns no bytes, so there is
    nothing to decode and to compare with the document; [SetBase], which
    tests [len(kvg.Groups) > 1], returns on it.  The same file with its
    group of stroke numbers is decoded and encoded, and [MakeXML] leaves
    the document as it was decoded. *)
Theorem C2_no_stroke_numbers_no_bytes :
  ParseKanji no_numbers_input = Some no_numbers_doc /\
  (forall Heading,
      MakeXML Heading no_numbers_doc = Panic (IndexOutOfRange 1 1) no_numbers_doc) /\
  returns_to_caller (SetBase "kvg:04e00" no_numbers_doc) /\
  ParseKanji canonical_input = Some (sample_doc "1") /\
  (forall Heading,
      MakeXML Heading (sample_doc "1")
      = Return (fixXML Heading
                  (MarshalIndent (marshalSVG (sample_doc "1")) "" (String tab "")))
          (sample_doc "1")).
Proof.
  split; [vm_compute; reflexivity|].
  split; [intros Heading; rewrite MakeXML_eq; vm_compute; reflexivity|].
  split; [vm_compute; exact I|].
  split; [vm_compute; reflexivity|].
  intros Heading. rewrite MakeXML_eq.
  assert (E : RenumberXML (sample_doc "1") = Return tt (sample_doc "1"))
    by (vm_compute; reflexivity).
  rewrite E. reflexivity.
Qed.

(** ** C3: encoding a document without stroke numbers *)

(** C3 (the code at the failing input).  With a single top-level group,
    [RenumberLabels] and [SetStyle] index [Groups[1]] and panic, and so do
    [RenumberXML] and [MakeXML]; [SetBase] tests [len(kvg.Groups) > 1]
    first and returns. *)
Theorem C3_single_group_panics :
  (forall Heading,
      exists kvg', MakeXML Heading one_group_doc = Panic (IndexOutOfRange 1 1) kvg') /\
  (exists kvg', RenumberXML one_group_doc = Panic (IndexOutOfRange 1 1) kvg') /\
  RenumberLabels one_group_doc = Panic (IndexOutOfRange 1 1) one_group_doc /\
  (exists kvg', SetStyle one_group_doc = Panic (IndexOutOfRange 1 1) kvg') /\
  returns_to_caller (SetBase "kvg:09999" one_group_doc).
Proof.
  split; [intros Heading; eexists; rewrite MakeXML_eq; vm_compute; reflexivity|].
  split; [eexists; vm_compute; reflexivity|].
  split; [vm_compute; reflexivity|].
  split; [eexists; vm_compute; reflexivity|].
  vm_compute. exact I.
Qed.

(** ** C4: the style pass *)

(** C4 (the code at the failing input).  [SetStyle] sets the styles of
    the two top-level groups, but the styles of the groups below the
    first one survive it, and survive [RenumberXML]: [removeChildStyles]
    assigns to copies. *)
Theorem C4_descendant_styles_survive :
  (exists kvg', SetStyle styled_doc = Return tt kvg' /\
                top_styles kvg' = [style_paths; style_numbers] /\
                descendant_styles kvg' = ["fill:red"; "stroke:blue"]) /\
  (exists kvg', RenumberXML styled_doc = Return tt kvg' /\
                descendant_styles kvg' = ["fill:red"; "stroke:blue"]).
Proof.
  split; eexists; vm_compute; repeat split.
Qed.

(** ** C5: a base without the prefix *)

(** A base shorter than the prefix: the slice [base[0:4]] panics. *)
Lemma SetBase_short_base_panics kvg base :
  (String.length base < 4)%nat ->
  SetBase base kvg = Panic (SliceBoundsOutOfRange 4 (String.length base)) kvg.
Proof. intros L. rewrite SetBase_eq, (str_take_None 4 base L). reflexivity. Qed.

(** [FileToNum] ends the process on a name that [fileIDRe] does not
    match, as on [kanji/README.md]. *)
Lemma FileToNum_no_match_exits fileName :
  MatchString fileIDRe fileName = false -> FileToNum fileName = os_Exit 1.
Proof.
  unfold MatchString, FileToNum.
  destruct (FindStringSubmatch fileIDRe fileName); [discriminate|reflexivity].
Qed.

Example FileToNum_README : FileToNum "kanji/README.md" = os_Exit 1.
Proof. apply FileToNum_no_match_exits. vm_compute. reflexivity. Qed.

(** C5 (as amended).  For every document and every base of at least four
    bytes that does not start with [kvg:], [SetBase] ends the process
    through [log.Fatalf], with the message naming the base, before it
    touches the document. *)
Theorem C5_SetBase_bad_prefix_exits :
  forall kvg base,
    (4 <= String.length base)%nat -> String.prefix "kvg:" base = false ->
    SetBase base kvg = Fatalf (fatal_msg base) kvg.
Proof.
  intros kvg base L N. rewrite SetBase_eq.
  destruct (str_take_Some 4 base L) as [h E]. rewrite E.
  rewrite (str_take_prefix "kvg:" base h E), N. reflexivity.
Qed.

Lemma C5_SetBase_bad_prefix_exits_witness :
  SetBase "abc:09999" example_doc
  = Fatalf "Base name 'abc:09999' does not start with 'kvg:'" example_doc.
Proof.
  apply (C5_SetBase_bad_prefix_exits example_doc "abc:09999").
  - cbn. lia.
  - reflexivity.
Defined.

(** C5 as stated fails: nothing is returned to the caller. *)
Lemma C5_not_returned :
  ~ (forall kvg base,
       String.prefix "kvg:" base = false -> returns_to_caller (SetBase base kvg)).
Proof.
  intros H. exact (H example_doc "abc:09999" eq_refl).
Qed.

(** ** C6: renumbering twice *)

(** C6.  [RenumberXML] run twice leaves what one run leaves, the whole
    document included; and the identifiers it assigns below the base group
    are the same for two documents with the same base identifier and the
    same shape below the base group, whatever else they hold, as are the
    two top-level styles. *)
Theorem C6_RenumberXML_idempotent :
  (forall kvg, (RenumberXML ;; RenumberXML) kvg = RenumberXML kvg) /\
  (forall kvg kvg', RenumberXML kvg = Return tt kvg' ->
                    RenumberXML kvg' = Return tt kvg') /\
  (forall kvg1 kvg2,
      base_shape kvg1 = base_shape kvg2 ->
      base_walk_ids (final_doc (RenumberXML kvg1))
      = base_walk_ids (final_doc (RenumberXML kvg2))) /\
  (forall kvg kvg', RenumberXML kvg = Return tt kvg' ->
                    top_styles kvg' = [style_paths; style_numbers]).
Proof.
  split; [exact RenumberXML_twice|]. split; [|split].
  - intros kvg kvg' E. pose proof (RenumberXML_twice kvg) as T.
    unfold bind in T. rewrite E in T. exact T.
  - exact base_walk_ids_shape.
  - intros kvg kvg'. rewrite RenumberXML_eq.
    destruct (SVG_Groups kvg) as [|g0 [|g1 gs]]; try discriminate;
      destruct (Group_Children g0); try discriminate.
    intros [= <-]. destruct kvg, g0, g1. reflexivity.
Qed.

Lemma C6_RenumberXML_idempotent_witness :
  (exists kvg', RenumberXML example_doc = Return tt kvg' /\
                RenumberXML kvg' = Return tt kvg' /\
                top_styles kvg' = [style_paths; style_numbers]) /\
  base_walk_ids (final_doc (RenumberXML example_doc))
  = base_walk_ids (final_doc (RenumberXML example_doc')).
Proof.
  split.
  - exists (final_doc (RenumberXML example_doc)).
    assert (E : RenumberXML example_doc
                = Return tt (final_doc (RenumberXML example_doc)))
      by (vm_compute; reflexivity).
    split; [exact E|]. split.
    + exact (proj1 (proj2 C6_RenumberXML_idempotent) _ _ E).
    + exact (proj2 (proj2 (proj2 C6_RenumberXML_idempotent)) _ _ E).
  - apply (proj1 (proj2 (proj2 C6_RenumberXML_idempotent))). reflexivity.
Defined.

(** ** C7: all the groups with an element *)

(** C7 (the code at the failing inputs).  For two sibling groups with the
    element [x], [FindMultiElement] returns for the second a chain that
    goes through the first, which is not one of its ancestors; and it
    does not look for a match inside a match. *)
Theorem C7_sibling_in_chain :
  FindMultiElement two_matches "x" = [[[]; [0%nat]]; [[]; [0%nat]; [2%nat]]] /\
  FindAllByElement_spec [] [] two_matches "x" = [[[]; [0%nat]]; [[]; [2%nat]]] /\
  FindMultiElement nested_match "x" = [[[]; [0%nat]]] /\
  FindAllByElement_spec [] [] nested_match "x"
  = [[[]; [0%nat]]; [[]; [0%nat]; [0%nat; 0%nat]]].
Proof. repeat split. Qed.

(** ** C8: file names *)

(** C8 (as amended).  [FileToParts] recognises a name made of an optional
    directory part, five lower-case hexadecimal digits, optionally a
    hyphen and a token, and [.svg], where a token is any letter followed
    by letters and digits: it returns the digits with the token, the
    number the digits spell, and the token.  Whatever it recognises ends
    in such a part.  It never ends the process. *)
Theorem C8_FileToParts_grammar :
  (forall dir h, directory dir -> hex5 h ->
     exists num, FileToParts (dir +:+ h +:+ ".svg") = Returns (h, num, "") /\
                 ParseInt h 16 = Some num) /\
  (forall dir h t, directory dir -> hex5 h -> token t ->
     exists num, FileToParts (dir +:+ h +:+ "-" +:+ t +:+ ".svg")
                 = Returns (h +:+ "-" +:+ t, num, t) /\
                 ParseInt h 16 = Some num) /\
  (forall s id num ext, FileToParts s = Returns (id, num, ext) -> id <> "" ->
     exists pre h, s = pre +:+ id +:+ ".svg" /\ hex5 h /\ ParseInt h 16 = Some num /\
       ((id = h /\ ext = "") \/ (token ext /\ id = h +:+ "-" +:+ ext))) /\
  (forall s, exists r, FileToParts s = Returns r).
Proof.
  split; [|split; [|split]].
  - intros dir h D [Lh Hh].
    destruct (FileToParts_list (list_ascii_of_string dir) (list_ascii_of_string h) []
                (directory_ok _ D)) as (num & E & En);
      [rewrite length_list_ascii; exact Lh|exact Hh|left; reflexivity|].
    exists num. rewrite string_of_list_ascii_of_string in En.
    rewrite app_nil_r, string_of_list_ascii_of_string in E.
    cbn [drop string_of_list_ascii] in E.
    split; [|exact En]. rewrite <- E. f_equal.
    rewrite <- (string_of_list_ascii_of_string (dir +:+ h +:+ ".svg")).
    rewrite !list_ascii_of_string_app. reflexivity.
  - intros dir h t D [Lh Hh] T.
    destruct (FileToParts_list (list_ascii_of_string dir) (list_ascii_of_string h)
                ("-"%char :: list_ascii_of_string t)
                (directory_ok _ D)) as (num & E & En);
      [rewrite length_list_ascii; exact Lh|exact Hh|apply token_ok, T|].
    exists num. rewrite string_of_list_ascii_of_string in En. split; [|exact En].
    cbn [drop app] in E. rewrite drop_0 in E.
    repeat (rewrite ?string_of_list_ascii_app, ?string_of_list_ascii_of_string in E;
            cbn [string_of_list_ascii] in E).
    exact E.
  - intros s id num ext H NE.
    destruct (FileToParts_sound s id num ext H NE)
      as (P & h & osuf & E & Lh & Hh & Hs & -> & -> & En).
    exists (string_of_list_ascii P), (string_of_list_ascii h).
    split; [|split; [|split]].
    + rewrite <- (string_of_list_ascii_of_string s), E.
      rewrite !string_of_list_ascii_app, string_app_assoc. reflexivity.
    + split; [rewrite <- length_list_ascii|];
        rewrite list_ascii_of_string_of_list_ascii; assumption.
    + exact En.
    + destruct osuf as [|a osuf].
      * left. rewrite app_nil_r. split; reflexivity.
      * right. destruct (ok_token (a :: osuf) Hs ltac:(discriminate)) as [T E'].
        split; [exact T|]. rewrite string_of_list_ascii_app, E'. reflexivity.
  - apply FileToParts_returns.
Qed.

Lemma C8_FileToParts_grammar_witness :
  (exists num, FileToParts "kanji/0f9a8.svg" = Returns ("0f9a8", num, "")) /\
  (exists num, FileToParts "kanji/0f9a8-Kaisho.svg"
               = Returns ("0f9a8-Kaisho", num, "Kaisho")) /\
  (exists pre h, "0f9a8-Foo.svg" = pre +:+ "0f9a8-Foo" +:+ ".svg" /\ hex5 h /\
                 token "Foo" /\ "0f9a8-Foo" = h +:+ "-" +:+ "Foo").
Proof.
  assert (D : directory "kanji/") by (right; exists "kanji"; reflexivity).
  assert (H5 : hex5 "0f9a8") by (split; [reflexivity|repeat constructor]).
  assert (T : token "Kaisho") by (exists "K"%char, "aisho"; repeat constructor).
  split; [|split].
  - destruct (proj1 C8_FileToParts_grammar "kanji/" "0f9a8" D H5) as (num & E & _).
    exists num. exact E.
  - destruct (proj1 (proj2 C8_FileToParts_grammar) "kanji/" "0f9a8" "Kaisho" D H5 T)
      as (num & E & _).
    exists num. exact E.
  - destruct (proj1 (proj2 (proj2 C8_FileToParts_grammar))
                "0f9a8-Foo.svg" "0f9a8-Foo" 63912 "Foo" eq_refl ltac:(discriminate))
      as (pre & h & E & H & _ & [[E1 E2]|[T' E1]]); [discriminate|].
    exists pre, h. auto.
Defined.

(** C8 as stated fails: [Foo] is not one of the endings [Variant] lists,
    and [FileToParts] returns it all the same. *)
Lemma C8_unlisted_token_recognised :
  ~ In "Foo" variant_tokens /\
  MatchString Variant "0f9a8-Foo.svg" = false /\
  FileToParts "0f9a8-Foo.svg" = Returns ("0f9a8-Foo", 63912, "Foo").
Proof.
  split; [|split; vm_compute; reflexivity].
  unfold variant_tokens. cbn [In]. intuition discriminate.
Qed.

(** ** C9: what the renumbering leaves alone *)

(** C9.  Whatever [SetBase] and [RenumberXML] do, return, panic or exit,
    the document they leave differs from the one they found at most in
    the identifiers and styles of the first two top-level groups, the
    identifier of the base group, the identifiers that the walk assigns
    below it, and the text of the text children of the second top-level
    group: the number, order and flags of all children and all other
    attributes are as before. *)
Theorem C9_renumbering_frame :
  forall kvg base,
    frame_SVG (final_doc (SetBase base kvg)) = frame_SVG kvg /\
    frame_SVG (final_doc (RenumberXML kvg)) = frame_SVG kvg.
Proof. intros kvg base. split; [apply frame_SetBase | apply frame_RenumberXML]. Qed.

(** ** C10: the base group accessor *)

(** C10.  [BaseGroup] returns the [Group] field of the first child of the
    first top-level group, whatever the flags of that child.  When that
    child is a path or a text, as the decoder builds them, the result is
    the zero group; [Base] then returns two empty strings, [SetBase]
    returns for a base with the prefix and writes the base into that
    hidden group, and [RenumberXML] walks it: it returns when the second
    top-level group is there, and without that group it panics after the
    walk, in the label pass, as on every document with a single top-level
    group.  [BaseGroup] panics exactly when there is no top-level group
    or the first one has no child. *)
Theorem C10_BaseGroup_unchecked :
  (forall kvg g0 gs c0 cs,
      SVG_Groups kvg = g0 :: gs -> Group_Children g0 = c0 :: cs ->
      BaseGroup kvg = Return (Child_Group c0) kvg) /\
  (forall kvg g0 gs c0 cs,
      SVG_Groups kvg = g0 :: gs -> Group_Children g0 = c0 :: cs ->
      (exists p, c0 = pathChild p) \/ (exists t, c0 = textChild t) ->
      BaseGroup kvg = Return zeroGroup kvg /\
      Base kvg = Return ("", "") kvg /\
      (forall base, String.prefix "kvg:" base = true ->
         returns_to_caller (SetBase base kvg) /\
         BaseGroup (final_doc (SetBase base kvg))
         = Return (set_Group_ID base zeroGroup) (final_doc (SetBase base kvg))) /\
      (gs <> [] -> returns_to_caller (RenumberXML kvg)) /\
      (gs = [] -> exists kvg', RenumberXML kvg = Panic (IndexOutOfRange 1 1) kvg')) /\
  (forall kvg,
      (exists e, BaseGroup kvg = Panic e kvg) <->
      (SVG_Groups kvg = [] \/
       exists g0 gs, SVG_Groups kvg = g0 :: gs /\ Group_Children g0 = [])).
Proof.
  split; [|split].
  - intros kvg g0 gs c0 cs EG EC. rewrite BaseGroup_eq, EG, EC. reflexivity.
  - intros kvg g0 gs c0 cs EG EC Hc.
    assert (Z : Child_Group c0 = zeroGroup) by (destruct Hc as [[p ->]|[t ->]]; reflexivity).
    assert (B : BaseGroup kvg = Return zeroGroup kvg).
    { rewrite BaseGroup_eq, EG, EC, Z. reflexivity. }
    split; [exact B|]. split; [|split; [|split]].
    + unfold Base, bind. rewrite B. reflexivity.
    + intros base P. rewrite SetBase_eq.
      destruct (str_take_Some 4 base (prefix_length _ _ P)) as [h E]. rewrite E.
      rewrite (str_take_prefix "kvg:" base h E), P, EG, EC. cbn [negb].
      split; [exact I|]. cbn [final_doc].
      rewrite BaseGroup_eq. destruct kvg, g0; cbn in *.
      destruct Hc as [[p ->]|[t ->]]; reflexivity.
    + intros NE. rewrite RenumberXML_eq, EG, EC. destruct gs; [congruence|exact I].
    + intros ->. rewrite RenumberXML_eq, EG, EC. eexists. reflexivity.
  - intros kvg. rewrite BaseGroup_eq. split.
    + intros [e H]. destruct (SVG_Groups kvg) as [|g0 gs]; [left; reflexivity|].
      right. exists g0, gs. split; [reflexivity|].
      destruct (Group_Children g0); [reflexivity|discriminate].
    + intros [->|(g0 & gs & -> & ->)]; eexists; reflexivity.
Qed.

Lemma C10_BaseGroup_unchecked_witness :
  BaseGroup path_first_doc = Return zeroGroup path_first_doc /\
  Base path_first_doc = Return ("", "") path_first_doc /\
  returns_to_caller (SetBase "kvg:09999" path_first_doc) /\
  returns_to_caller (RenumberXML path_first_doc) /\
  (exists e, BaseGroup (set_SVG_Groups [] path_first_doc)
             = Panic e (set_SVG_Groups [] path_first_doc)).
Proof.
  destruct (proj1 (proj2 C10_BaseGroup_unchecked) path_first_doc
              (ex_group "kvg:StrokePaths_09999" "" [ ex_path "M1" ])
              [ex_group "kvg:StrokeNumbers_09999" "" [ textChild (mkText "" "1" "") ]]
              (ex_path "M1") [] eq_refl eq_refl
              (or_introl (ex_intro _ (mkPath "" "" "M1" "") eq_refl)))
    as (B & Bs & S & R & _).
  split; [exact B|]. split; [exact Bs|].
  split; [exact (proj1 (S "kvg:09999" eq_refl))|].
  split; [apply R; discriminate|].
  apply (proj2 (proj2 (proj2 C10_BaseGroup_unchecked) (set_SVG_Groups [] path_first_doc))).
  left. reflexivity.
Defined.

(** * Further properties *)

(** ** The queries and the listings *)

Lemma Group_ind' (P : Group -> Prop)
  (H : forall g, Forall (fun c => P (Child_Group c)) (Group_Children g) -> P g) :
  forall g, P g.
Proof.
  intros g. change g with (Child_Group (groupChild g)).
  apply (Child_ind' (fun c => P (Child_Group c))). intros c IH. apply H, IH.
Qed.

Lemma imap_below_S {A} (k : nat) (ls : list (list (list nat * A))) :
  imap ((fun j => below (k + j)) ∘ S) ls = imap (fun j => below (S k + j)) ls.
Proof.
  apply imap_ext. intros j x _. cbn. replace (k + S j)%nat with (S (k + j)) by lia.
  reflexivity.
Qed.

Lemma imap_below_0 {A} (ls : list (list (list nat * A))) :
  imap below ls = imap (fun j => below (0 + j)) ls.
Proof. reflexivity. Qed.

Lemma chain_up_cons i q : chain_up (i :: q) = map (cons i) (chain_up q) ++ [[]].
Proof.
  unfold chain_up. cbn [length].
  change (seq 0 (S (S (length q)))) with (0%nat :: seq 1 (S (length q))).
  rewrite <- seq_shift. cbn [rev]. rewrite map_app, <- map_rev, !map_map. reflexivity.
Qed.

Lemma group_list_child c :
  child_groups c = if Child_IsGroup c then group_list (Child_Group c) else [].
Proof. destruct c as [p g t [] it]; reflexivity. Qed.

Lemma FindElement_unfold gp g funky :
  FindElement gp g funky =
  if String.eqb (Group_Element g) funky then (true, [gp])
  else FindElement_range gp funky 0 (Group_Children g) [].
Proof.
  destruct g as [i e p v n o pa tf po r ph rf s ch].
  cbn [FindElement Group_Element Group_Children].
  destruct (String.eqb e funky); [reflexivity|].
  match goal with |- ?F 0%nat ch [] = _ =>
    assert (E : forall cs k loc, F k cs loc = FindElement_range gp funky k cs loc) end.
  { induction cs as [|c cs IH]; intros k loc; [reflexivity|].
    cbn [FindElement_range]. destruct (Child_IsGroup c); [|apply IH].
    destruct (FindElement (gp ++ [k]) (Child_Group c) funky) as [[] loc']; [reflexivity|apply IH]. }
  apply E.
Qed.

Lemma find_app' {A} (f : A -> bool) (l1 l2 : list A) :
  find f (l1 ++ l2) = match find f l1 with Some x => Some x | None => find f l2 end.
Proof. induction l1 as [|x l1 IH]; [reflexivity|]. cbn. destruct (f x); auto. Qed.

Lemma find_map_ptr funky i (l : list (GroupPtr * Group)) :
  find (element_matches funky) (below i l)
  = (fun x : GroupPtr * Group => (i :: x.1, x.2)) <$> find (element_matches funky) l.
Proof.
  induction l as [|x l IH]; [reflexivity|]. cbn [below map find].
  unfold element_matches at 1 3. cbn [snd]. destruct (String.eqb _ _); [reflexivity|apply IH].
Qed.

Lemma FindElement_range_spec gp funky cs :
  Forall (fun c => forall gp', FindElement gp' (Child_Group c) funky
                               = FindElement_spec gp' funky (group_list (Child_Group c))) cs ->
  forall i,
    FindElement_range gp funky i cs [] =
    FindElement_spec gp funky
      (concat (imap (fun j => below (i + j)) (map child_groups cs))).
Proof.
  induction 1 as [|c cs Hc _ IH]; intros i; [reflexivity|].
  cbn [FindElement_range map]. rewrite imap_cons. cbn [concat].
  unfold FindElement_spec at 1. rewrite find_app', Nat.add_0_r, find_map_ptr.
  rewrite group_list_child, imap_below_S.
  destruct (Child_IsGroup c).
  - rewrite Hc. unfold FindElement_spec at 1.
    destruct (find (element_matches funky) (group_list (Child_Group c))) as [[q m]|].
    + cbn [fmap option_fmap option_map fst snd]. rewrite chain_up_cons, map_app, map_map.
      cbn [map]. rewrite app_nil_r. f_equal. f_equal. apply map_ext. intros a.
      rewrite <- app_assoc. reflexivity.
    + cbn. apply IH.
  - cbn. apply IH.
Qed.

Lemma FindElement_group_list gp g funky :
  FindElement gp g funky = FindElement_spec gp funky (group_list g).
Proof.
  revert gp. induction g as [g IH] using Group_ind'. intros gp.
  rewrite FindElement_unfold. unfold group_list, FindElement_spec. cbn [find].
  unfold element_matches at 1. cbn [snd fst].
  destruct (String.eqb (Group_Element g) funky).
  - cbn. rewrite app_nil_r. reflexivity.
  - rewrite (FindElement_range_spec gp funky _ IH 0), <- imap_below_0. reflexivity.
Qed.

Lemma chain_child_cons i q : chain_child (i :: q) = map (cons i) (chain_child q) ++ [[i]].
Proof.
  unfold chain_child. cbn [length].
  change (seq 1 (S (length q))) with (1%nat :: seq 2 (length q)).
  rewrite <- (seq_shift (length q) 1). cbn [rev].
  rewrite map_app, <- map_rev, !map_map. reflexivity.
Qed.

Lemma FindType_unfold gp g t :
  FindType gp g t = FindType_range gp t 0 (Group_Children g) [].
Proof.
  destruct g as [i e p v n o pa tf po r ph rf s ch].
  cbn [FindType Group_Children].
  match goal with |- ?F 0%nat ch [] = _ =>
    assert (E : forall cs k loc, F k cs loc = FindType_range gp t k cs loc) end.
  { induction cs as [|c cs IH]; intros k loc; [reflexivity|].
    cbn [FindType_range]. destruct (Child_IsGroup c).
    - destruct (FindType (gp ++ [k]) (Child_Group c) t) as [[] loc']; [reflexivity|apply IH].
    - destruct (String.eqb _ _); [reflexivity|apply IH]. }
  apply E.
Qed.

Lemma find_below_type t i (l : list (ChildPtr * Child)) :
  find (type_matches t) (below i l)
  = (fun x : ChildPtr * Child => (i :: x.1, x.2)) <$> find (type_matches t) l.
Proof.
  induction l as [|x l IH]; [reflexivity|]. cbn [below map find].
  unfold type_matches at 1 3. cbn [snd]. destruct (String.eqb _ _); [reflexivity|apply IH].
Qed.

Lemma child_leaves_eq c :
  child_leaves c = if Child_IsGroup c then leaf_list (Child_Group c) else [([], c)].
Proof. destruct c as [p g t [] it]; reflexivity. Qed.

Lemma FindType_range_spec gp t cs :
  Forall (fun c => forall gp', FindType gp' (Child_Group c) t
                               = FindType_spec gp' t (leaf_list (Child_Group c))) cs ->
  forall i,
    FindType_range gp t i cs [] =
    FindType_spec gp t (concat (imap (fun j => below (i + j)) (map child_leaves cs))).
Proof.
  induction 1 as [|c cs Hc _ IH]; intros i; [reflexivity|].
  cbn [FindType_range map]. rewrite imap_cons. cbn [concat].
  unfold FindType_spec at 1. rewrite find_app', Nat.add_0_r, find_below_type.
  rewrite child_leaves_eq, imap_below_S.
  destruct (Child_IsGroup c).
  - rewrite Hc. unfold FindType_spec at 1.
    destruct (find (type_matches t) (leaf_list (Child_Group c))) as [[q m]|].
    + cbn [fmap option_fmap option_map fst snd]. rewrite chain_child_cons, map_app, map_map.
      cbn [map]. f_equal. f_equal. apply map_ext. intros a.
      rewrite <- app_assoc. reflexivity.
    + cbn [fmap option_fmap option_map]. apply IH.
  - cbn [find]. unfold type_matches at 1. cbn [snd].
    destruct (String.eqb (Path_Type (Child_Path c)) t).
    + reflexivity.
    + apply IH.
Qed.

Lemma FindType_leaf_list gp g t :
  FindType gp g t = FindType_spec gp t (leaf_list g).
Proof.
  revert gp. induction g as [g IH] using Group_ind'. intros gp.
  rewrite FindType_unfold. unfold leaf_list. rewrite imap_below_0.
  apply (FindType_range_spec gp t _ IH 0).
Qed.

Lemma getPaths_unfold gp g :
  getPaths gp g = getPaths_range gp 0 (Group_Children g) [].
Proof.
  destruct g as [i e p v n o pa tf po r ph rf s ch].
  cbn [getPaths Group_Children].
  match goal with |- ?F 0%nat ch [] = _ =>
    assert (E : forall cs k l, F k cs l = getPaths_range gp k cs l) end.
  { induction cs as [|c cs IH]; intros k l; [reflexivity|].
    cbn [getPaths_range]. destruct (Child_IsGroup c); apply IH. }
  apply E.
Qed.

Lemma getPaths_range_spec gp cs :
  Forall (fun c => forall gp', getPaths gp' (Child_Group c)
                               = map (fun x => gp' ++ x.1) (leaf_list (Child_Group c))) cs ->
  forall i paths,
    getPaths_range gp i cs paths =
    paths ++ map (fun x => gp ++ x.1)
               (concat (imap (fun j => below (i + j)) (map child_leaves cs))).
Proof.
  induction 1 as [|c cs Hc _ IH]; intros i paths; [cbn; rewrite app_nil_r; reflexivity|].
  cbn [getPaths_range map]. rewrite imap_cons. cbn [concat].
  rewrite Nat.add_0_r, child_leaves_eq, imap_below_S, map_app.
  destruct (Child_IsGroup c).
  - rewrite IH, Hc, <- app_assoc. f_equal. f_equal.
    unfold below. rewrite map_map. apply map_ext. intros x. cbn.
    rewrite <- app_assoc. reflexivity.
  - rewrite IH, <- app_assoc. reflexivity.
Qed.

Lemma getPaths_leaf_list gp g :
  getPaths gp g = map (fun x => gp ++ x.1) (leaf_list g).
Proof.
  revert gp. induction g as [g IH] using Group_ind'. intros gp.
  rewrite getPaths_unfold. unfold leaf_list. rewrite imap_below_0.
  apply (getPaths_range_spec gp _ IH 0 []).
Qed.

(** The listings hold what [groups_preorder] and [leaves_preorder] list. *)
Lemma snd_concat_below {A} (ls : list (list (list nat * A))) : forall k,
  map snd (concat (imap (fun j => below (k + j)) ls)) = concat (map (map snd) ls).
Proof.
  induction ls as [|l ls IH]; intros k; [reflexivity|].
  rewrite imap_cons. cbn [concat map]. rewrite map_app, imap_below_S, IH.
  f_equal. unfold below. rewrite map_map. reflexivity.
Qed.

Lemma concat_map_Forall {A B} (f g : A -> list B) (l : list A) :
  Forall (fun x => f x = g x) l -> concat (map f l) = flat_map g l.
Proof.
  induction 1 as [|x l Hx _ IH]; [reflexivity|].
  cbn [map concat flat_map]. rewrite Hx, IH. reflexivity.
Qed.

Lemma child_leaves_snd c : map snd (child_leaves c) = leaves_preorder c.
Proof.
  induction c as [c IH] using Child_ind'.
  destruct c as [p g t ig it]. destruct ig; [|reflexivity].
  cbn [child_leaves leaves_preorder Child_IsGroup Child_Group] in *.
  rewrite imap_below_0, snd_concat_below, map_map.
  apply concat_map_Forall, IH.
Qed.

Lemma leaf_list_snd g : map snd (leaf_list g) = flat_map leaves_preorder (Group_Children g).
Proof.
  unfold leaf_list. rewrite imap_below_0, snd_concat_below, map_map.
  induction (Group_Children g) as [|c cs IH]; [reflexivity|].
  cbn [map concat flat_map]. rewrite child_leaves_snd, IH. reflexivity.
Qed.

Lemma child_groups_snd c : map snd (child_groups c) = groups_preorder c.
Proof.
  induction c as [c IH] using Child_ind'.
  destruct c as [p g t ig it]. destruct ig; [|reflexivity].
  cbn [child_groups groups_preorder Child_IsGroup Child_Group map snd] in *.
  f_equal. rewrite imap_below_0, snd_concat_below, map_map.
  apply concat_map_Forall, IH.
Qed.

Lemma group_list_snd g :
  map snd (group_list g) = g :: flat_map groups_preorder (Group_Children g).
Proof.
  unfold group_list. cbn [map snd]. f_equal.
  rewrite imap_below_0, snd_concat_below, map_map.
  apply concat_map_Forall, Forall_forall. intros c _. apply child_groups_snd.
Qed.

Lemma elem_of_concat_below {A} (ls : list (list (list nat * A))) : forall k x,
  x ∈ concat (imap (fun j => below (k + j)) ls) <->
  exists j l q, ls !! j = Some l /\ (q, x.2) ∈ l /\ x.1 = (k + j)%nat :: q.
Proof.
  induction ls as [|l ls IH]; intros k [p a]; cbn [fst snd].
  - cbn. split; [intros H; inversion H|intros (j & l & q & H & _); discriminate].
  - rewrite imap_cons. cbn [concat]. rewrite elem_of_app, imap_below_S, IH.
    cbn [fst snd]. rewrite Nat.add_0_r. split.
    + intros [H|(j & l' & q & H1 & H2 & H3)].
      * unfold below in H. apply list_elem_of_fmap in H. destruct H as ([q b] & E & H).
        cbn in E. injection E as -> ->.
        exists 0%nat, l, q. rewrite Nat.add_0_r. auto.
      * exists (S j), l', q. cbn. replace (k + S j)%nat with (S k + j)%nat by lia. auto.
    + intros (j & l' & q & H1 & H2 & ->). destruct j as [|j].
      * left. cbn in H1. injection H1 as <-. unfold below. apply list_elem_of_fmap.
        exists (q, a). rewrite Nat.add_0_r. auto.
      * right. exists j, l', q. replace (S k + j)%nat with (k + S j)%nat by lia. auto.
Qed.

Lemma elem_of_child_list {A} (f : Child -> list (list nat * A)) cs (x : list nat * A) :
  x ∈ concat (imap below (map f cs)) <->
  exists j c q, cs !! j = Some c /\ (q, x.2) ∈ f c /\ x.1 = j :: q.
Proof.
  rewrite imap_below_0, elem_of_concat_below. split.
  - intros (j & l & q & H1 & H2 & H3). rewrite list_lookup_fmap in H1.
    destruct (cs !! j) as [c|] eqn:E; [|discriminate]. injection H1 as <-.
    exists j, c, q. auto.
  - intros (j & c & q & H1 & H2 & H3). exists j, (f c), q.
    rewrite list_lookup_fmap, H1. auto.
Qed.

Lemma deref_cons g i q c :
  Group_Children g !! i = Some c -> deref g (i :: q) = deref (Child_Group c) q.
Proof. intros E. cbn. rewrite E. reflexivity. Qed.

Lemma group_list_deref g : Forall (fun x => deref g x.1 = Some x.2) (group_list g).
Proof.
  induction g as [g IH] using Group_ind'. unfold group_list.
  constructor; [reflexivity|]. apply Forall_forall. intros [p m] H.
  apply elem_of_child_list in H. cbn [fst snd] in H.
  destruct H as (j & c & q & E & H & ->). cbn [fst snd] in *.
  rewrite (deref_cons _ _ _ _ E), group_list_child in *.
  destruct (Child_IsGroup c); [|inversion H].
  rewrite Forall_forall in IH. specialize (IH c (list_elem_of_lookup_2 _ _ _ E)).
  rewrite Forall_forall in IH. exact (IH (q, m) H).
Qed.

Lemma group_list_post_child c :
  child_groups_post c = if Child_IsGroup c then group_list_post (Child_Group c) else [].
Proof. destruct c as [p g t [] it]; reflexivity. Qed.

Lemma group_list_post_deref g : Forall (fun x => deref g x.1 = Some x.2) (group_list_post g).
Proof.
  induction g as [g IH] using Group_ind'. unfold group_list_post.
  apply Forall_app. split; [|constructor; [reflexivity|constructor]].
  apply Forall_forall. intros [p m] H.
  apply elem_of_child_list in H. cbn [fst snd] in H.
  destruct H as (j & c & q & E & H & ->). cbn [fst snd] in *.
  rewrite (deref_cons _ _ _ _ E), group_list_post_child in *.
  destruct (Child_IsGroup c); [|inversion H].
  rewrite Forall_forall in IH. specialize (IH c (list_elem_of_lookup_2 _ _ _ E)).
  rewrite Forall_forall in IH. exact (IH (q, m) H).
Qed.

Lemma deref_child_cons g i q c :
  Group_Children g !! i = Some c -> q <> [] ->
  deref_child g (i :: q) = deref_child (Child_Group c) q.
Proof. intros E N. cbn. rewrite E. destruct q; [congruence|reflexivity]. Qed.

Lemma leaf_list_nonempty g : Forall (fun x => x.1 <> []) (leaf_list g).
Proof.
  apply Forall_forall. intros [p m] H. unfold leaf_list in H.
  apply elem_of_child_list in H. cbn [fst snd] in H.
  destruct H as (j & c & q & _ & _ & ->). discriminate.
Qed.

Lemma leaf_list_deref g :
  Forall (fun x => deref_child g x.1 = Some x.2 /\ Child_IsGroup x.2 = false) (leaf_list g).
Proof.
  induction g as [g IH] using Group_ind'. unfold leaf_list.
  apply Forall_forall. intros [p m] H.
  apply elem_of_child_list in H. cbn [fst snd] in H.
  destruct H as (j & c & q & E & H & ->). cbn [fst snd] in *.
  rewrite child_leaves_eq in H. destruct (Child_IsGroup c) eqn:G.
  - rewrite Forall_forall in IH. specialize (IH c (list_elem_of_lookup_2 _ _ _ E)).
    pose proof (leaf_list_nonempty (Child_Group c)) as NE.
    rewrite Forall_forall in IH, NE. specialize (IH _ H). specialize (NE _ H).
    cbn [fst snd] in *. rewrite (deref_child_cons _ _ _ _ E NE). exact IH.
  - apply list_elem_of_singleton in H. injection H as -> ->.
    cbn. rewrite E. auto.
Qed.

(** Pointers are listed once. *)
Lemma NoDup_concat_below {A} (ls : list (list (list nat * A))) : forall k,
  Forall (fun l => NoDup (map fst l)) ls ->
  NoDup (map fst (concat (imap (fun j => below (k + j)) ls))).
Proof.
  induction ls as [|l ls IH]; intros k H; [constructor|].
  inversion H as [|? ? Hl Hls]; subst.
  rewrite imap_cons. cbn [concat]. rewrite map_app, imap_below_S.
  apply NoDup_app. split; [|split].
  - unfold below. rewrite map_map. cbn. rewrite Nat.add_0_r.
    rewrite <- (map_map fst (cons k)). apply (NoDup_fmap_2 (cons k)), Hl.
  - intros p H1 H2. unfold below in H1.
    apply list_elem_of_fmap in H1. destruct H1 as (x1 & -> & H1).
    apply list_elem_of_fmap in H1. destruct H1 as (x0 & -> & H1).
    apply list_elem_of_fmap in H2. destruct H2 as (x2 & E & H2).
    apply elem_of_concat_below in H2. destruct H2 as (j & l' & q & _ & _ & E').
    cbn in E. rewrite E' in E. injection E as E _. lia.
  - apply IH, Hls.
Qed.

Lemma group_list_NoDup g : NoDup (map fst (group_list g)).
Proof.
  induction g as [g IH] using Group_ind'. unfold group_list.
  cbn [map fst]. apply NoDup_cons. split.
  - intros H. apply list_elem_of_fmap in H. destruct H as (x & E & H).
    apply elem_of_child_list in H. destruct H as (j & c & q & _ & _ & E').
    destruct x as [px mx]. cbn in E, E'. subst px. discriminate.
  - rewrite imap_below_0. apply NoDup_concat_below.
    apply Forall_fmap, Forall_forall. intros c Hc. cbn. rewrite group_list_child.
    destruct (Child_IsGroup c); [|constructor].
    rewrite Forall_forall in IH. apply IH, Hc.
Qed.

Lemma leaf_list_NoDup g : NoDup (map fst (leaf_list g)).
Proof.
  induction g as [g IH] using Group_ind'. unfold leaf_list.
  rewrite imap_below_0. apply NoDup_concat_below.
  apply Forall_fmap, Forall_forall. intros c Hc. cbn. rewrite child_leaves_eq.
  destruct (Child_IsGroup c); [|repeat constructor; intros H; inversion H].
  rewrite Forall_forall in IH. apply IH, Hc.
Qed.

(** Post-order and pre-order list the same groups. *)
Lemma concat_below_Permutation {A} (ls ls' : list (list (list nat * A))) :
  Forall2 Permutation ls ls' ->
  forall k, concat (imap (fun j => below (k + j)) ls)
            ≡ₚ concat (imap (fun j => below (k + j)) ls').
Proof.
  induction 1 as [|l l' ls ls' Hl _ IH]; intros k; [reflexivity|].
  rewrite !imap_cons. cbn [concat]. rewrite !imap_below_S.
  apply Permutation_app; [|apply IH]. unfold below. apply Permutation_map, Hl.
Qed.

Lemma child_groups_Permutation c : child_groups_post c ≡ₚ child_groups c.
Proof.
  induction c as [c IH] using Child_ind'.
  destruct c as [p g t ig it]. destruct ig; [|reflexivity].
  cbn [child_groups child_groups_post Child_IsGroup Child_Group] in *.
  rewrite Permutation_app_comm. cbn [app]. apply Permutation_cons; [reflexivity|].
  rewrite !imap_below_0. apply concat_below_Permutation.
  apply Forall2_fmap, Forall_Forall2_diag, IH.
Qed.

Lemma group_list_Permutation g : group_list_post g ≡ₚ group_list g.
Proof.
  unfold group_list, group_list_post.
  rewrite Permutation_app_comm. cbn [app]. apply Permutation_cons; [reflexivity|].
  rewrite !imap_below_0. apply concat_below_Permutation.
  apply Forall2_fmap, Forall_Forall2_diag, Forall_forall. intros c _.
  apply child_groups_Permutation.
Qed.

(** [GetGroups] *)
Lemma GetGroups_unfold gp g :
  GetGroups gp g = GetGroups_range gp 0 (Group_Children g) [] ++ [gp].
Proof.
  destruct g as [i e p v n o pa tf po r ph rf s ch].
  cbn [GetGroups Group_Children]. f_equal.
  match goal with |- ?F 0%nat ch [] = _ =>
    assert (E : forall cs k l, F k cs l = GetGroups_range gp k cs l) end.
  { induction cs as [|c cs IH]; intros k l; [reflexivity|].
    cbn [GetGroups_range]. destruct (negb (Child_IsGroup c)); apply IH. }
  apply E.
Qed.

Lemma GetGroups_range_spec gp cs :
  Forall (fun c => forall gp', GetGroups gp' (Child_Group c)
                               = map (fun x => gp' ++ x.1) (group_list_post (Child_Group c))) cs ->
  forall i groups,
    GetGroups_range gp i cs groups =
    groups ++ map (fun x => gp ++ x.1)
                (concat (imap (fun j => below (i + j)) (map child_groups_post cs))).
Proof.
  induction 1 as [|c cs Hc _ IH]; intros i groups; [cbn; rewrite app_nil_r; reflexivity|].
  cbn [GetGroups_range map]. rewrite imap_cons. cbn [concat].
  rewrite Nat.add_0_r, group_list_post_child, imap_below_S, map_app.
  destruct (Child_IsGroup c); cbn [negb].
  - rewrite IH, Hc, <- app_assoc. f_equal. f_equal.
    unfold below. rewrite map_map. apply map_ext. intros x. cbn.
    rewrite <- app_assoc. reflexivity.
  - rewrite IH. reflexivity.
Qed.

Lemma GetGroups_post gp g :
  GetGroups gp g = map (fun x => gp ++ x.1) (group_list_post g).
Proof.
  revert gp. induction g as [g IH] using Group_ind'. intros gp.
  rewrite GetGroups_unfold. unfold group_list_post. rewrite imap_below_0.
  rewrite (GetGroups_range_spec gp _ IH 0 []), map_app. cbn. rewrite app_nil_r. reflexivity.
Qed.

Lemma post_ordered_below (i : nat) (l : list GroupPtr) :
  post_ordered l -> post_ordered (map (cons i) l).
Proof.
  intros H l1 p l2 E.
  apply fmap_app_inv in E. destruct E as (k1 & k2 & -> & E1 & E2).
  symmetry in E1. apply fmap_cons_inv in E1. destruct E1 as (p' & k3 & -> & -> & ->).
  specialize (H _ _ _ E2). apply Forall_fmap.
  eapply Forall_impl; [exact H|]. intros q N [k E]. apply N. exists k.
  cbn in E. congruence.
Qed.

Lemma post_ordered_app (l l' : list GroupPtr) :
  post_ordered l -> post_ordered l' ->
  (forall p q, p ∈ l -> q ∈ l' -> ~ p `prefix_of` q) ->
  post_ordered (l ++ l').
Proof.
  intros H H' D l1 p l2 E.
  apply app_eq_inv in E. destruct E as [(k & -> & E)|(k & -> & E)].
  - destruct k as [|p' k].
    + cbn in E. rewrite app_nil_r in *. subst l'. exact (H' [] p l2 eq_refl).
    + cbn in E. injection E as <- ->. apply Forall_app. split.
      * exact (H l1 p k eq_refl).
      * apply Forall_forall. intros q Hq. apply D; [|exact Hq].
        apply elem_of_app. right. left.
  - exact (H' k p l2 E).
Qed.

Lemma post_ordered_concat_below {A} (ls : list (list (list nat * A))) : forall k,
  Forall (fun l => post_ordered (map fst l)) ls ->
  post_ordered (map fst (concat (imap (fun j => below (k + j)) ls))).
Proof.
  induction ls as [|l ls IH]; intros k H.
  - intros l1 p l2 E. destruct l1; discriminate.
  - inversion H as [|? ? Hl Hls]; subst.
    rewrite imap_cons. cbn [concat]. rewrite map_app, imap_below_S.
    apply post_ordered_app.
    + unfold below. rewrite map_map. cbn. rewrite Nat.add_0_r.
      rewrite <- (map_map fst (cons k)). apply post_ordered_below, Hl.
    + apply IH, Hls.
    + intros p q H1 H2 [r E]. unfold below in H1.
      apply list_elem_of_fmap in H1. destruct H1 as (x1 & -> & H1).
      apply list_elem_of_fmap in H1. destruct H1 as (x0 & -> & H1).
      apply list_elem_of_fmap in H2. destruct H2 as (x2 & -> & H2).
      apply elem_of_concat_below in H2. destruct H2 as (j & l' & q & _ & _ & E').
      destruct x2 as [p2 m2], x0 as [p0 m0]. cbn in E, E'. subst p2.
      injection E as E _. lia.
Qed.

Lemma group_list_post_ordered g : post_ordered (map fst (group_list_post g)).
Proof.
  induction g as [g IH] using Group_ind'. unfold group_list_post.
  rewrite map_app. apply post_ordered_app.
  - rewrite imap_below_0. apply post_ordered_concat_below.
    apply Forall_fmap, Forall_forall. intros c Hc. cbn. rewrite group_list_post_child.
    destruct (Child_IsGroup c); [|intros l1 p l2 E; destruct l1; discriminate].
    rewrite Forall_forall in IH. apply IH, Hc.
  - intros l1 p l2 E. destruct l1 as [|? [|]]; try discriminate.
    injection E as _ <-. constructor.
  - intros p q H1 H2 [r E]. apply list_elem_of_fmap in H1. destruct H1 as (x & -> & H1).
    apply elem_of_child_list in H1. destruct H1 as (j & c & q' & _ & _ & E').
    cbn in H2. apply list_elem_of_singleton in H2. subst q.
    destruct x as [px mx]. cbn in E, E'. subst px. discriminate.
Qed.

(** [SearchRadical] *)
Lemma SearchRadical_unfold gp g rad :
  SearchRadical gp g rad =
  add_buckets gp [([], g)] (SearchRadical_range gp 0 (Group_Children g) rad).
Proof.
  destruct g as [i e p v n o pa tf po r ph rf s ch].
  cbn [SearchRadical Group_Radical Group_Children].
  match goal with |- context [?F 0%nat ch rad] =>
    is_fix F; assert (E : forall cs k x, F k cs x = SearchRadical_range gp k cs x) end.
  { induction cs as [|c cs IH]; intros k x; [reflexivity|].
    cbn [SearchRadical_range]. destruct (negb (Child_IsGroup c)); apply IH. }
  rewrite E. generalize (SearchRadical_range gp 0 ch rad) as R. intros [G T N J].
  unfold add_buckets, bucket. cbn [List.filter snd fst Group_Radical Radical_General
    Radical_Tradit Radical_Nelson Radical_JIS].
  destruct r as [|a r]; [cbn; rewrite !app_nil_r; reflexivity|].
  cbn [String.length Nat.eqb].
  destruct (String.eqb_spec (String a r) "general") as [->|N1];
    [cbn; rewrite !app_nil_r; reflexivity|].
  destruct (String.eqb_spec (String a r) "nelson") as [->|N2];
    [cbn; rewrite !app_nil_r; reflexivity|].
  destruct (String.eqb_spec (String a r) "jis") as [->|N3];
    [cbn; rewrite !app_nil_r; reflexivity|].
  destruct (String.eqb_spec (String a r) "tradit") as [->|N4];
    [cbn; rewrite !app_nil_r; reflexivity|].
  cbn. rewrite !app_nil_r. reflexivity.
Qed.

Lemma bucket_app gp v l l' : bucket gp v (l ++ l') = bucket gp v l ++ bucket gp v l'.
Proof. unfold bucket. rewrite List.filter_app, map_app. reflexivity. Qed.

Lemma add_buckets_app gp l l' rad :
  add_buckets gp (l ++ l') rad = add_buckets gp l' (add_buckets gp l rad).
Proof. unfold add_buckets. cbn. rewrite !bucket_app, !app_assoc. reflexivity. Qed.

Lemma add_buckets_nil gp rad : add_buckets gp [] rad = rad.
Proof. destruct rad. unfold add_buckets, bucket. cbn. rewrite !app_nil_r. reflexivity. Qed.

Lemma bucket_below gp v i l : bucket gp v (below i l) = bucket (gp ++ [i]) v l.
Proof.
  unfold bucket, below. induction l as [|x l IH]; [reflexivity|].
  cbn [map List.filter snd]. destruct (String.eqb _ _); [|exact IH].
  cbn [map fst]. rewrite IH, <- app_assoc. reflexivity.
Qed.

Lemma add_buckets_below gp i l rad :
  add_buckets gp (below i l) rad = add_buckets (gp ++ [i]) l rad.
Proof. unfold add_buckets. rewrite !bucket_below. reflexivity. Qed.

Lemma SearchRadical_range_spec gp cs :
  Forall (fun c => forall gp' rad, SearchRadical gp' (Child_Group c) rad
                    = add_buckets gp' (group_list_post (Child_Group c)) rad) cs ->
  forall i rad,
    SearchRadical_range gp i cs rad =
    add_buckets gp (concat (imap (fun j => below (i + j)) (map child_groups_post cs))) rad.
Proof.
  induction 1 as [|c cs Hc _ IH]; intros i rad; [cbn; rewrite add_buckets_nil; reflexivity|].
  cbn [SearchRadical_range map]. rewrite imap_cons. cbn [concat].
  rewrite Nat.add_0_r, group_list_post_child, imap_below_S, add_buckets_app.
  destruct (Child_IsGroup c); cbn [negb].
  - rewrite IH, Hc, add_buckets_below. reflexivity.
  - rewrite IH. cbn [below map]. rewrite add_buckets_nil. reflexivity.
Qed.

Lemma SearchRadical_post gp g rad :
  SearchRadical gp g rad = add_buckets gp (group_list_post g) rad.
Proof.
  revert gp rad. induction g as [g IH] using Group_ind'. intros gp rad.
  rewrite SearchRadical_unfold. unfold group_list_post. rewrite imap_below_0.
  rewrite (SearchRadical_range_spec gp _ IH 0 rad), add_buckets_app. reflexivity.
Qed.

Lemma filter_deref (P : Group -> bool) g (l : list (GroupPtr * Group)) :
  Forall (fun x => deref g x.1 = Some x.2) l ->
  List.filter (fun p => match deref g p with Some m => P m | None => false end) (map fst l)
  = map fst (List.filter (fun x => P x.2) l).
Proof.
  induction 1 as [|x l Hx _ IH]; [reflexivity|].
  cbn [map List.filter]. rewrite Hx, IH. destruct (P x.2); reflexivity.
Qed.

Lemma Subgroups_unfold gp g :
  Subgroups gp g =
  let elgr := Subgroups_range gp 0 (Group_Children g) ∅ in
  <[Group_Element g := default [] (elgr !! Group_Element g) ++ [gp]]> elgr.
Proof.
  destruct g as [i e p v n o pa tf po r ph rf s ch].
  cbn [Subgroups Group_Element Group_Children].
  match goal with |- context [?F 0%nat ch ∅] =>
    is_fix F; assert (E : forall cs k x, F k cs x = Subgroups_range gp k cs x) end.
  { induction cs as [|c cs IH]; intros k x; [reflexivity|].
    cbn [Subgroups_range]. destruct (negb (Child_IsGroup c)); apply IH. }
  rewrite E. reflexivity.
Qed.

Lemma merge_lookup (elgr celgr : gmap string (list GroupPtr)) k :
  map_fold (fun s gr elgr => <[s := default [] (elgr !! s) ++ gr]> elgr) elgr celgr !! k
  = match celgr !! k with
    | Some gr => Some (default [] (elgr !! k) ++ gr)
    | None => elgr !! k
    end.
Proof.
  revert k.
  apply (map_fold_weak_ind
           (fun (r : gmap string (list GroupPtr)) (m : gmap string (list GroupPtr)) =>
              forall k, r !! k = match m !! k with
                                 | Some gr => Some (default [] (elgr !! k) ++ gr)
                                 | None => elgr !! k
                                 end)).
  - intros k. rewrite lookup_empty. reflexivity.
  - intros s gr m r Hs IH k. destruct (decide (s = k)) as [->|N].
    + rewrite !lookup_insert_eq, IH, Hs. reflexivity.
    + rewrite !lookup_insert_ne by exact N. apply IH.
Qed.

Lemma by_element_app gp v l l' :
  by_element gp v (l ++ l') = by_element gp v l ++ by_element gp v l'.
Proof. unfold by_element. rewrite List.filter_app, map_app. reflexivity. Qed.

Lemma by_element_below gp v i l : by_element gp v (below i l) = by_element (gp ++ [i]) v l.
Proof.
  unfold by_element, below. induction l as [|x l IH]; [reflexivity|].
  cbn [map List.filter snd]. destruct (String.eqb _ _); [|exact IH].
  cbn [map fst]. rewrite IH, <- app_assoc. reflexivity.
Qed.

Lemma default_nonempty {A} (l : list A) : default [] (nonempty l) = l.
Proof. destruct l; reflexivity. Qed.

Lemma nonempty_app_cons {A} (l : list A) x l' : nonempty (l ++ x :: l') = Some (l ++ x :: l').
Proof. destruct l; reflexivity. Qed.

Lemma Subgroups_range_spec gp cs :
  Forall (fun c => forall gp' k, Subgroups gp' (Child_Group c) !! k
                    = nonempty (by_element gp' k (group_list_post (Child_Group c)))) cs ->
  forall i elgr (L : string -> list GroupPtr),
    (forall k, elgr !! k = nonempty (L k)) ->
    forall k,
      Subgroups_range gp i cs elgr !! k =
      nonempty (L k ++ by_element gp k
                         (concat (imap (fun j => below (i + j)) (map child_groups_post cs)))).
Proof.
  induction 1 as [|c cs Hc _ IH]; intros i elgr L HL k.
  - cbn. rewrite app_nil_r. apply HL.
  - cbn [Subgroups_range map]. rewrite imap_cons. cbn [concat].
    rewrite Nat.add_0_r, group_list_post_child, imap_below_S, by_element_app, app_assoc.
    destruct (Child_IsGroup c); cbn [negb].
    + apply (IH (S i) _ (fun k => L k ++ by_element gp k (below i (group_list_post (Child_Group c))))).
      intros k'. rewrite merge_lookup, Hc, HL, default_nonempty, by_element_below.
      destruct (by_element (gp ++ [i]) k' (group_list_post (Child_Group c))) as [|x l'].
      * cbn. rewrite app_nil_r. reflexivity.
      * cbn [nonempty]. rewrite nonempty_app_cons. reflexivity.
    + apply (IH (S i) _ (fun k => L k ++ by_element gp k (below i []))).
      intros k'. cbn. rewrite app_nil_r. apply HL.
Qed.

Lemma Subgroups_post gp g k :
  Subgroups gp g !! k = nonempty (by_element gp k (group_list_post g)).
Proof.
  revert gp k. induction g as [g IH] using Group_ind'. intros gp k.
  rewrite Subgroups_unfold. cbn zeta. unfold group_list_post.
  rewrite by_element_app, imap_below_0.
  pose proof (Subgroups_range_spec gp _ IH 0 ∅ (fun _ => [])
                ltac:(intros; apply lookup_empty)) as R. cbn [app] in R.
  unfold by_element at 2. cbn [List.filter snd fst map].
  destruct (decide (Group_Element g = k)) as [->|N].
  - rewrite lookup_insert_eq, R, default_nonempty, String.eqb_refl. cbn [map].
    rewrite nonempty_app_cons, app_nil_r. reflexivity.
  - rewrite lookup_insert_ne by exact N. rewrite R.
    destruct (String.eqb_spec (Group_Element g) k); [contradiction|].
    cbn. rewrite app_nil_r. reflexivity.
Qed.

Lemma map_app_nil {A} (l : list (list nat * A)) : map (fun x => [] ++ x.1) l = map fst l.
Proof. apply map_ext. reflexivity. Qed.

Lemma map_app_nil' (l : list (list nat)) : map (app []) l = l.
Proof. rewrite <- (map_id l) at 2. apply map_ext. reflexivity. Qed.

Lemma Forall2_fst_snd {A B} (R : A -> B -> Prop) (l : list (A * B)) :
  Forall (fun x => R x.1 x.2) l -> Forall2 R (map fst l) (map snd l).
Proof. induction 1; constructor; assumption. Qed.

(** X1 ([FindElement]).  With [group_list g] the groups of the tree of
    [g] in document order, [g] first, each with the pointer that leads to
    it: [FindElement] finds the first of them whose [kvg:element] is
    [funky] and returns it followed by the groups it lies in, from the
    innermost out to [g]; when there is none it returns [false] and a nil
    slice. *)
Theorem X1_FindElement_first_match g funky :
  map snd (group_list g) = g :: flat_map groups_preorder (Group_Children g) /\
  Forall (fun x => deref g x.1 = Some x.2) (group_list g) /\
  FindElement [] g funky =
    match find (element_matches funky) (group_list g) with
    | Some x => (true, chain_up x.1)
    | None => (false, [])
    end.
Proof.
  split; [apply group_list_snd|]. split; [apply group_list_deref|].
  rewrite FindElement_group_list. unfold FindElement_spec.
  destruct (find _ _); [rewrite map_app_nil'|]; reflexivity.
Qed.

(** X2 ([FindType]).  With [leaf_list g] the children below [g] that
    are not groups, in document order, each with its pointer: [FindType]
    finds the first of them whose [Path] has the type [t] and returns it
    followed by the children it lies in, out to a child of [g] ([g] itself
    is not in the chain); when there is none it returns [false] and a nil
    slice.  A text is looked at like a path. *)
Theorem X2_FindType_first_match g t :
  map snd (leaf_list g) = flat_map leaves_preorder (Group_Children g) /\
  Forall (fun x => deref_child g x.1 = Some x.2) (leaf_list g) /\
  FindType [] g t =
    match find (type_matches t) (leaf_list g) with
    | Some x => (true, chain_child x.1)
    | None => (false, [])
    end.
Proof.
  split; [apply leaf_list_snd|]. split.
  - eapply Forall_impl; [apply leaf_list_deref|]. intros x [H _]. exact H.
  - rewrite FindType_leaf_list. unfold FindType_spec.
    destruct (find _ _); [rewrite map_app_nil'|]; reflexivity.
Qed.

Lemma getPaths_deref g :
  Forall2 (fun p l => deref_child g p = Some l)
    (getPaths [] g) (flat_map leaves_preorder (Group_Children g)).
Proof.
  rewrite getPaths_leaf_list, map_app_nil, <- leaf_list_snd.
  apply Forall2_fst_snd. eapply Forall_impl; [apply leaf_list_deref|].
  intros x [H _]. exact H.
Qed.

(** X3 ([getPaths], [Group.GetPaths]).  The pointers returned lead, in
    this order, to the children below [g] that are not groups, in document
    order, texts included; no pointer comes twice. *)
Theorem X3_getPaths_leaves g :
  Forall2 (fun p l => deref_child g p = Some l)
    (getPaths [] g) (flat_map leaves_preorder (Group_Children g)) /\
  NoDup (getPaths [] g).
Proof.
  split; [apply getPaths_deref|].
  rewrite getPaths_leaf_list, map_app_nil. apply leaf_list_NoDup.
Qed.

Lemma Forall2_map_eq {A B C} (f : A -> option C) (h : B -> C) l l' :
  Forall2 (fun a b => f a = Some (h b)) l l' -> map f l = map Some (map h l').
Proof. induction 1 as [|a b l l' H _ IH]; [reflexivity|]. cbn. rewrite H, IH. reflexivity. Qed.

(** X4 ([SVG.GetPaths] after [RenumberXML]).  For a document whose base
    group holds fewer than 2^63 groups and fewer than 2^63 other children,
    the paths that [GetPaths] returns on the document as [RenumberXML]
    leaves it carry the identifiers [-s1], [-s2], ... of the base
    identifier, in this order. *)
Theorem X4_GetPaths_after_RenumberXML kvg g :
  BaseGroup kvg = Return g kvg ->
  Z.of_nat (n_groups (Group_Children g)) < 2 ^ 63 ->
  Z.of_nat (n_leaves (Group_Children g)) < 2 ^ 63 ->
  let kvg' := final_doc (RenumberXML kvg) in
  exists g' paths,
    BaseGroup kvg' = Return g' kvg' /\
    SVG_GetPaths kvg' = Return paths kvg' /\
    map (path_id_at g') paths
    = map Some (s_ids (Group_ID g) 1 (n_leaves (Group_Children g))).
Proof.
  intros B HG HL kvg'.
  pose proof (base_children_RenumberXML kvg g B) as E. fold kvg' in E.
  destruct (renumber_range_numbered (Group_ID g) (Group_Children g) HG HL)
    as (_ & Hs & _ & _). rewrite <- E in Hs.
  unfold base_children in E, Hs.
  assert (B' : exists g', BaseGroup kvg' = Return g' kvg').
  { revert B. subst kvg'. rewrite !BaseGroup_eq, RenumberXML_eq.
    destruct (SVG_Groups kvg) as [|g0 gs]; [discriminate|].
    destruct (Group_Children g0) as [|c0 cs]; [discriminate|]. intros _.
    destruct gs; cbn; eauto. }
  destruct B' as [g' B']. rewrite B' in Hs.
  exists g', (getPaths [] g'). split; [exact B'|]. split.
  - unfold SVG_GetPaths, bind. rewrite B'. reflexivity.
  - rewrite <- Hs. unfold path_id_at. apply Forall2_map_eq.
    eapply Forall2_impl; [apply getPaths_deref|]. cbn. intros p l ->. reflexivity.
Qed.

Lemma X4_GetPaths_after_RenumberXML_witness :
  let kvg' := final_doc (RenumberXML example_doc) in
  exists g' paths,
    BaseGroup kvg' = Return g' kvg' /\
    SVG_GetPaths kvg' = Return paths kvg' /\
    map (path_id_at g') paths
    = [Some "kvg:09999-s1"; Some "kvg:09999-s2"; Some "kvg:09999-s3"; Some "kvg:09999-s4"].
Proof.
  apply (X4_GetPaths_after_RenumberXML example_doc
           (ex_group "kvg:09999" "X" example_children)).
  - reflexivity.
  - vm_compute. reflexivity.
  - vm_compute. reflexivity.
Defined.

(** X5 ([GetGroups]).  With [group_list g] the groups of the tree of
    [g], each with the pointer that leads to it: [GetGroups] returns the
    pointer to every group of the tree exactly once, a group after all the
    groups below it, the receiver last. *)
Theorem X5_GetGroups_postorder g :
  map snd (group_list g) = g :: flat_map groups_preorder (Group_Children g) /\
  Forall (fun x => deref g x.1 = Some x.2) (group_list g) /\
  GetGroups [] g ≡ₚ map fst (group_list g) /\
  NoDup (GetGroups [] g) /\
  last (GetGroups [] g) = Some [] /\
  post_ordered (GetGroups [] g) /\
  length (GetGroups [] g) = S (n_groups (Group_Children g)).
Proof.
  split; [apply group_list_snd|]. split; [apply group_list_deref|].
  rewrite GetGroups_post, map_app_nil.
  assert (P : map fst (group_list_post g) ≡ₚ map fst (group_list g))
    by (apply Permutation_map, group_list_Permutation).
  split; [exact P|]. split; [rewrite P; apply group_list_NoDup|]. split; [|split].
  - unfold group_list_post. rewrite map_app. apply last_snoc.
  - apply group_list_post_ordered.
  - rewrite P, length_map, <- (length_map snd), group_list_snd. reflexivity.
Qed.

(** X6 ([SearchRadical]).  Each of the four slices of the [Radical]
    grows by the groups of the tree whose [kvg:radical] is its name, in
    the order of [GetGroups]; what the slices held before stays in
    front. *)
Theorem X6_SearchRadical_buckets g rad :
  let r := SearchRadical [] g rad in
  Radical_General r
  = Radical_General rad ++ List.filter (radical_is g "general") (GetGroups [] g) /\
  Radical_Tradit r
  = Radical_Tradit rad ++ List.filter (radical_is g "tradit") (GetGroups [] g) /\
  Radical_Nelson r
  = Radical_Nelson rad ++ List.filter (radical_is g "nelson") (GetGroups [] g) /\
  Radical_JIS r
  = Radical_JIS rad ++ List.filter (radical_is g "jis") (GetGroups [] g).
Proof.
  cbn zeta. rewrite SearchRadical_post, GetGroups_post, map_app_nil.
  unfold add_buckets, bucket, radical_is. cbn [Radical_General Radical_Tradit
    Radical_Nelson Radical_JIS].
  rewrite !(filter_deref (fun m => String.eqb (Group_Radical m) _) g _
              (group_list_post_deref g)), !map_app_nil.
  repeat split.
Qed.

(** X7 ([Subgroups]).  The map returned holds, under each element, the
    groups of the tree with that [kvg:element] in the order of
    [GetGroups], and no key for an element that no group has. *)
Theorem X7_Subgroups_by_element g el :
  Subgroups [] g !! el = nonempty (List.filter (element_is g el) (GetGroups [] g)).
Proof.
  rewrite Subgroups_post, GetGroups_post, map_app_nil. unfold by_element, element_is.
  pose proof (filter_deref (fun m => String.eqb (Group_Element m) el) g _
                (group_list_post_deref g)) as F.
  rewrite map_app_nil. f_equal. symmetry. exact F.
Qed.

(** ** Renumbering, composed *)

Lemma renumber_range_overwrite_aux b1 b2 cs :
  Forall (fun c => forall a b a' b',
            renumber (renumber c b1 a b).1 b2 a' b' = renumber c b2 a' b') cs ->
  forall a b a' b', renumber_range (renumber_range cs b1 a b).1 b2 a' b'
                    = renumber_range cs b2 a' b'.
Proof.
  induction 1 as [|c cs Hc _ IH]; intros a b a' b'; [reflexivity|].
  cbn [renumber_range]. specialize (Hc a b a' b').
  destruct (renumber c b1 a b) as [c1 [a1 b1']].
  specialize (IH a1 b1'). destruct (renumber_range cs b1 a1 b1') as [cs1 n1].
  cbn [fst renumber_range] in *. rewrite Hc.
  destruct (renumber c b2 a' b') as [c2 [a2 b2']]. rewrite IH. reflexivity.
Qed.

Lemma renumber_overwrite b1 b2 c a b a' b' :
  renumber (renumber c b1 a b).1 b2 a' b' = renumber c b2 a' b'.
Proof.
  revert a b a' b'. induction c as [c IH] using Child_ind'. intros a b a' b'.
  pose proof (renumber_range_overwrite_aux b1 b2 _ IH) as R. clear IH.
  rewrite (renumber_unfold c b1), (renumber_unfold c b2).
  destruct c as [p g t ig it]. cbn [Child_IsGroup Child_Group Child_Path] in *.
  destruct ig; [|reflexivity].
  cbn zeta. specialize (R a (incr64 b) a' (incr64 b')).
  destruct (renumber_range (Group_Children g) b1 a (incr64 b)) as [cs' n'].
  rewrite renumber_unfold. destruct g. cbn in *. rewrite R. reflexivity.
Qed.

Lemma renumber_range_overwrite b1 b2 cs a b a' b' :
  renumber_range (renumber_range cs b1 a b).1 b2 a' b' = renumber_range cs b2 a' b'.
Proof.
  apply renumber_range_overwrite_aux. apply Forall_forall. intros c _ ? ? ? ?.
  apply renumber_overwrite.
Qed.

Lemma SetBase_prefix_eq base kvg :
  String.prefix "kvg:" base = true ->
  SetBase base kvg =
  match SVG_Groups kvg with
  | [] => Panic (IndexOutOfRange 0 0) kvg
  | g0 :: gs =>
      match Group_Children g0 with
      | [] => Panic (IndexOutOfRange 0 0) kvg
      | c0 :: cs =>
          let tail := default "" (str_drop 4 base) in
          Return tt
            (set_SVG_Groups
               (set_Group_ID ("kvg:StrokePaths_" +:+ tail)
                  (set_Group_Children
                     (walk_base base (at_Child_Group (set_Group_ID base) c0) :: cs) g0)
                :: match gs with
                   | [] => []
                   | g1 :: gs' => set_Group_ID ("kvg:StrokeNumbers_" +:+ tail) g1 :: gs'
                   end) kvg)
      end
  end.
Proof.
  intros P. rewrite SetBase_eq.
  destruct (str_take_Some 4 base (prefix_length _ _ P)) as [h E]. rewrite E.
  rewrite (str_take_prefix "kvg:" base h E), P. reflexivity.
Qed.

Lemma str_drop_Some n : forall s,
  (n <= String.length s)%nat -> exists t, str_drop n s = Some t.
Proof.
  induction n as [|n IH]; intros s L; [eexists; reflexivity|].
  destruct s as [|a s]; cbn in L; [lia|]. apply IH. lia.
Qed.

Lemma remove_first_kvg_prefix base :
  String.prefix "kvg:" base = true ->
  remove_first_kvg base = default "" (str_drop 4 base).
Proof.
  intros P. destruct (str_drop_Some 4 base (prefix_length _ _ P)) as [t E].
  destruct base as [|a s]; [discriminate|].
  cbn [remove_first_kvg]. rewrite P, E. reflexivity.
Qed.

Lemma prefix_split p : forall s,
  String.prefix p s = true ->
  s = p +:+ default "" (str_drop (String.length p) s).
Proof.
  induction p as [|a p IH]; intros s H; [reflexivity|].
  destruct s as [|b s]; [discriminate|]. cbn in H.
  destruct (ascii_dec a b) as [<-|]; [|discriminate].
  cbn [String.length str_drop]. rewrite (IH s H) at 1. reflexivity.
Qed.

Lemma prefix_of_return base kvg kvg' :
  SetBase base kvg = Return tt kvg' -> String.prefix "kvg:" base = true.
Proof.
  rewrite SetBase_eq. destruct (str_take 4 base) as [h|] eqn:E; [|discriminate].
  rewrite (str_take_prefix "kvg:" base h E).
  destruct (String.prefix "kvg:" base); [reflexivity|discriminate].
Qed.

(** X8 ([SetBase] then [Base]).  If [SetBase base] returns, [base]
    starts with [kvg:], [Base] then returns [base] and [base] without its
    [kvg:], and the top-level groups are named [kvg:StrokePaths_] and,
    when there is a second one, [kvg:StrokeNumbers_] followed by that
    rest. *)
Theorem X8_SetBase_then_Base kvg base kvg' :
  SetBase base kvg = Return tt kvg' ->
  let tail := default "" (str_drop 4 base) in
  base = "kvg:" +:+ tail /\
  Base kvg' = Return (base, tail) kvg' /\
  top_id kvg' 0 = Some ("kvg:StrokePaths_" +:+ tail) /\
  (forall g1, SVG_Groups kvg !! 1%nat = Some g1 ->
              top_id kvg' 1 = Some ("kvg:StrokeNumbers_" +:+ tail)).
Proof.
  intros S tail. pose proof (prefix_of_return _ _ _ S) as P.
  rewrite (SetBase_prefix_eq base kvg P) in S.
  destruct (SVG_Groups kvg) as [|g0 gs] eqn:EG; [discriminate|].
  destruct (Group_Children g0) as [|c0 cs] eqn:EC; [discriminate|].
  cbn zeta in S. injection S as <-. fold tail. split; [|split; [|split]].
  - exact (prefix_split "kvg:" base P).
  - unfold Base, bind. rewrite BaseGroup_eq. destruct kvg, g0, c0 as [p1 [] t1 ig1 it1].
    cbn. rewrite (remove_first_kvg_prefix base P). reflexivity.
  - destruct kvg, g0. reflexivity.
  - intros g1 E1. destruct gs as [|g1' gs']; [discriminate|]. destruct kvg, g0, g1'. reflexivity.
Qed.

Lemma X8_SetBase_then_Base_witness :
  let kvg' := final_doc (SetBase "kvg:0abcd" example_doc) in
  Base kvg' = Return ("kvg:0abcd", "0abcd") kvg' /\
  top_id kvg' 0 = Some "kvg:StrokePaths_0abcd" /\
  top_id kvg' 1 = Some "kvg:StrokeNumbers_0abcd".
Proof.
  intros kvg'.
  destruct (X8_SetBase_then_Base example_doc "kvg:0abcd" kvg' eq_refl)
    as (_ & B & T0 & T1).
  split; [exact B|]. split; [exact T0|]. exact (T1 _ eq_refl).
Defined.

(** X9 ([SetBase] twice).  With both bases starting with [kvg:],
    [SetBase b1] followed by [SetBase b2] has the outcome and leaves the
    document of [SetBase b2] alone: nothing of [b1] stays. *)
Theorem X9_SetBase_twice b1 b2 kvg :
  String.prefix "kvg:" b1 = true -> String.prefix "kvg:" b2 = true ->
  (SetBase b1 ;; SetBase b2) kvg = SetBase b2 kvg.
Proof.
  intros P1 P2. unfold bind. rewrite (SetBase_prefix_eq b1 kvg P1).
  destruct kvg as [ns w h vb gs]. destruct gs as [|g0 gs].
  { rewrite (SetBase_prefix_eq b2 _ P2). reflexivity. }
  cbn [SVG_Groups]. destruct g0 as [i0 e0 p0 v0 n0 o0 pa0 tf0 po0 r0 ph0 rf0 s0 ch0].
  cbn [Group_Children]. destruct ch0 as [|c0 cs].
  { rewrite (SetBase_prefix_eq b2 _ P2). reflexivity. }
  cbn zeta. rewrite !(SetBase_prefix_eq b2 _ P2).
  destruct c0 as [p1 g t1 ig1 it1].
  destruct g as [i e p v n o pa tf po r ph rf s ch].
  pose proof (renumber_range_overwrite b1 b2 ch 0 0 0 0) as R.
  destruct gs as [|g1 gs']; [|destruct g1].
  all: fields; cbn; rewrite R; reflexivity.
Qed.

Lemma X9_SetBase_twice_witness :
  (SetBase "kvg:0abcd" ;; SetBase "kvg:09999") example_doc
  = SetBase "kvg:09999" example_doc.
Proof.
  apply (X9_SetBase_twice "kvg:0abcd" "kvg:09999" example_doc); reflexivity.
Defined.

(** X10 ([RenumberXML] after [SetBase]).  After a [SetBase] that
    returned, [RenumberXML] changes no identifier: the document it leaves
    differs from the one it was given by the two top-level styles and the
    labels only, and not at all when the second top-level group is
    missing. *)
Theorem X10_RenumberXML_after_SetBase base kvg kvg1 :
  SetBase base kvg = Return tt kvg1 ->
  final_doc (RenumberXML kvg1) = styles_and_labels kvg1.
Proof.
  intros S. pose proof (prefix_of_return _ _ _ S) as P.
  rewrite (SetBase_prefix_eq base kvg P) in S.
  destruct kvg as [ns w h vb gs]. destruct gs as [|g0 gs]; [discriminate|].
  cbn [SVG_Groups] in S.
  destruct g0 as [i0 e0 p0 v0 n0 o0 pa0 tf0 po0 r0 ph0 rf0 s0 ch0].
  cbn [Group_Children] in S. destruct ch0 as [|c0 cs]; [discriminate|].
  cbn zeta in S. injection S as <-. rewrite RenumberXML_eq.
  destruct c0 as [p1 g t1 ig1 it1].
  destruct g as [i e p v n o pa tf po r ph rf s ch].
  pose proof (renumber_range_idem base ch 0 0) as R.
  destruct gs as [|g1 gs']; [|destruct g1].
  all: unfold styles_and_labels; fields; cbn;
    destruct (renumber_range ch base 0 0) as [ch' n'] eqn:E; cbn [fst] in *;
    rewrite R; reflexivity.
Qed.

Lemma X10_RenumberXML_after_SetBase_witness :
  final_doc (RenumberXML (final_doc (SetBase "kvg:0abcd" example_doc)))
  = styles_and_labels (final_doc (SetBase "kvg:0abcd" example_doc)).
Proof.
  apply (X10_RenumberXML_after_SetBase "kvg:0abcd" example_doc). reflexivity.
Defined.

(** X11 ([RenumberLabels] within [RenumberXML]).  When [RenumberXML]
    returns, the second top-level group has as many children as before;
    its child [i], counted from 0, is unchanged if it is not a text and
    has the content [i+1] in decimal if it is; so when all are texts their
    contents are 1, 2, ..., n. *)
Theorem X11_RenumberXML_labels kvg kvg' :
  RenumberXML kvg = Return tt kvg' ->
  length (labels kvg') = length (labels kvg) /\
  (forall i c, labels kvg !! i = Some c ->
     exists c', labels kvg' !! i = Some c' /\
       (Child_IsText c = false -> c' = c) /\
       (Child_IsText c = true ->
          c' = set_Child_Text (set_Text_Content (fmt_d (Z.of_nat (S i))) (Child_Text c)) c)) /\
  (Forall (fun c => Child_IsText c = true) (labels kvg) ->
   map (fun c => Text_Content (Child_Text c)) (labels kvg')
   = map (fun k => fmt_d (Z.of_nat k)) (seq 1 (length (labels kvg)))).
Proof.
  rewrite RenumberXML_eq.
  destruct (SVG_Groups kvg) as [|g0 [|g1 gs]] eqn:EG; try discriminate;
    destruct (Group_Children g0) as [|c0 cs]; try discriminate.
  cbn zeta. intros [= <-]. unfold labels. rewrite EG. destruct kvg.
  destruct g1 as [i1 e1 p1 v1 n1 o1 pa1 tf1 po1 r1 ph1 rf1 s1 ch1]. cbn.
  split; [apply length_imap|]. split.
  - intros i c E. exists (relabel i c). rewrite list_lookup_imap, E. split; [reflexivity|].
    unfold relabel. rewrite Nat2Z.inj_succ, <- Z.add_1_r.
    split; intros ->; reflexivity.
  - intros T. apply list_eq. intros i.
    change (map ?f ?l) with (f <$> l).
    rewrite !list_lookup_fmap, list_lookup_imap.
    destruct (ch1 !! i) as [c|] eqn:E.
    + rewrite lookup_seq_lt by (apply lookup_lt_Some in E; exact E).
      rewrite Forall_forall in T. specialize (T c (list_elem_of_lookup_2 _ _ _ E)).
      cbn. unfold relabel. rewrite T. cbn. rewrite Nat2Z.inj_succ, <- Z.add_1_r. reflexivity.
    + rewrite lookup_seq_ge by (apply lookup_ge_None in E; exact E). reflexivity.
Qed.

Lemma X11_RenumberXML_labels_witness :
  map (fun c => Text_Content (Child_Text c))
    (labels (final_doc (RenumberXML example_doc))) = ["1"].
Proof.
  destruct (X11_RenumberXML_labels example_doc (final_doc (RenumberXML example_doc))
              eq_refl) as (_ & _ & H).
  apply H. repeat constructor.
Defined.

(** ** Decimal numbers read back *)

Lemma star_none p s : forall i c k,
  (forall j, (j <= length s)%nat -> k (drop j s) (i + j)%nat c = None) ->
  star p s i c k = None.
Proof.
  induction s as [|a s IH]; intros i c k H.
  - cbn. specialize (H 0%nat ltac:(cbn; lia)). rewrite Nat.add_0_r in H. exact H.
  - cbn [star].
    assert (H0 : k (a :: s) i c = None).
    { specialize (H 0%nat ltac:(cbn; lia)). rewrite Nat.add_0_r in H. exact H. }
    rewrite H0. destruct (p a); [|reflexivity].
    rewrite IH; [reflexivity|]. intros j Hj.
    specialize (H (S j) ltac:(cbn; lia)). cbn [drop] in H.
    rewrite <- Nat.add_succ_comm in H. exact H.
Qed.

(** Greedy repetition stops at the longest prefix after which the rest of
    the pattern matches. *)
Lemma star_pick p w : forall rest i c k res,
  Forall (fun a => p a = true) w ->
  k rest (i + length w)%nat c = Some res ->
  (forall j, (0 < j <= length rest)%nat ->
             k (drop j rest) (i + length w + j)%nat c = None) ->
  star p (w ++ rest) i c k = Some res.
Proof.
  induction w as [|a w IH]; intros rest i c k res Hw Hk Hn.
  - cbn [app length] in *. rewrite Nat.add_0_r in *.
    destruct rest as [|b rest]; cbn [star]; [exact Hk|].
    destruct (p b); [|exact Hk].
    rewrite star_none; [exact Hk|]. intros j Hj.
    specialize (Hn (S j) ltac:(cbn; lia)). cbn [drop] in Hn.
    rewrite <- Nat.add_succ_comm in Hn. exact Hn.
  - inversion Hw as [|? ? Pa Hw']; subst. cbn [app star]. rewrite Pa.
    cbn [length] in Hk, Hn. rewrite <- Nat.add_succ_comm in Hk.
    rewrite (IH rest (S i) c k res Hw' Hk); [reflexivity|].
    intros j Hj. specialize (Hn j Hj). rewrite <- Nat.add_succ_comm in Hn. exact Hn.
Qed.

Lemma star_all p w i c k res :
  Forall (fun a => p a = true) w ->
  k [] (i + length w)%nat c = Some res ->
  star p w i c k = Some res.
Proof.
  intros Hw Hk. rewrite <- (app_nil_r w).
  apply star_pick; [exact Hw|exact Hk|]. cbn. intros j Hj. lia.
Qed.

(** Decimal digits *)
Lemma is_digit_val a : is_digit a = true -> exists d, digit_val a = Some d /\ 0 <= d < 10.
Proof.
  unfold is_digit, digit_val. intros H. rewrite H. eexists. split; [reflexivity|].
  unfold in_range in H. change (nat_of_ascii "0") with 48%nat in H.
  change (nat_of_ascii "9") with 57%nat in H.
  apply andb_true_iff in H. destruct H as [H1 H2].
  apply Nat.leb_le in H1, H2. lia.
Qed.

Ltac digit_step :=
  cbn [NilEmpty.string_of_uint list_ascii_of_string parse_digits];
  match goal with
  | |- context [digit_val ?a] =>
      let v := eval vm_compute in (digit_val a) in change (digit_val a) with v
  end; cbv iota;
  match goal with
  | |- context [(?d <? 10)] => change (d <? 10) with true
  end; cbv iota.

Lemma parse_uint_acc d : forall acc : positive,
  parse_digits 10 (Z.pos acc) (list_ascii_of_string (NilEmpty.string_of_uint d))
  = Some (Z.pos (Pos.of_uint_acc d acc)).
Proof.
  induction d as [|d IH|d IH|d IH|d IH|d IH|d IH|d IH|d IH|d IH|d IH]; intros acc;
    [reflexivity|..]; digit_step; cbn [Pos.of_uint_acc];
    rewrite <- IH; f_equal; lia.
Qed.

Lemma parse_uint d :
  parse_digits 10 0 (list_ascii_of_string (NilEmpty.string_of_uint d))
  = Some (Z.of_N (Pos.of_uint d)).
Proof.
  induction d as [|d IH|d IH|d IH|d IH|d IH|d IH|d IH|d IH|d IH|d IH];
    [reflexivity|digit_step; exact IH|..]; digit_step; cbn [Pos.of_uint];
    apply parse_uint_acc.
Qed.

Lemma uint_digits d :
  Forall (fun a => is_digit a = true) (list_ascii_of_string (NilEmpty.string_of_uint d)).
Proof. induction d; cbn; constructor; auto. Qed.

Lemma fmt_d_uint n :
  0 <= n ->
  exists d, d <> Decimal.Nil /\ fmt_d n = NilEmpty.string_of_uint d /\
            Z.of_N (Pos.of_uint d) = n.
Proof.
  intros H. destruct n as [|p|p]; [| |lia].
  - exists (Decimal.D0 Decimal.Nil). repeat split. discriminate.
  - exists (Pos.to_uint p). split; [apply Unsigned.to_uint_nonnil|]. split.
    + unfold fmt_d. cbn [Z.to_int NilZero.string_of_int NilZero.string_of_uint].
      pose proof (Unsigned.to_uint_nonnil p) as N.
      destruct (Pos.to_uint p); [congruence|reflexivity..].
    + rewrite Unsigned.of_to. reflexivity.
Qed.

(** [Sprintf("%d")] and [ParseInt] in base 10 are inverse on what an
    [int64] counter holds. *)
Lemma ParseInt_fmt_d n : 0 <= n < 2 ^ 63 -> ParseInt (fmt_d n) 10 = Some n.
Proof.
  intros [H0 H1]. destruct (fmt_d_uint n H0) as (d & Nd & E & V). rewrite E.
  unfold ParseInt. pose proof (parse_uint d) as P. pose proof (uint_digits d) as D.
  destruct (list_ascii_of_string (NilEmpty.string_of_uint d)) as [|a l] eqn:El.
  - destruct d; cbn in El; congruence.
  - pose proof (List.Forall_inv D) as Da. cbn beta in Da.
    assert (S1 : Ascii.eqb a "+" = false).
    { destruct (Ascii.eqb_spec a "+") as [->|]; [discriminate|reflexivity]. }
    assert (S2 : Ascii.eqb a "-" = false).
    { destruct (Ascii.eqb_spec a "-") as [->|]; [discriminate|reflexivity]. }
    rewrite S1, S2. cbn [orb negb andb]. unfold ParseUint. rewrite P, V.
    destruct (Z.ltb_spec n (2 ^ 64)); [|lia].
    destruct (Z.leb_spec (2 ^ 63) n); [lia|reflexivity].
Qed.

Lemma not_hyphen_eqb a : a <> "-"%char -> Ascii.eqb a "-" = false.
Proof. intros N. destruct (Ascii.eqb_spec a "-"); [contradiction|reflexivity]. Qed.

Lemma digit_not_hyphen a : is_digit a = true -> a <> "-"%char.
Proof. intros H ->. discriminate. Qed.

(** From the end of the five digits on: [.*] takes all of [rest], the
    last place from which [-s] and digits follow. *)
Lemma run_id_tail letter rest d0 ds i c k res :
  letter <> "-"%char ->
  Forall (fun a => dot a = true) rest ->
  Forall (fun a => is_digit a = true) (d0 :: ds) ->
  k [] (i + length rest + 2 + S (length ds))%nat
    (<[2%nat := Some ((i + length rest + 2)%nat,
                      (i + length rest + 2 + S (length ds))%nat)]> c) = Some res ->
  run (id_tail letter) (rest ++ "-"%char :: letter :: d0 :: ds) i c k = Some res.
Proof.
  intros NL Hr Hd Hk. inversion Hd as [|? ? Hd0 Hds]; subst.
  unfold id_tail. cbn [run]. apply star_pick; [exact Hr| |].
  - cbn [run]. change (Ascii.eqb "-" "-") with true. cbv iota.
    rewrite Ascii.eqb_refl, Hd0.
    apply star_all; [exact Hds|].
    replace (S (S (S (i + length rest))) + length ds)%nat
      with (i + length rest + 2 + S (length ds))%nat by lia.
    replace (S (S (i + length rest))) with (i + length rest + 2)%nat by lia.
    exact Hk.
  - intros j Hj. destruct j as [|j]; [lia|]. cbn [drop run].
    assert (F : Forall (fun a => a <> "-"%char) (letter :: d0 :: ds)).
    { constructor; [exact NL|]. eapply Forall_impl; [exact Hd|].
      intros a. apply digit_not_hyphen. }
    apply (Forall_drop _ j) in F.
    destruct (drop j (letter :: d0 :: ds)) as [|a s']; [reflexivity|].
    inversion F as [|? ? Na _]; subst. rewrite (not_hyphen_eqb a Na). reflexivity.
Qed.

Lemma idRe_search letter h rest d0 ds :
  letter <> "-"%char ->
  length h = 5%nat -> Forall (fun x => is_hex x = true) h ->
  Forall (fun a => dot a = true) rest ->
  Forall (fun a => is_digit a = true) (d0 :: ds) ->
  search (idRe letter) (kvg_colon ++ h ++ rest ++ "-"%char :: letter :: d0 :: ds) 0
  = Some [Some (0, 9 + length rest + 2 + S (length ds))%nat;
          Some (4, 9)%nat;
          Some (9 + length rest + 2, 9 + length rest + 2 + S (length ds))%nat].
Proof.
  intros NL Lh Hh Hr Hd.
  assert (M : match_at (idRe letter)
                (kvg_colon ++ h ++ rest ++ "-"%char :: letter :: d0 :: ds) 0
              = Some [Some (0, 9 + length rest + 2 + S (length ds))%nat;
                      Some (4, 9)%nat;
                      Some (9 + length rest + 2, 9 + length rest + 2 + S (length ds))%nat]).
  { unfold match_at, idRe, hexID, kvg_colon.
    destruct h as [|a1 [|a2 [|a3 [|a4 [|a5 [|]]]]]]; try discriminate.
    repeat match goal with H : Forall _ (_ :: _) |- _ =>
      let H1 := fresh "X" in let H2 := fresh "Y" in
      inversion H as [|? ? H1 H2]; subst; clear H end.
    cbn [lit times list_ascii_of_string app ngroups Nat.max replicate].
    cbn [run]. cbn [Ascii.eqb Bool.eqb].
    repeat match goal with H : is_hex _ = true |- _ => rewrite H; clear H end.
    apply run_id_tail; try assumption.
    - constructor; assumption.
    - reflexivity. }
  destruct (kvg_colon ++ h ++ rest ++ "-"%char :: letter :: d0 :: ds);
    cbn [search]; rewrite M; reflexivity.
Qed.

Lemma dot_digit a : is_digit a = true -> dot a = true.
Proof. intros H. unfold dot. destruct (Ascii.eqb_spec a "010") as [->|]; [discriminate|reflexivity]. Qed.

(** X12 ([PathIDToNum], [decimalToNum]).  [PathIDToNum] reads back the
    number the walk wrote: for a base made of [kvg:], five hexadecimal
    digits and anything without a line feed, and [0 <= n < 2^63],
    [PathIDToNum] of the identifier [base-s<n>] returns [n], also when the
    base itself holds [-s] and digits. *)
Theorem X12_PathIDToNum_sprintf_s h rest n :
  hex5 h -> no_newline rest -> 0 <= n < 2 ^ 63 ->
  PathIDToNum (sprintf_s ("kvg:" +:+ h +:+ rest) n) = inr (Returns n).
Proof.
  intros [Lh Hh] Hr Hn.
  destruct (fmt_d_uint n (proj1 Hn)) as (d & Nd & E & _).
  pose proof (uint_digits d) as D. rewrite <- E in D.
  destruct (list_ascii_of_string (fmt_d n)) as [|d0 ds] eqn:El.
  { rewrite E in El. destruct d; cbn in El; congruence. }
  unfold PathIDToNum, FindStringSubmatch, sprintf_s, pathIDRe.
  assert (L : list_ascii_of_string (("kvg:" +:+ h +:+ rest) +:+ "-s" +:+ fmt_d n)
              = kvg_colon ++ list_ascii_of_string h ++ list_ascii_of_string rest
                ++ "-"%char :: "s"%char :: d0 :: ds).
  { rewrite !list_ascii_of_string_app, El, <- !app_assoc. reflexivity. }
  rewrite L.
  rewrite (idRe_search "s" (list_ascii_of_string h) (list_ascii_of_string rest) d0 ds);
    [|discriminate|rewrite length_list_ascii; exact Lh|exact Hh|exact Hr|exact D].
  cbn [default fmap list_fmap map lookup list_lookup].
  pose proof (submatch_at (kvg_colon ++ list_ascii_of_string h ++ list_ascii_of_string rest
                             ++ ["-"%char; "s"%char]) (d0 :: ds) []) as S.
  rewrite app_nil_r, <- !app_assoc in S. cbn [app] in S.
  rewrite !length_app in S. cbn [length kvg_colon list_ascii_of_string] in S.
  rewrite length_list_ascii, Lh in S.
  replace (4 + (5 + (length (list_ascii_of_string rest) + 2)))%nat
    with (9 + length (list_ascii_of_string rest) + 2)%nat in S by lia.
  cbn [kvg_colon list_ascii_of_string app]. cbn [app] in S.
  rewrite S, <- El, string_of_list_ascii_of_string.
  unfold Datatypes.id. cbn [lookup list_lookup].
  unfold decimalToNum. rewrite (ParseInt_fmt_d n Hn). reflexivity.
Qed.

Lemma X12_PathIDToNum_sprintf_s_witness :
  PathIDToNum "kvg:09999-s12" = inr (Returns 12) /\
  PathIDToNum "kvg:09999-s1-s3" = inr (Returns 3).
Proof.
  split.
  - apply (X12_PathIDToNum_sprintf_s "09999" "" 12);
      [split; [reflexivity|repeat constructor]|constructor|lia].
  - apply (X12_PathIDToNum_sprintf_s "09999" "-s1" 3);
      [split; [reflexivity|repeat constructor]|repeat constructor|lia].
Defined.

(** ** Marshalling read back *)

(** *** Strings of XML text *)

Lemma append_String a s t : String a s +:+ t = String a (s +:+ t).
Proof. reflexivity. Qed.

Lemma append_empty_r s : s +:+ "" = s.
Proof. induction s as [|a s IH]; [reflexivity|]. rewrite append_String, IH. reflexivity. Qed.

Lemma append_inv_head u : forall x y, u +:+ x = u +:+ y -> x = y.
Proof.
  induction u as [|a u IH]; intros x y E; [exact E|].
  rewrite !append_String in E. injection E as E. apply IH, E.
Qed.

Lemma append_assoc u v w : (u +:+ v) +:+ w = u +:+ (v +:+ w).
Proof.
  induction u as [|a u IH]; [reflexivity|]. rewrite !append_String, IH. reflexivity.
Qed.

Lemma length_append u v :
  String.length (u +:+ v) = (String.length u + String.length v)%nat.
Proof.
  induction u as [|a u IH]; [reflexivity|].
  rewrite append_String. cbn [String.length]. rewrite IH. reflexivity.
Qed.

(** A string splits after its first [n] bytes. *)
Lemma split_at n : forall s, (n <= String.length s)%nat ->
  exists u v, s = u +:+ v /\ String.length u = n.
Proof.
  induction n as [|n IH]; intros s L.
  - exists "", s. split; reflexivity.
  - destruct s as [|a s]; [cbn in L; lia|]. cbn in L.
    destruct (IH s ltac:(lia)) as (u & v & -> & Hu).
    exists (String a u), v. split; [reflexivity|]. cbn. rewrite Hu. reflexivity.
Qed.

Lemma substring_append u v : substring 0 (String.length u) (u +:+ v) = u.
Proof.
  induction u as [|a u IH]; [destruct v; reflexivity|].
  rewrite append_String. cbn [String.length substring]. rewrite IH. reflexivity.
Qed.

Lemma each_rune_skip esc u : forall v,
  each_rune esc (String.length u) (u +:+ v) = each_rune esc 0 v.
Proof.
  induction u as [|a u IH]; intros v; [reflexivity|].
  rewrite append_String. cbn [String.length each_rune]. apply IH.
Qed.

(** The tables of [DecodeRune] name sizes from 2 to 4. *)
Lemma first_size p0 sz lo hi :
  Utf8.first p0 = Some (sz, lo, hi) -> sz = 2%nat \/ sz = 3%nat \/ sz = 4%nat.
Proof.
  unfold Utf8.first.
  repeat match goal with |- context [if ?b then _ else _] => destruct b end;
    intros [= <- <- <-]; auto.
Qed.

(** The width of a rune: between 1 and 4, and within the string. *)
Lemma DecodeRune_width a s r w :
  Utf8.DecodeRune (String a s) = (r, w) ->
  (1 <= w <= String.length (String a s))%nat.
Proof.
  unfold Utf8.DecodeRune.
  destruct (Utf8.byte a <? 128); [intros [= <- <-]; cbn; lia|].
  destruct (Utf8.first (Utf8.byte a)) as [[[sz lo] hi]|] eqn:F;
    [|intros [= <- <-]; cbn; lia].
  destruct (String.length (String a s) <? sz)%nat eqn:L; [intros [= <- <-]; cbn; lia|].
  apply Nat.ltb_ge in L. apply first_size in F.
  repeat match goal with
         | |- context [if ?b then _ else _] => destruct b eqn:?
         end; intros [= <- <-]; try (cbn; lia);
    repeat match goal with
           | H : (_ <=? _)%nat = _ |- _ =>
               first [apply Nat.leb_le in H | apply Nat.leb_gt in H]
           end; lia.
Qed.

Lemma at_append p t i :
  (i < String.length p)%nat -> Utf8.at_ (p +:+ t) i = Utf8.at_ p i.
Proof. intros L. unfold Utf8.at_. rewrite <- (append_correct1 p t i L). reflexivity. Qed.

(** A rune that is not replaced is decoded from its own bytes. *)
Lemma DecodeRune_append a s t r w :
  Utf8.DecodeRune (String a s) = (r, w) -> replaced r w = false ->
  Utf8.DecodeRune (String a s +:+ t) = (r, w).
Proof.
  rewrite append_String. unfold Utf8.DecodeRune.
  destruct (Utf8.byte a <? 128); [auto|].
  destruct (Utf8.first (Utf8.byte a)) as [[[sz lo] hi]|] eqn:F; [|auto].
  rewrite <- append_String.
  destruct (String.length (String a s) <? sz)%nat eqn:L.
  { intros [= <- <-]. discriminate. }
  apply Nat.ltb_ge in L.
  assert (L' : (String.length (String a s +:+ t) <? sz)%nat = false).
  { apply Nat.ltb_ge. rewrite length_append. lia. }
  rewrite L'. apply first_size in F.
  destruct F as [-> | [-> | ->]]; cbn [Nat.leb];
    rewrite ?(at_append (String a s) t 1), ?(at_append (String a s) t 2),
      ?(at_append (String a s) t 3) by lia; auto.
Qed.

(** One turn of the loop of [each_rune]. *)
Lemma each_rune_step esc s r w u v :
  Utf8.DecodeRune s = (r, w) -> s = u +:+ v -> String.length u = w -> (1 <= w)%nat ->
  each_rune esc 0 s = default u (esc r w) +:+ each_rune esc 0 v.
Proof.
  intros D -> <- L. destruct u as [|a u]; [cbn in L; lia|].
  rewrite append_String, <- append_String. rewrite append_String at 1.
  cbn [each_rune]. rewrite <- append_String, D.
  rewrite substring_append. cbn [String.length]. rewrite Nat.sub_succ, Nat.sub_0_r.
  rewrite each_rune_skip. reflexivity.
Qed.

Lemma xml_text_String a s :
  exists r w u v,
    Utf8.DecodeRune (String a s) = (r, w) /\ String a s = u +:+ v /\
    String.length u = w /\ (1 <= w)%nat /\
    xml_text (String a s) = default u (keep_rune r w) +:+ xml_text v.
Proof.
  destruct (Utf8.DecodeRune (String a s)) as [r w] eqn:D.
  destruct (DecodeRune_width _ _ _ _ D) as [L1 L2].
  destruct (split_at w _ L2) as (u & v & E & Hu).
  exists r, w, u, v. repeat split; try assumption.
  apply (each_rune_step _ _ _ _ _ _ D E Hu L1).
Qed.

(** In XML text no rune is replaced: a string that starts with the bytes
    of U+FFFD starts with a rune that is kept. *)
Lemma xml_text_first a s r w :
  xml_text (String a s) = String a s ->
  Utf8.DecodeRune (String a s) = (r, w) -> replaced r w = false.
Proof.
  intros V D. destruct (xml_text_String a s) as (r' & w' & u & v & D' & E & Hu & L & X).
  rewrite D in D'. injection D' as <- <-.
  destruct (replaced r w) eqn:R; [exfalso|reflexivity].
  unfold keep_rune in X. rewrite R in X.
  change (default u (Some escFFFD)) with escFFFD in X.
  rewrite V in X. unfold escFFFD in X. rewrite !append_String in X.
  rewrite X in D.
  vm_compute in D. injection D as <- <-. vm_compute in R. discriminate.
Qed.

(** XML text in front of a string is carried as it is. *)
Lemma xml_text_append_l a :
  xml_text a = a -> forall b, xml_text (a +:+ b) = a +:+ xml_text b.
Proof.
  remember (String.length a) as n eqn:Hn. revert a Hn.
  induction n as [n IH] using lt_wf_ind. intros a Hn V b.
  destruct a as [|a0 a]; [reflexivity|].
  destruct (xml_text_String a0 a) as (r & w & u & v & D & E & Hu & L & X).
  pose proof (xml_text_first _ _ _ _ V D) as R.
  unfold keep_rune in X. rewrite R in X. change (default u None) with u in X.
  rewrite V in X. rewrite E in X at 1. apply append_inv_head in X.
  assert (Lv : (String.length v < n)%nat).
  { subst n. rewrite E, length_append. lia. }
  pose proof (DecodeRune_append a0 a b r w D R) as D'.
  assert (E' : String a0 a +:+ b = u +:+ (v +:+ b))
    by (rewrite E, append_assoc; reflexivity).
  unfold xml_text at 1.
  rewrite (each_rune_step _ _ _ _ _ _ D' E' Hu L). unfold keep_rune at 1. rewrite R.
  change (default u None) with u.
  fold (xml_text (v +:+ b)). rewrite (IH _ Lv v eq_refl (eq_sym X) b).
  rewrite E, append_assoc. reflexivity.
Qed.

Lemma is_xml_text_spec s : is_xml_text s = true <-> xml_text s = s.
Proof. unfold is_xml_text. apply String.eqb_eq. Qed.

Lemma is_xml_text_append a b :
  is_xml_text a = true -> is_xml_text b = true -> is_xml_text (a +:+ b) = true.
Proof.
  rewrite !is_xml_text_spec. intros A B. rewrite (xml_text_append_l a A), B. reflexivity.
Qed.

(** *** What is read back of a marshalled tree *)

Lemma fold_class_ignored v p :
  fold_left Path_attr (map read_attr (omitempty "class" v)) p = p.
Proof. unfold omitempty. destruct (String.eqb v ""); reflexivity. Qed.

Lemma Path_written indent ns depth p :
  Group_token (reparse indent ns depth (marshalPath p))
  = Some [pathChild (written_Path p)].
Proof.
  destruct p as [i t d c].
  unfold marshalPath. cbn [reparse]. rewrite Group_token_unfold. name_tests.
  unfold written_Path. cbn [Path_ID Path_Type Path_D Path_Class].
  unfold Path_UnmarshalXML. cbn [flat_map existsb app].
  change (("id", i) :: omitempty "kvg:type" t ++ ("d", d) :: omitempty "class" c)
    with ([("id", i)] ++ omitempty "kvg:type" t ++ [("d", d)] ++ omitempty "class" c).
  rewrite !map_app, !fold_left_app, fold_class_ignored. cbn [map fold_left].
  absorb_omitempty Path_attr. reflexivity.
Qed.

Lemma Text_written indent ns depth t :
  Group_token (reparse indent ns depth (marshalText t))
  = Some [textChild (written_Text t)].
Proof.
  destruct t as [tr c cl].
  unfold marshalText. cbn [reparse]. rewrite Group_token_unfold. name_tests.
  unfold written_Text. cbn [Text_Transform Text_Content Text_Class].
  do 3 f_equal. unfold Text_unmarshal.
  match goal with |- context [fold_right String.append "" ?l] =>
    assert (C : fold_right String.append "" l = xml_text c) end.
  { destruct (String.eqb_spec c "") as [->|]; [reflexivity|].
    cbn [flat_map is_element reparse existsb app map chardata fold_right].
    apply append_empty_r. }
  rewrite C. rewrite !map_app, !fold_left_app.
  absorb_omitempty Text_attr. reflexivity.
Qed.

Lemma Group_tokens_children_gen (f : Child -> Child) indent ns depth cs :
  Forall (fun c => forall indent ns depth,
            Group_token (reparse indent ns depth (marshalChild c)) = Some [f c]) cs ->
  Group_tokens (reparse_children indent ns depth (map marshalChild cs))
  = Some (map f cs).
Proof.
  intros H. unfold reparse_children. rewrite Group_tokens_app.
  assert (T : forall b : bool,
             Group_tokens (if b then [CharData (indent depth)] else []) = Some [])
    by (intros []; reflexivity).
  rewrite T. clear T.
  assert (E : Group_tokens
                (flat_map (fun child =>
                   if is_element child
                   then [CharData (indent (S depth)); reparse indent ns (S depth) child]
                   else [reparse indent ns (S depth) child]) (map marshalChild cs))
              = Some (map f cs)).
  { induction H as [|c cs Hc _ IH]; [reflexivity|].
    cbn [map flat_map]. rewrite is_element_marshalChild.
    cbn [app Group_tokens Group_token]. rewrite Hc, IH. reflexivity. }
  rewrite E, app_nil_r. reflexivity.
Qed.

Lemma Child_written c : forall indent ns depth,
  Group_token (reparse indent ns depth (marshalChild c)) = Some [written_child c].
Proof.
  induction c as [c IH] using Child_ind'. intros indent ns depth.
  destruct c as [p g t ig it]. cbn [Child_Group] in IH.
  destruct ig.
  - cbn [marshalChild written_child Child_IsGroup Child_Group reparse].
    rewrite Group_token_unfold. name_tests.
    fold (reparse_children indent (xmlns_of ns (Group_attrs g)) depth
            (map marshalChild (Group_Children g))).
    rewrite (Group_tokens_children_gen written_child _ _ _ _ IH), Group_attrs_written.
    destruct g; reflexivity.
  - destruct it.
    + cbn [marshalChild written_child Child_IsGroup Child_IsText Child_Text].
      apply Text_written.
    + cbn [marshalChild written_child Child_IsGroup Child_IsText Child_Path].
      apply Path_written.
Qed.

Lemma SVG_groups_written indent ns gs :
  SVG_groups (reparse_children indent ns 0 (map marshalGroup gs))
  = Some (map (fun g => set_Group_Children (map written_child (Group_Children g))
                          (written_Group g)) gs).
Proof.
  unfold reparse_children.
  assert (T : SVG_groups (if existsb is_element (map marshalGroup gs)
                          then [CharData (indent 0%nat)] else []) = Some [])
    by (destruct (existsb _ _); reflexivity).
  revert T.
  generalize (if existsb is_element (map marshalGroup gs)
              then [CharData (indent 0%nat)] else []) as tail.
  intros tail T.
  induction gs as [|g gs IH].
  - exact T.
  - cbn [map flat_map is_element marshalGroup app SVG_groups reparse].
    name_tests.
    fold (reparse_children indent (xmlns_of ns (Group_attrs g)) 1
            (map marshalChild (Group_Children g))).
    unfold Group_UnmarshalXML.
    rewrite (Group_tokens_children_gen written_child), Group_attrs_written
      by (apply Forall_forall; intros c _; apply Child_written).
    cbn [map flat_map marshalGroup] in IH. rewrite IH.
    destruct g; reflexivity.
Qed.

(** What is read back of any document. *)
Lemma read_back_written kvg indent :
  read_back indent (marshalSVG kvg) = Some (written_SVG kvg).
Proof.
  unfold read_back, marshalSVG, ParseKanji. cbn [reparse]. name_tests.
  match goal with |- context [SVG_groups ?l] =>
    match l with
    | context [xmlns_of ?a ?b] =>
        change l with (reparse_children indent (xmlns_of a b) 0
                         (map marshalGroup (SVG_Groups kvg)))
    end
  end.
  rewrite SVG_groups_written.
  destruct kvg as [ns w h vb gs]. unfold written_SVG, set_SVG_Groups.
  cbn [SVG_XMLNS SVG_Width SVG_Height SVG_ViewBox SVG_Groups].
  change ([("xmlns", ns); ("width", w); ("height", h)] ++ omitempty "viewBox" vb)
    with ([("xmlns", ns)] ++ [("width", w)] ++ [("height", h)] ++ omitempty "viewBox" vb).
  rewrite !map_app, !fold_left_app. cbn [map fold_left].
  absorb_omitempty SVG_attr. reflexivity.
Qed.

(** *** What the decoder builds from XML text *)

Lemma Path_attr_written p a :
  written_Path p = p -> is_xml_text (Attr_Value a) = true ->
  written_Path (Path_attr p a) = Path_attr p a.
Proof.
  intros H V. apply is_xml_text_spec in V. destruct p as [i t d c].
  unfold written_Path in H. cbn [Path_ID Path_Type Path_D] in H.
  injection H as Hi Ht Hd Hc. subst c.
  unfold Path_attr, written_Path, set_Path_ID.
  repeat match goal with |- context [if ?b then _ else _] => destruct b end;
    cbn [Path_ID Path_Type Path_D Path_Class]; congruence.
Qed.

Lemma Text_attr_written t a :
  written_Text t = t -> is_xml_text (Attr_Value a) = true ->
  written_Text (Text_attr t a) = Text_attr t a.
Proof.
  intros H V. apply is_xml_text_spec in V. destruct t as [tr c cl].
  unfold written_Text in H. cbn [Text_Transform Text_Content Text_Class] in H.
  injection H as Htr Hc Hcl.
  unfold Text_attr, written_Text.
  repeat match goal with |- context [if ?b then _ else _] => destruct b end;
    cbn [Text_Transform Text_Content Text_Class]; congruence.
Qed.

Lemma Group_attr_written g a :
  written_Group g = g -> is_xml_text (Attr_Value a) = true ->
  written_Group (Group_attr g a) = Group_attr g a.
Proof.
  intros H V. apply is_xml_text_spec in V.
  destruct g as [i e p v n o pa tf po r ph rf s ch].
  unfold written_Group in H.
  cbn [Group_ID Group_Element Group_Part Group_Variant Group_Number Group_Original
       Group_Partial Group_TradForm Group_Position Group_Radical Group_Phon
       Group_RadicalForm Group_Style Group_Children] in H.
  injection H as Hi He Hp Hn Ho Htf Hpo Hr Hph Hrf Hs.
  unfold Group_attr, written_Group.
  repeat match goal with |- context [if String.eqb ?x ?y then _ else _] =>
           destruct (String.eqb x y) end;
    cbn [Group_ID Group_Element Group_Part Group_Variant Group_Number Group_Original
         Group_Partial Group_TradForm Group_Position Group_Radical Group_Phon
         Group_RadicalForm Group_Style Group_Children]; congruence.
Qed.

Lemma SVG_attr_written kvg a :
  written_SVG kvg = kvg -> is_xml_text (Attr_Value a) = true ->
  SVG_Groups kvg = [] ->
  written_SVG (SVG_attr kvg a) = SVG_attr kvg a /\ SVG_Groups (SVG_attr kvg a) = [].
Proof.
  intros H V G. apply is_xml_text_spec in V. destruct kvg as [ns w h vb gs].
  cbn [SVG_Groups] in G. subst gs.
  unfold written_SVG in H. cbn [SVG_XMLNS SVG_Width SVG_Height SVG_ViewBox SVG_Groups map] in H.
  injection H as Hns Hw Hh Hvb.
  unfold SVG_attr, written_SVG.
  repeat match goal with |- context [if ?b then _ else _] => destruct b end;
    cbn [SVG_XMLNS SVG_Width SVG_Height SVG_ViewBox SVG_Groups map];
    split; congruence.
Qed.

Lemma fold_written {S} (f : S -> Attr -> S) (P : S -> Prop) attrs :
  (forall s a, P s -> is_xml_text (Attr_Value a) = true -> P (f s a)) ->
  forallb (fun a => is_xml_text (Attr_Value a)) attrs = true ->
  forall s, P s -> P (fold_left f attrs s).
Proof.
  intros Hf. induction attrs as [|a attrs IH]; intros V s Hs; [exact Hs|].
  cbn [forallb] in V. apply andb_true_iff in V as [Va V].
  cbn [fold_left]. apply IH; auto.
Qed.

Lemma chardata_xml_text children :
  forallb tokenized children = true ->
  is_xml_text (fold_right String.append "" (map chardata children)) = true.
Proof.
  induction children as [|n l IH]; intros V; [reflexivity|].
  cbn [forallb] in V. apply andb_true_iff in V as [Vn V].
  cbn [map fold_right]. apply is_xml_text_append; [|apply IH, V].
  destruct n; [reflexivity|exact Vn|reflexivity].
Qed.

Lemma Group_tokens_written l :
  Forall (fun n => tokenized n = true ->
                   forall cs, Group_token n = Some cs ->
                              Forall (fun c => written_child c = c) cs) l ->
  forallb tokenized l = true ->
  forall cs, Group_tokens l = Some cs -> Forall (fun c => written_child c = c) cs.
Proof.
  induction 1 as [|n l Hn _ IH]; intros V cs E; cbn [Group_tokens] in E.
  - injection E as <-. constructor.
  - cbn [forallb] in V. apply andb_true_iff in V as [Vn V].
    destruct (Group_token n) as [a|] eqn:Ea; [|discriminate].
    destruct (Group_tokens l) as [b|] eqn:Eb; [|discriminate].
    injection E as <-. apply Forall_app. split; [apply Hn|apply IH]; auto.
Qed.

Lemma map_fixed {A} (f : A -> A) l : Forall (fun x => f x = x) l -> map f l = l.
Proof. induction 1 as [|x l Hx _ IH]; [reflexivity|]. cbn [map]. congruence. Qed.

(** The children that the decoder builds from XML text are read back as
    they are. *)
Lemma Group_token_written n :
  tokenized n = true ->
  forall cs, Group_token n = Some cs -> Forall (fun c => written_child c = c) cs.
Proof.
  induction n as [name attrs children IH| |] using Node_ind'; intros V cs E.
  - rewrite Group_token_unfold in E. cbn [tokenized] in V.
    apply andb_true_iff in V as [Va Vc].
    pose proof (Group_tokens_written _ IH Vc) as R.
    destruct (String.eqb (Local name) "g").
    { destruct (Group_tokens children) as [cs'|] eqn:Ec; [|discriminate].
      injection E as <-. specialize (R _ eq_refl).
      constructor; [|constructor].
      cbn [written_child groupChild Child_IsGroup Child_Group].
      assert (G : written_Group (fold_left Group_attr attrs zeroGroup)
                  = fold_left Group_attr attrs zeroGroup).
      { apply (fold_written Group_attr (fun g => written_Group g = g));
          [apply Group_attr_written|exact Va|reflexivity]. }
      unfold groupChild. f_equal.
      destruct (fold_left Group_attr attrs zeroGroup)
        as [gi ge gp gv gn go gpa gtf gpo gr gph grf gs0 gch].
      unfold written_Group, set_Group_Children in *.
      cbn [Group_ID Group_Element Group_Part Group_Variant
           Group_Number Group_Original Group_Partial Group_TradForm Group_Position
           Group_Radical Group_Phon Group_RadicalForm Group_Style Group_Children] in *.
      rewrite (map_fixed _ _ R). congruence. }
    destruct (String.eqb (Local name) "path").
    { unfold Path_UnmarshalXML in E.
      destruct (existsb (has_element name) children); [discriminate|].
      injection E as <-. constructor; [|constructor].
      cbn [written_child pathChild Child_IsGroup Child_IsText Child_Path].
      unfold pathChild. f_equal.
      apply (fold_written Path_attr (fun p => written_Path p = p));
        [apply Path_attr_written|exact Va|reflexivity]. }
    destruct (String.eqb (Local name) "text").
    { injection E as <-. constructor; [|constructor].
      cbn [written_child textChild Child_IsGroup Child_IsText Child_Text].
      unfold textChild. f_equal. unfold Text_unmarshal.
      pose proof (chardata_xml_text _ Vc) as C. apply is_xml_text_spec in C.
      assert (T : written_Text (fold_left Text_attr attrs zeroText)
                  = fold_left Text_attr attrs zeroText).
      { apply (fold_written Text_attr (fun t => written_Text t = t));
          [apply Text_attr_written|exact Va|reflexivity]. }
      destruct (fold_left Text_attr attrs zeroText) as [tr c cl].
      unfold written_Text, set_Text_Content in *.
      cbn [Text_Transform Text_Content Text_Class] in *. congruence. }
    apply R, E.
  - injection E as <-. constructor.
  - injection E as <-. constructor.
Qed.

Lemma SVG_groups_tokenized l : forall gs,
  forallb tokenized l = true -> SVG_groups l = Some gs ->
  map (fun g => set_Group_Children (map written_child (Group_Children g))
                  (written_Group g)) gs = gs.
Proof.
  induction l as [|n l IH]; intros gs V E; cbn [SVG_groups] in E.
  - injection E as <-. reflexivity.
  - cbn [forallb] in V. apply andb_true_iff in V as [Vn V].
    destruct n as [name attrs children| |]; try (apply IH; assumption).
    destruct (String.eqb (Local name) "g"); [|apply IH; assumption].
    unfold Group_UnmarshalXML in E.
    destruct (Group_tokens children) as [cs|] eqn:Ec; [|discriminate].
    destruct (SVG_groups l) as [gs'|] eqn:Eg; [|discriminate].
    injection E as <-. cbn [tokenized] in Vn. apply andb_true_iff in Vn as [Va Vc].
    assert (R : Forall (fun c => written_child c = c) cs).
    { apply (Group_tokens_written children); [|exact Vc|exact Ec].
      apply Forall_forall. intros n _. apply Group_token_written. }
    assert (G : written_Group (fold_left Group_attr attrs zeroGroup)
                = fold_left Group_attr attrs zeroGroup).
    { apply (fold_written Group_attr (fun g => written_Group g = g));
        [apply Group_attr_written|exact Va|reflexivity]. }
    cbn [map]. rewrite (IH _ V eq_refl). f_equal.
    destruct (fold_left Group_attr attrs zeroGroup)
      as [gi ge gp gv gn go gpa gtf gpo gr gph grf gs0 gch].
    unfold written_Group, set_Group_Children in *.
    cbn [Group_ID Group_Element Group_Part Group_Variant
         Group_Number Group_Original Group_Partial Group_TradForm Group_Position
         Group_Radical Group_Phon Group_RadicalForm Group_Style Group_Children] in *.
    rewrite (map_fixed _ _ R). congruence.
Qed.

(** A document decoded from XML text is what is read back of it. *)
Lemma ParseKanji_written root kvg :
  ParseKanji root = Some kvg -> tokenized root = true -> written_SVG kvg = kvg.
Proof.
  destruct root as [name attrs children| |]; try discriminate.
  unfold ParseKanji. destruct (String.eqb (Local name) "svg"); [|discriminate].
  destruct (SVG_groups children) as [gs|] eqn:E; [|discriminate].
  intros [= <-] V. cbn [tokenized] in V. apply andb_true_iff in V as [Va Vc].
  pose proof (SVG_groups_tokenized _ _ Vc E) as G.
  destruct (fold_written SVG_attr
              (fun k => written_SVG k = k /\ SVG_Groups k = []) attrs) with
    (s := mkSVG "" "" "" "" []) as [A B]; [|exact Va|split; reflexivity|].
  { intros s a [H1 H2] Ha. apply SVG_attr_written; assumption. }
  destruct (fold_left SVG_attr attrs (mkSVG "" "" "" "" [])) as [sns sw sh svb sgs].
  unfold written_SVG, set_SVG_Groups in *.
  cbn [SVG_Groups SVG_XMLNS SVG_Width SVG_Height SVG_ViewBox] in *.
  subst sgs. cbn [map] in A. rewrite G. congruence.
Qed.

(** X13 ([Child.MarshalXML], [Path.UnmarshalXML], [Group.UnmarshalXML]).
    What is read back from the marshalled form of any document is the
    document with each child reduced to the variant its flags select,
    each path without its [class], and each string as the escaping
    carries it, with U+FFFD for each byte that starts no UTF-8 sequence
    and for each character that XML cannot carry; this is again a
    document as the decoder builds them; and a document decoded from
    tokens of XML text, which are the tokens that the tokenizer yields,
    is read back as itself. *)
Theorem X13_marshal_read_back :
  (forall kvg indent, read_back indent (marshalSVG kvg) = Some (written_SVG kvg)) /\
  (forall kvg, decoded (written_SVG kvg)) /\
  (forall root kvg indent,
      ParseKanji root = Some kvg -> tokenized root = true ->
      read_back indent (marshalSVG kvg) = Some kvg).
Proof.
  split; [exact read_back_written|]. split.
  - intros kvg. eapply ParseKanji_decoded. exact (read_back_written kvg (fun _ => "")).
  - intros root kvg indent D V.
    rewrite read_back_written, (ParseKanji_written root kvg D V). reflexivity.
Qed.

Lemma X13_marshal_read_back_witness :
  read_back (fun _ => "") (marshalSVG (sample_doc "1")) = Some (sample_doc "1").
Proof.
  apply (proj2 (proj2 X13_marshal_read_back) canonical_input (sample_doc "1")
           (fun _ => "")); vm_compute; reflexivity.
Defined.

(** ** Patterns and what they match *)

(** Completeness of the matcher: where the pattern can take [w] and the
    rest of the match succeeds after it, [run] succeeds. *)
Lemma run_complete r i w rest c c' :
  matches r i w rest c c' ->
  forall k, (forall d, is_Some (k rest (i + length w)%nat d)) ->
  forall d, is_Some (run r (w ++ rest) i d k).
Proof.
  induction 1 as [i rest c|x i rest c|p a i rest c Pa
                 |r1 r2 i w1 w2 rest c c1 c2 M1 IH1 M2 IH2
                 |r1 r2 i w rest c c' M IH|r1 r2 i w rest c c' M IH
                 |r i w rest c c' M IH|r i rest c|p i w rest c Hw
                 |n r i w rest c c' M IH|i c]; intros k Hk d; cbn [run app length] in *.
  - rewrite Nat.add_0_r in Hk. apply Hk.
  - rewrite Ascii.eqb_refl. rewrite Nat.add_1_r in Hk. apply Hk.
  - rewrite Pa. rewrite Nat.add_1_r in Hk. apply Hk.
  - rewrite <- app_assoc. apply IH1. intros d1. apply IH2. intros d2.
    rewrite length_app, Nat.add_assoc in Hk. apply Hk.
  - destruct (IH k Hk d) as [res ->]. eauto.
  - destruct (run r1 (w ++ rest) i d k); [eauto|]. apply IH, Hk.
  - destruct (IH k Hk d) as [res ->]. eauto.
  - rewrite Nat.add_0_r in Hk. destruct (run r rest i d k); [eauto|]. apply Hk.
  - apply star_exists; [exact Hw|apply Hk].
  - apply IH. intros d1. apply Hk.
  - rewrite Nat.add_0_r in Hk. apply Hk.
Qed.

Lemma search_skip r pre : forall s i,
  search r (pre ++ s) i = None <->
  (forall j, (j < length pre)%nat -> match_at r (drop j pre ++ s) (i + j)%nat = None) /\
  search r s (i + length pre)%nat = None.
Proof.
  induction pre as [|a pre IH]; intros s i.
  - cbn [app length]. rewrite Nat.add_0_r. split; [intros H; split; [intros j Hj; cbn in Hj; lia|exact H]|intros [_ H]; exact H].
  - cbn [app search length]. split.
    + intros H. destruct (match_at r (a :: (pre ++ s)) i) eqn:E; [discriminate|].
      apply IH in H. destruct H as [H1 H2]. split.
      * intros [|j] Hj; [rewrite Nat.add_0_r; exact E|].
        cbn [drop]. rewrite <- Nat.add_succ_comm. apply H1. lia.
      * rewrite <- Nat.add_succ_comm. exact H2.
    + intros [H1 H2]. pose proof (H1 0%nat ltac:(lia)) as E. rewrite Nat.add_0_r in E.
      cbn [drop app] in E. rewrite E. apply IH. split.
      * intros j Hj. specialize (H1 (S j) ltac:(lia)). cbn [drop] in H1.
        rewrite <- Nat.add_succ_comm in H1. exact H1.
      * rewrite <- Nat.add_succ_comm in H2. exact H2.
Qed.

(** [MatchString] finds a match wherever the pattern has one. *)
Lemma MatchString_iff r s :
  MatchString r s = true <->
  exists pre w rest c c',
    list_ascii_of_string s = pre ++ w ++ rest /\ matches r (length pre) w rest c c'.
Proof.
  unfold MatchString, FindStringSubmatch. split.
  - destruct (search r (list_ascii_of_string s) 0) as [res|] eqn:E; [|discriminate].
    intros _. destruct (search_sound _ _ _ _ E) as (pre & s' & E1 & M & _).
    unfold match_at in M.
    destruct (run_sound _ _ _ _ _ _ M) as (w & rest & c' & -> & Hm & _).
    exists pre, w, rest, (replicate (S (ngroups r)) None), c'. split; [exact E1|exact Hm].
  - intros (pre & w & rest & c & c' & E & M). rewrite E.
    destruct (search_complete r pre (w ++ rest) 0) as [res ->]; [|reflexivity].
    cbn [Nat.add]. unfold match_at. eapply run_complete; [exact M|]. intros d. eauto.
Qed.

Lemma matches_lit t : forall i w rest c c',
  matches (lit t) i w rest c c' <-> w = list_ascii_of_string t /\ c' = c.
Proof.
  induction t as [|a t IH]; intros i w rest c c'.
  - cbn. split; [intros H; inversion H; auto|intros [-> ->]; constructor].
  - destruct t as [|b t].
    + cbn. split; [intros H; inversion H; auto|intros [-> ->]; constructor].
    + change (lit (String a (String b t))) with (Seq (Lit a) (lit (String b t))). split.
      * intros H. inversion H as [| | |? ? ? w1 w2 ? ? c1 ? M1 M2| | | | | | |]; subst.
        inversion M1; subst. apply IH in M2. destruct M2 as [-> ->]. auto.
      * intros [-> ->]. change (list_ascii_of_string (String a (String b t)))
          with ([a] ++ list_ascii_of_string (String b t)).
        econstructor; [constructor|]. apply IH. auto.
Qed.

Lemma matches_alts_lit ts : forall i w rest c c',
  ts <> [] ->
  (matches (alts (map lit ts)) i w rest c c' <->
   exists t, In t ts /\ w = list_ascii_of_string t /\ c' = c).
Proof.
  induction ts as [|t ts IH]; intros i w rest c c' N; [congruence|].
  destruct ts as [|t' ts].
  - cbn [map alts]. rewrite matches_lit. split.
    + intros [-> ->]. exists t. cbn. auto.
    + intros (t0 & [<-|[]] & -> & ->). auto.
  - change (alts (map lit (t :: t' :: ts)))
      with (Alt (lit t) (alts (map lit (t' :: ts)))). split.
    + intros H. inversion H as [| | | |? ? ? ? ? ? ? M|? ? ? ? ? ? ? M| | | | |]; subst.
      * apply matches_lit in M. destruct M as [-> ->]. exists t. cbn. auto.
      * apply IH in M; [|discriminate]. destruct M as (t0 & Ht & -> & ->).
        exists t0. split; [right; exact Ht|auto].
    + intros (t0 & [<-|Ht] & -> & ->).
      * apply M_Alt_l, matches_lit. auto.
      * apply M_Alt_r, IH; [discriminate|]. exists t0. auto.
Qed.

Lemma contains_list t s :
  contains t s <->
  exists pre rest, list_ascii_of_string s = pre ++ list_ascii_of_string t ++ rest.
Proof.
  split.
  - intros (a & b & ->). exists (list_ascii_of_string a), (list_ascii_of_string b).
    rewrite !list_ascii_of_string_app. reflexivity.
  - intros (pre & rest & E). exists (string_of_list_ascii pre), (string_of_list_ascii rest).
    rewrite <- (string_of_list_ascii_of_string s), E, !string_of_list_ascii_app,
      string_of_list_ascii_of_string. reflexivity.
Qed.

Lemma ends_in_list t s :
  ends_in t s <-> exists pre, list_ascii_of_string s = pre ++ list_ascii_of_string t.
Proof.
  split.
  - intros (a & ->). exists (list_ascii_of_string a).
    rewrite !list_ascii_of_string_app. reflexivity.
  - intros (pre & E). exists (string_of_list_ascii pre).
    rewrite <- (string_of_list_ascii_of_string s), E, !string_of_list_ascii_app,
      string_of_list_ascii_of_string. reflexivity.
Qed.

(** X14 ([Backup]).  [Backup] matches the names that hold [/.#] or
    [/#] anywhere, or end in [~]; a [~] elsewhere does not count. *)
Theorem X14_Backup_matches s :
  MatchString Backup s = true <->
  contains "/.#" s \/ contains "/#" s \/ ends_in "~" s.
Proof.
  rewrite MatchString_iff, !contains_list, ends_in_list. unfold Backup.
  change (alts [lit "/.#"; lit "/#"; Seq (Lit "~") EndText])
    with (Alt (lit "/.#") (Alt (lit "/#") (Seq (Lit "~") EndText))).
  split.
  - intros (pre & w & rest & c & c' & E & M).
    inversion M as [| | | |? ? ? ? ? ? ? M1|? ? ? ? ? ? ? M1| | | | |]; subst.
    + apply (matches_lit "/.#") in M1. destruct M1 as [-> _]. left. eauto.
    + inversion M1 as [| | | |? ? ? ? ? ? ? M2|? ? ? ? ? ? ? M2| | | | |]; subst.
      * apply (matches_lit "/#") in M2. destruct M2 as [-> _]. right. left. eauto.
      * inv_matches. right. right. exists pre. exact E.
  - intros [(pre & rest & E)|[(pre & rest & E)|(pre & E)]].
    + exists pre, (list_ascii_of_string "/.#"), rest, [], []. split; [exact E|].
      apply M_Alt_l, (matches_lit "/.#"). auto.
    + exists pre, (list_ascii_of_string "/#"), rest, [], []. split; [exact E|].
      apply M_Alt_r, M_Alt_l, (matches_lit "/#"). auto.
    + exists pre, (list_ascii_of_string "~"), [], [], []. split; [rewrite app_nil_r; exact E|].
      apply M_Alt_r, M_Alt_r.
      change (list_ascii_of_string "~") with (["~"%char] ++ []).
      econstructor; constructor.
Qed.

Lemma X14_Backup_matches_witness :
  MatchString Backup "kanji/04e00.svg~" = true /\
  ~ contains "/#" "kanji/04e00~.svg".
Proof.
  split.
  - apply (proj2 (X14_Backup_matches "kanji/04e00.svg~")). right. right.
    exists "kanji/04e00.svg". reflexivity.
  - intros C.
    assert (M : MatchString Backup "kanji/04e00~.svg" = true)
      by (apply (proj2 (X14_Backup_matches "kanji/04e00~.svg")); right; left; exact C).
    vm_compute in M. discriminate M.
Defined.

Lemma matches_hyphen_cap A i w rest c c' :
  matches (Seq (Lit "-") (Cap 1 A)) i w rest c c' ->
  exists w2 c1, w = "-"%char :: w2 /\ matches A (i + 1)%nat w2 rest c c1.
Proof. intros M. inv_matches. eauto. Qed.

(** X15 ([Variant]).  [Variant] matches the names that hold, anywhere,
    a hyphen followed by one of the listed endings. *)
Theorem X15_Variant_matches s :
  MatchString Variant s = true <->
  exists t, In t variant_tokens /\ contains ("-" +:+ t) s.
Proof.
  rewrite MatchString_iff. unfold Variant. split.
  - intros (pre & w & rest & c & c' & E & M).
    apply matches_hyphen_cap in M. destruct M as (w2 & c1 & -> & M).
    apply matches_alts_lit in M; [|discriminate]. destruct M as (t & Ht & -> & _).
    exists t. split; [exact Ht|]. apply contains_list. exists pre, rest.
    rewrite E. reflexivity.
  - intros (t & Ht & C). apply contains_list in C. destruct C as (pre & rest & E).
    exists pre, ("-"%char :: list_ascii_of_string t), rest, [None; None]. eexists.
    split; [exact E|].
    change ("-"%char :: list_ascii_of_string t) with (["-"%char] ++ list_ascii_of_string t).
    econstructor; [constructor|]. constructor.
    apply matches_alts_lit; [discriminate|]. exists t. auto.
Qed.

Lemma X15_Variant_matches_witness :
  MatchString Variant "kanji/04e00-Kaisho.svg" = true.
Proof.
  apply (proj2 (X15_Variant_matches "kanji/04e00-Kaisho.svg")).
  exists "Kaisho". split; [left; reflexivity|].
  exists "kanji/04e00", ".svg". reflexivity.
Defined.

(** ** Identifiers without a number *)

Lemma matches_length r i w rest c c' : matches r i w rest c c' -> length c' = length c.
Proof.
  induction 1; try reflexivity; try congruence.
  etransitivity; [apply length_insert|assumption].
Qed.

(** The slice returned has an entry for the match and one for each
    group. *)
Lemma FindStringSubmatch_length r s l :
  FindStringSubmatch r s = Some l -> length l = S (ngroups r).
Proof.
  unfold FindStringSubmatch.
  destruct (search r (list_ascii_of_string s) 0) as [res|] eqn:E; [|discriminate].
  intros [= <-]. rewrite length_map.
  destruct (search_sound _ _ _ _ E) as (pre & s' & _ & M & _). unfold match_at in M.
  destruct (run_sound _ _ _ _ _ _ M) as (w & rest & c' & _ & Hm & [= <-]).
  etransitivity; [apply length_insert|].
  rewrite (matches_length _ _ _ _ _ _ Hm), length_replicate. reflexivity.
Qed.

Lemma idRe_matches letter i w rest c c' :
  matches (idRe letter) i w rest c c' ->
  exists h mid d ds,
    w = kvg_colon ++ h ++ mid ++ "-"%char :: letter :: d :: ds /\
    length h = 5%nat /\ Forall (fun x => is_hex x = true) h /\
    Forall (fun a => dot a = true) mid /\ is_digit d = true.
Proof.
  unfold idRe, id_tail, hexID. cbn [lit times]. intros M. inv_matches.
  repeat match goal with H : matches Empty _ _ _ _ _ |- _ => inversion H; subst; clear H end.
  eexists [_; _; _; _; _], _, _, _. split; [reflexivity|].
  split; [reflexivity|]. split; [repeat constructor; assumption|]. split; assumption.
Qed.

Lemma matches_times5 p a1 a2 a3 a4 a5 i rest c :
  p a1 = true -> p a2 = true -> p a3 = true -> p a4 = true -> p a5 = true ->
  matches (times 5 (Class p)) i [a1; a2; a3; a4; a5] rest c c.
Proof.
  intros H1 H2 H3 H4 H5. cbn [times].
  change [a1; a2; a3; a4; a5] with ([a1] ++ [a2] ++ [a3] ++ [a4] ++ [a5]).
  repeat (econstructor; [constructor; assumption|]). constructor. assumption.
Qed.

Lemma idRe_matches_intro letter i h mid d rest c :
  length h = 5%nat -> Forall (fun x => is_hex x = true) h ->
  Forall (fun a => dot a = true) mid -> is_digit d = true ->
  exists c', matches (idRe letter) i (kvg_colon ++ h ++ mid ++ ["-"%char; letter; d]) rest c c'.
Proof.
  intros Lh Hh Hm Hd.
  destruct h as [|a1 [|a2 [|a3 [|a4 [|a5 [|]]]]]]; try discriminate.
  repeat match goal with H : Forall _ (_ :: _) |- _ =>
    let H1 := fresh "X" in let H2 := fresh "Y" in
    inversion H as [|? ? H1 H2]; subst; clear H end.
  eexists. unfold idRe, id_tail, hexID.
  econstructor; [apply (matches_lit "kvg:"); split; reflexivity|].
  econstructor; [constructor; apply matches_times5; assumption|].
  econstructor; [constructor; exact Hm|].
  change ["-"%char; letter; d] with (["-"%char; letter] ++ ([d] ++ [])).
  econstructor.
  - change ["-"%char; letter] with (["-"%char] ++ [letter]). econstructor; constructor.
  - constructor. econstructor; [constructor; exact Hd|]. constructor. constructor.
Qed.

(** X16 ([PathIDToNum]).  [PathIDToNum] panics, with an index out of
    range [2] with length 0, exactly on the identifiers that do not hold
    [kvg:], five hexadecimal digits and, later on the same line, [-s] and
    a digit; on the others it returns a number or ends the process. *)
Theorem X16_PathIDToNum_panics id :
  match PathIDToNum id with
  | inl e => e = IndexOutOfRange 2 0 /\ ~ has_path_number id
  | inr _ => has_path_number id
  end.
Proof.
  assert (S : has_path_number id <-> MatchString pathIDRe id = true).
  { rewrite MatchString_iff. unfold pathIDRe. split.
    - intros (pre & h & mid & d & rest & -> & [Lh Hh] & Hm & Hd).
      destruct (idRe_matches_intro "s" (length (list_ascii_of_string pre))
                  (list_ascii_of_string h) (list_ascii_of_string mid) d
                  (list_ascii_of_string rest) []) as [c' M];
        [rewrite length_list_ascii; exact Lh|exact Hh|exact Hm|exact Hd|].
      eexists _, _, _, _, _. split; [|exact M].
      rewrite !list_ascii_of_string_app. cbn [list_ascii_of_string app kvg_colon].
      rewrite <- !app_assoc. reflexivity.
    - intros (pre & w & rest & c & c' & E & M).
      destruct (idRe_matches _ _ _ _ _ _ M) as (h & mid & d & ds & -> & Lh & Hh & Hm & Hd).
      exists (string_of_list_ascii pre), (string_of_list_ascii h),
        (string_of_list_ascii mid), d, (string_of_list_ascii (ds ++ rest)).
      split; [|split; [split|split]].
      + rewrite <- (string_of_list_ascii_of_string id), E.
        rewrite <- (string_of_list_ascii_of_string (_ +:+ _)). f_equal.
        rewrite !list_ascii_of_string_app, !list_ascii_of_string_of_list_ascii.
        cbn [list_ascii_of_string]. rewrite list_ascii_of_string_of_list_ascii.
        rewrite <- !app_assoc. reflexivity.
      + rewrite <- Lh. rewrite <- (length_list_ascii (string_of_list_ascii h)),
          list_ascii_of_string_of_list_ascii. reflexivity.
      + rewrite list_ascii_of_string_of_list_ascii. exact Hh.
      + unfold no_newline. rewrite list_ascii_of_string_of_list_ascii. exact Hm.
      + exact Hd. }
  unfold PathIDToNum. unfold MatchString in S.
  destruct (FindStringSubmatch pathIDRe id) as [l|] eqn:E.
  - pose proof (FindStringSubmatch_length _ _ _ E) as L.
    change (ngroups pathIDRe) with 2%nat in L.
    destruct l as [|x0 [|x1 [|x2 [|]]]]; try discriminate.
    cbn. apply S. reflexivity.
  - cbn. split; [reflexivity|]. intros H. apply S in H. discriminate.
Qed.

Lemma X16_PathIDToNum_panics_witness :
  PathIDToNum "kvg:09999-g1" = inl (IndexOutOfRange 2 0) /\
  ~ has_path_number "kvg:09999-g1".
Proof.
  split; [vm_compute; reflexivity|].
  pose proof (X16_PathIDToNum_panics "kvg:09999-g1") as H.
  change (PathIDToNum "kvg:09999-g1") with (@inl runtime_error (proc Z) (IndexOutOfRange 2 0)) in H.
  exact (proj2 H).
Defined.

(** ** The number of a file name *)

Lemma fileIDRe_eq : fileIDRe = Seq (Star dot) fileID_tail.
Proof. reflexivity. Qed.

(** What greedy repetition returns comes from the longest prefix after
    which the rest of the pattern matches. *)
Lemma star_longest p s : forall i c k res,
  star p s i c k = Some res ->
  exists w rest, s = w ++ rest /\ Forall (fun a => p a = true) w /\
    k rest (i + length w)%nat c = Some res /\
    forall j, (0 < j <= length rest)%nat ->
              Forall (fun a => p a = true) (take j rest) ->
              k (drop j rest) (i + length w + j)%nat c = None.
Proof.
  induction s as [|a s IH]; intros i c k res H; cbn [star] in H.
  - exists [], []. rewrite Nat.add_0_r. repeat split; [constructor|exact H|].
    cbn. intros j Hj. lia.
  - destruct (p a) eqn:Pa.
    + destruct (star p s (S i) c k) as [res'|] eqn:E.
      * injection H as <-. destruct (IH _ _ _ _ E) as (w & rest & -> & Hw & Hk & Hn).
        exists (a :: w), rest. cbn [length]. rewrite <- Nat.add_succ_comm.
        repeat split; [constructor; assumption|exact Hk|exact Hn].
      * exists [], (a :: s). cbn [length app]. rewrite Nat.add_0_r.
        repeat split; [constructor|exact H|]. intros j Hj Hp.
        destruct j as [|j]; [lia|]. cbn [drop take] in *.
        inversion Hp as [|? ? _ Hp']; subst.
        destruct (k (drop j s) (i + S j)%nat c) as [r|] eqn:Ek; [|reflexivity].
        exfalso.
        assert (S : is_Some (star p (take j s ++ drop j s) (S i) c k)).
        { apply star_exists; [exact Hp'|].
          rewrite length_take, Nat.min_l by (cbn in Hj; lia).
          rewrite Nat.add_succ_comm, Ek. eauto. }
        rewrite take_drop, E in S. destruct S as [? S]. discriminate.
    + exists [], (a :: s). cbn [length app]. rewrite Nat.add_0_r.
      repeat split; [constructor|exact H|]. intros j Hj Hp.
      destruct j as [|j]; [lia|]. cbn [take] in Hp.
      inversion Hp; subst. congruence.
Qed.

Lemma hex_dot a : is_hex a = true -> dot a = true.
Proof.
  intros H. unfold dot. destruct (Ascii.eqb_spec a "010") as [->|]; [discriminate|reflexivity].
Qed.

(** What the tail of [fileIDRe] matches: five hexadecimal digits, nothing
    or a hyphen and more, [.svg], the end; none of it a newline. *)
Lemma fileID_tail_sound s i c k res :
  run fileID_tail s i c k = Some res ->
  (9 <= length s)%nat /\ Forall (fun a => dot a = true) s /\
  k [] (i + length s)%nat (<[1%nat := Some (i, (i + 5)%nat)]> c) = Some res.
Proof.
  intros H. destruct (run_sound _ _ _ _ _ _ H) as (w & rest & c' & -> & M & Hk).
  unfold fileID_tail, hexID, suffix_re, svg_end_re in M. cbn [times lit] in M. inv_matches.
  all: rewrite ?app_nil_r in *; cbn [app length] in *; rewrite ?length_app in *;
    cbn [length] in *.
  all: split; [lia|]; split;
    [repeat (first [apply Forall_cons; split | apply Forall_app; split | apply Forall_nil]);
     try reflexivity; try (apply hex_dot; assumption); try assumption|].
  all: match goal with H : ?kk [] ?a ?b = Some ?r |- ?kk [] ?a' ?b' = Some ?r =>
         replace a' with a by lia; replace b' with b; [exact H|] end.
  all: repeat f_equal; lia.
Qed.

Lemma fileID_tail_plain h i c k :
  length h = 5%nat -> Forall (fun x => is_hex x = true) h ->
  run fileID_tail (h ++ dot_svg) i c k
  = k [] (i + 9)%nat (<[1%nat := Some (i, (i + 5)%nat)]> c).
Proof.
  intros Lh Hh.
  destruct h as [|a1 [|a2 [|a3 [|a4 [|a5 [|]]]]]]; try discriminate.
  repeat match goal with H : Forall _ (_ :: _) |- _ =>
    let H1 := fresh "X" in let H2 := fresh "Y" in
    inversion H as [|? ? H1 H2]; subst; clear H end.
  unfold fileID_tail, hexID, dot_svg, suffix_re, svg_end_re.
  cbn [times lit list_ascii_of_string app run].
  repeat match goal with H : is_hex _ = true |- _ => rewrite H; clear H end.
  cbn. repeat f_equal; lia.
Qed.

Lemma run_star_seq p r s i c k :
  run (Seq (Star p) r) s i c k = star p s i c (fun s' i' c' => run r s' i' c' k).
Proof. reflexivity. Qed.

Lemma search_unfold r s i :
  search r s i =
  match match_at r s i with
  | Some c => Some c
  | None => match s with _ :: s' => search r s' (S i) | [] => None end
  end.
Proof. destruct s; reflexivity. Qed.

Lemma fileIDRe_match_at_tail pre T i res :
  code_tail T ->
  match_at fileIDRe (pre ++ T) i = Some res ->
  res = [Some (i, (i + length pre + length T)%nat);
         Some ((i + length pre)%nat, (i + length pre + 5)%nat)].
Proof.
  intros [P1 P2] M. unfold match_at in M.
  change (ngroups fileIDRe) with 1%nat in M. rewrite fileIDRe_eq, run_star_seq in M.
  apply star_longest in M. destruct M as (w0 & rest0 & E & Hw & Hk & Hmax).
  pose proof Hk as Hk'.
  apply fileID_tail_sound in Hk. destruct Hk as (L9 & Hd & Hk). injection Hk as <-.
  pose proof E as E0.
  assert (EL : length w0 = length pre).
  { apply app_eq_inv in E.
    destruct E as [(m & -> & ->)|(m & -> & E)].
    - destruct m as [|a m]; [rewrite app_nil_r; reflexivity|]. exfalso.
      specialize (Hmax (length (a :: m))).
      rewrite take_app_length, drop_app_length in Hmax.
      cbn beta in Hmax. rewrite P1 in Hmax.
      apply Forall_app in Hd. destruct Hd as [Hd _].
      assert (B : (0 < length (a :: m) <= length ((a :: m) ++ T))%nat)
        by (rewrite length_app; cbn [length]; lia).
      specialize (Hmax B Hd). discriminate.
    - destruct m as [|a m]; [rewrite app_nil_r; reflexivity|]. exfalso.
      rewrite (P2 (a :: m) rest0 _ _ _ ltac:(discriminate) E) in Hk'. discriminate. }
  assert (EL' : (length w0 + length rest0 = length pre + length T)%nat).
  { rewrite <- !length_app, E0. reflexivity. }
  rewrite EL. replace (length rest0) with (length T) by lia.
  cbn. reflexivity.
Qed.

Lemma fileIDRe_search_tail pre T :
  code_tail T ->
  forall i, exists a b,
    search fileIDRe (pre ++ T) i
    = Some [Some (a, b); Some ((i + length pre)%nat, (i + length pre + 5)%nat)].
Proof.
  intros CT. induction pre as [|x pre IH]; intros i; rewrite search_unfold.
  - destruct (match_at fileIDRe ([] ++ T) i) as [res|] eqn:M.
    + rewrite (fileIDRe_match_at_tail [] T i res CT M). eauto.
    + exfalso. unfold match_at in M. rewrite fileIDRe_eq, run_star_seq in M.
      match type of M with ?x = None => assert (S : is_Some x) end.
      { apply star_exists; [constructor|]. rewrite (proj1 CT). eauto. }
      rewrite M in S. destruct S as [? S]. discriminate.
  - destruct (match_at fileIDRe ((x :: pre) ++ T) i) as [res|] eqn:M.
    + rewrite (fileIDRe_match_at_tail (x :: pre) T i res CT M). eauto.
    + cbn [app]. destruct (IH (S i)) as (a & b & ->). cbn [length].
      rewrite <- !Nat.add_succ_comm. eauto.
Qed.

Lemma code_tail_plain h :
  length h = 5%nat -> Forall (fun x => is_hex x = true) h -> code_tail (h ++ dot_svg).
Proof.
  intros Lh Hh. split.
  - intros i c k. rewrite fileID_tail_plain by assumption.
    rewrite length_app, Lh. reflexivity.
  - intros m rest0 i c k Nm E.
    destruct (run fileID_tail rest0 i c k) as [res|] eqn:R; [|reflexivity]. exfalso.
    apply fileID_tail_sound in R. destruct R as (L9 & _ & _).
    apply (f_equal length) in E. rewrite !length_app, Lh in E. cbn in E.
    destruct m; [congruence|]. cbn in E. lia.
Qed.

Lemma alnum_dot a : is_alnum a = true -> dot a = true.
Proof.
  intros H. unfold dot. destruct (Ascii.eqb_spec a "010") as [->|]; [discriminate|reflexivity].
Qed.

Lemma alpha_alnum a : is_alpha a = true -> is_alnum a = true.
Proof. unfold is_alnum. intros ->. reflexivity. Qed.

Lemma alnum_not_hyphen l : Forall (fun a => is_alnum a = true) l -> ~ In "-"%char l.
Proof.
  intros H N. rewrite Forall_forall in H. apply list_elem_of_In in N.
  specialize (H _ N). discriminate.
Qed.

Lemma hex_not_hyphen l : Forall (fun a => is_hex a = true) l -> ~ In "-"%char l.
Proof.
  intros H N. rewrite Forall_forall in H. apply list_elem_of_In in N.
  specialize (H _ N). discriminate.
Qed.

Lemma fileID_tail_split s i c k res :
  run fileID_tail s i c k = Some res ->
  exists h osuf, s = h ++ osuf ++ dot_svg /\ length h = 5%nat /\
    Forall (fun x => is_hex x = true) h /\
    (osuf = [] \/ exists x xs, osuf = "-"%char :: x :: xs).
Proof.
  intros H. destruct (run_sound _ _ _ _ _ _ H) as (w & rest & c' & -> & M & Hk).
  unfold fileID_tail, hexID, suffix_re, svg_end_re in M. cbn [times lit] in M. inv_matches.
  all: rewrite ?app_nil_r in *.
  all: match goal with
       | |- context [ [?a1] ++ [?a2] ++ [?a3] ++ [?a4] ++ [?a5] ] =>
           exists [a1; a2; a3; a4; a5]
       end.
  all: match goal with
       | |- context [ ["-"%char] ++ [?ch] ++ ?t ] => exists ("-"%char :: ch :: t)
       | _ => exists []
       end.
  all: repeat split; try (repeat constructor; assumption); try reflexivity.
  all: try (left; reflexivity); try (right; do 2 eexists; reflexivity).
  all: cbn; rewrite <- ?app_assoc; reflexivity.
Qed.

(** Greedy repetition when the rest of the pattern can match at one
    place only. *)
Lemma star_unique p s n i c k :
  (n <= length s)%nat -> Forall (fun a => p a = true) (take n s) ->
  (forall j, (j <= length s)%nat -> j <> n -> k (drop j s) (i + j)%nat c = None) ->
  star p s i c k = k (drop n s) (i + n)%nat c.
Proof.
  intros Ln Hp Hn. destruct (k (drop n s) (i + n)%nat c) as [res|] eqn:E.
  - rewrite <- (take_drop n s) at 1. apply star_pick; [exact Hp| |].
    + rewrite length_take, Nat.min_l by exact Ln. exact E.
    + intros j Hj. rewrite length_take, Nat.min_l by exact Ln.
      rewrite drop_drop, <- Nat.add_assoc. rewrite length_drop in Hj. apply Hn; lia.
  - apply star_none. intros j Hj. destruct (decide (j = n)) as [->|N]; [exact E|].
    apply Hn; assumption.
Qed.

Lemma svg_end s i c k :
  run svg_end_re s i c k
  = if decide (s = dot_svg) then k [] (i + 4)%nat c else None.
Proof.
  unfold svg_end_re. cbn [lit run]. unfold dot_svg. cbn [list_ascii_of_string].
  repeat (destruct s as [|? s]; [reflexivity|];
          match goal with |- context [Ascii.eqb ?a ?b] =>
            destruct (Ascii.eqb_spec a b) as [->|];
            [|rewrite decide_False by congruence; reflexivity] end).
  destruct s.
  - rewrite decide_True by reflexivity. f_equal. lia.
  - rewrite decide_False by congruence. reflexivity.
Qed.

Lemma code_tail_variant h t0 t :
  length h = 5%nat -> Forall (fun x => is_hex x = true) h ->
  is_alpha t0 = true -> Forall (fun x => is_alnum x = true) t ->
  no_hex5_tail (t0 :: t) ->
  code_tail (h ++ "-"%char :: t0 :: t ++ dot_svg).
Proof.
  intros Lh Hh H0 Ht NT. split.
  - intros i c k.
    destruct h as [|a1 [|a2 [|a3 [|a4 [|a5 [|]]]]]]; try discriminate.
    repeat match goal with H : Forall _ (_ :: _) |- _ =>
      let H1 := fresh "X" in let H2 := fresh "Y" in
      inversion H as [|? ? H1 H2]; subst; clear H end.
    unfold fileID_tail, hexID. cbn [times app run].
    unfold suffix_re at 1. cbn [run].
    repeat match goal with H : is_hex _ = true |- _ => rewrite H; clear H end.
    change (Ascii.eqb "-" "-") with true. cbv iota.
    rewrite (alnum_dot t0 (alpha_alnum t0 H0)).
    rewrite (star_unique dot (t ++ dot_svg) (length t)).
    + rewrite drop_app_length. cbn beta. rewrite svg_end, decide_True by reflexivity.
      rewrite (svg_end ("-"%char :: _)), decide_False by discriminate.
      cbn [length]. rewrite length_app. cbn [length dot_svg list_ascii_of_string].
      replace (i + S (S (S (S (S (S (S (length t + 4))))))))%nat
        with (S (S (S (S (S (S (S i)))))) + length t + 4)%nat by lia.
      replace (i + 5)%nat with (S (S (S (S (S i))))) by lia.
      destruct (k _ _ _); reflexivity.
    + rewrite length_app. lia.
    + rewrite take_app_length. eapply Forall_impl; [exact Ht|]. apply alnum_dot.
    + intros j Hj Nj. cbn beta. rewrite svg_end, decide_False; [reflexivity|].
      intros E. apply (f_equal length) in E. rewrite length_drop, length_app in E.
      rewrite length_app in Hj. cbn in E, Hj. lia.
  - intros m rest0 i c k Nm E.
    destruct (run fileID_tail rest0 i c k) as [res|] eqn:R; [|reflexivity]. exfalso.
    apply fileID_tail_split in R.
    destruct R as (h' & osuf & -> & Lh' & Hh' & Ho).
    change ("-"%char :: t0 :: t ++ dot_svg) with (("-"%char :: t0 :: t) ++ dot_svg) in E.
    rewrite !app_assoc in E. apply app_inv_tail in E. rewrite <- !app_assoc in E.
    pose proof (alnum_not_hyphen (t0 :: t)
                  ltac:(constructor; [apply alpha_alnum; exact H0|exact Ht])) as NH.
    destruct m as [|m0 m]; [congruence|].
    destruct Ho as [->|(x & xs & ->)].
    + rewrite app_nil_r in E. apply app_eq_inv in E.
      destruct E as [(k0 & E1 & E2)|(k0 & E1 & E2)].
      * apply (hex_not_hyphen h' Hh'). rewrite E2. apply in_or_app. right. left. reflexivity.
      * destruct k0 as [|y k0].
        -- apply (hex_not_hyphen h' Hh'). cbn in E2. rewrite <- E2. left. reflexivity.
        -- cbn in E2. injection E2 as _ E2. exact (NT k0 h' E2 Lh' Hh').
    + rewrite app_assoc in E. apply app_eq_inv in E.
      destruct E as [(k0 & E1 & E2)|(k0 & E1 & E2)].
      * apply (f_equal length) in E1. rewrite !length_app, Lh, Lh' in E1. cbn in E1. lia.
      * destruct k0 as [|y k0].
        -- rewrite app_nil_r in E1. apply (f_equal length) in E1.
           rewrite !length_app, Lh, Lh' in E1. cbn in E1. lia.
        -- cbn in E2. injection E2 as _ E2. apply NH. rewrite E2.
           apply in_or_app. right. left. reflexivity.
Qed.

Lemma FileToNum_tail pre h rest num :
  length h = 5%nat ->
  code_tail (h ++ rest) ->
  ParseInt (string_of_list_ascii h) 16 = Some num ->
  FileToNum (string_of_list_ascii (pre ++ h ++ rest)) = Returns num.
Proof.
  intros Lh CT P. unfold FileToNum, FindStringSubmatch.
  rewrite list_ascii_of_string_of_list_ascii.
  destruct (fileIDRe_search_tail pre (h ++ rest) CT 0) as (a & b & ->).
  cbn [map lookup list_lookup default Datatypes.id Nat.add].
  rewrite <- Lh, (submatch_at pre h rest). unfold HexIDToNum. rewrite P. reflexivity.
Qed.

Lemma no_hex5_end_list t :
  no_hex5_end t -> no_hex5_tail (list_ascii_of_string t).
Proof.
  intros H a b E Lb Hb. apply (H (string_of_list_ascii a) (string_of_list_ascii b)).
  - rewrite <- string_of_list_ascii_app, <- E, string_of_list_ascii_of_string. reflexivity.
  - split; [rewrite <- length_list_ascii|]; rewrite list_ascii_of_string_of_list_ascii;
      assumption.
Qed.

(** X17 ([FileToNum]).  On a name that ends in five hexadecimal digits
    and [.svg], whatever comes before, [FileToNum] returns the number the
    digits are in base 16; also with a hyphen and a variant token in
    between, when the token does not itself end in five hexadecimal
    digits; on such a name with a directory in front it agrees with
    [FileToParts]. *)
Theorem X17_FileToNum_code_point :
  (forall pre h, hex5 h ->
     exists num, ParseInt h 16 = Some num /\
                 FileToNum (pre +:+ h +:+ ".svg") = Returns num) /\
  (forall pre h t, hex5 h -> token t -> no_hex5_end t ->
     exists num, ParseInt h 16 = Some num /\
                 FileToNum (pre +:+ h +:+ "-" +:+ t +:+ ".svg") = Returns num) /\
  (forall dir h t, directory dir -> hex5 h -> token t -> no_hex5_end t ->
     exists num, FileToNum (dir +:+ h +:+ "-" +:+ t +:+ ".svg") = Returns num /\
                 FileToParts (dir +:+ h +:+ "-" +:+ t +:+ ".svg")
                 = Returns (h +:+ "-" +:+ t, num, t)).
Proof.
  assert (V : forall pre h t, hex5 h -> token t -> no_hex5_end t ->
     exists num, ParseInt h 16 = Some num /\
                 FileToNum (pre +:+ h +:+ "-" +:+ t +:+ ".svg") = Returns num).
  { intros pre h t [Lh Hh] (t0 & t' & -> & H0 & Ht) NT.
    destruct (ParseInt_hex5 (list_ascii_of_string h)) as (num & P & _);
      [rewrite length_list_ascii; exact Lh|exact Hh|].
    exists num. split; [rewrite string_of_list_ascii_of_string in P; exact P|].
    rewrite <- (string_of_list_ascii_of_string (pre +:+ _)), !list_ascii_of_string_app.
    apply FileToNum_tail; [rewrite length_list_ascii; exact Lh| |exact P].
    apply (code_tail_variant _ t0 (list_ascii_of_string t'));
      [rewrite length_list_ascii; exact Lh|exact Hh|exact H0|exact Ht|].
    apply (no_hex5_end_list (String t0 t') NT). }
  split; [|split; [exact V|]].
  - intros pre h [Lh Hh].
    destruct (ParseInt_hex5 (list_ascii_of_string h)) as (num & P & _);
      [rewrite length_list_ascii; exact Lh|exact Hh|].
    exists num. split; [rewrite string_of_list_ascii_of_string in P; exact P|].
    rewrite <- (string_of_list_ascii_of_string (pre +:+ _)), !list_ascii_of_string_app.
    apply FileToNum_tail; [rewrite length_list_ascii; exact Lh| |exact P].
    apply code_tail_plain; [rewrite length_list_ascii; exact Lh|exact Hh].
  - intros dir h t D H T NT. destruct (V dir h t H T NT) as (num & P & F).
    exists num. split; [exact F|].
    destruct H as [Lh Hh].
    destruct (FileToParts_list (list_ascii_of_string dir) (list_ascii_of_string h)
                ("-"%char :: list_ascii_of_string t)
                (directory_ok _ D)) as (num' & E & En);
      [rewrite length_list_ascii; exact Lh|exact Hh|apply token_ok, T|].
    rewrite string_of_list_ascii_of_string in En.
    assert (num' = num) by congruence. subst num'.
    cbn [drop app] in E. rewrite drop_0 in E.
    repeat (rewrite ?string_of_list_ascii_app, ?string_of_list_ascii_of_string in E;
            cbn [string_of_list_ascii] in E).
    exact E.
Qed.

Lemma X17_FileToNum_code_point_witness :
  FileToNum "kanji/0f9a8.svg" = Returns 63912 /\
  FileToNum "kanji/0f9a8-Kaisho.svg" = Returns 63912 /\
  FileToParts "kanji/0f9a8-Kaisho.svg" = Returns ("0f9a8-Kaisho", 63912, "Kaisho").
Proof.
  assert (D : directory "kanji/") by (right; exists "kanji"; reflexivity).
  assert (H5 : hex5 "0f9a8") by (split; [reflexivity|repeat constructor]).
  assert (T : token "Kaisho") by (exists "K"%char, "aisho"; repeat constructor).
  assert (N : no_hex5_end "Kaisho").
  { intros a b E [L H].
    do 7 (destruct a as [|? a];
          [change ("" +:+ ?z) with z in E; subst b; vm_compute in L;
           try discriminate L; vm_compute in H;
           repeat match goal with
                  | X : Forall _ (_ :: _) |- _ => inversion X; subst; clear X
                  end; discriminate
          |change (String ?x ?y +:+ ?z) with (String x (y +:+ z)) in E;
           try discriminate E; injection E as ? E]). }
  split; [|split].
  - destruct (proj1 X17_FileToNum_code_point "kanji/" "0f9a8" H5) as (num & P & F).
    vm_compute in P. injection P as <-. exact F.
  - destruct (proj1 (proj2 X17_FileToNum_code_point) "kanji/" "0f9a8" "Kaisho" H5 T N)
      as (num & P & F).
    vm_compute in P. injection P as <-. exact F.
  - destruct (proj2 (proj2 X17_FileToNum_code_point) "kanji/" "0f9a8" "Kaisho" D H5 T N)
      as (num & F & E).
    vm_compute in F. injection F as <-. exact E.
Defined.

(** ** [strip] *)

Lemma set_Group_Children_same g : set_Group_Children (Group_Children g) g = g.
Proof. destruct g as [i e p v n o pa tf po r ph rf s ch]. reflexivity. Qed.

Lemma at_Children_id i f g : (forall c, f c = c) -> at_Children i f g = g.
Proof.
  intros H. unfold at_Children. rewrite (list_alter_id f _ i H).
  apply set_Group_Children_same.
Qed.

Lemma at_Children_twice i f h g :
  at_Children i f (at_Children i h g) = at_Children i (f ∘ h) g.
Proof.
  unfold at_Children. cbn [Group_Children set_Group_Children].
  rewrite list_alter_alter_eq. reflexivity.
Qed.

Lemma at_Children_ext i f h g :
  (forall c, f c = h c) -> at_Children i f g = at_Children i h g.
Proof.
  intros H. unfold at_Children. f_equal. apply list_alter_ext; [|reflexivity].
  intros x _. apply H.
Qed.

Lemma at_Child_Group_same c : set_Child_Group (Child_Group c) c = c.
Proof. destruct c as [p g t ig it]. reflexivity. Qed.

(** The writes through pointers below child [i] are a write to child
    [i]. *)
Lemma foldl_below (W : list nat -> Group -> Group) i l :
  Forall (fun p => forall g, W (i :: p) g = at_Children i (at_Child_Group (W p)) g) l ->
  forall g, foldl (fun b p => W p b) g (map (cons i) l)
            = at_Children i (at_Child_Group (fun m => foldl (fun b p => W p b) m l)) g.
Proof.
  induction 1 as [|p l Hp _ IH]; intros g.
  - cbn [map foldl]. symmetry. apply at_Children_id. intros c. apply at_Child_Group_same.
  - cbn [map foldl]. rewrite IH, Hp, at_Children_twice. apply at_Children_ext.
    intros c. reflexivity.
Qed.

(** The writes through the pointers of the children, child after child,
    are a write to each child. *)
Lemma foldl_children (W : list nat -> Group -> Group) (PL : Child -> list (list nat))
    (F : Child -> Child) cs :
  Forall (fun c => forall i g, Group_Children g !! i = Some c ->
                     foldl (fun b p => W p b) g (map (cons i) (PL c))
                     = at_Children i (fun _ => F c) g) cs ->
  forall pre g,
    foldl (fun b p => W p b) (set_Group_Children (pre ++ cs) g)
      (concat (imap (fun j => map (cons (length pre + j)%nat)) (map PL cs)))
    = set_Group_Children (pre ++ map F cs) g.
Proof.
  induction 1 as [|c cs Hc _ IH]; intros pre g; [reflexivity|].
  cbn [map]. rewrite imap_cons. cbn [concat]. rewrite foldl_app, Nat.add_0_r.
  rewrite Hc.
  2:{ cbn [Group_Children set_Group_Children]. rewrite lookup_app_r by lia.
      rewrite Nat.sub_diag. reflexivity. }
  unfold at_Children. cbn [Group_Children set_Group_Children].
  rewrite <- (Nat.add_0_r (length pre)) at 1. rewrite alter_app_r. cbn [alter list_alter].
  rewrite (cons_middle (F c) pre cs), (cons_middle (F c) pre (map F cs)), !app_assoc.
  specialize (IH (pre ++ [F c]) g).
  rewrite <- IH. f_equal. f_equal. apply imap_ext. intros j x _. cbn.
  rewrite length_app. cbn [length]. f_equal. f_equal. lia.
Qed.

Lemma fst_concat_below {A} (ls : list (list (list nat * A))) : forall k,
  map fst (concat (imap (fun j => below (k + j)) ls))
  = concat (imap (fun j => map (cons (k + j)%nat)) (map (map fst) ls)).
Proof.
  induction ls as [|l ls IH]; intros k; [reflexivity|].
  cbn [map]. rewrite !imap_cons. cbn [concat]. rewrite map_app, imap_below_S, IH.
  f_equal.
  - unfold below. rewrite !map_map. reflexivity.
  - f_equal. apply imap_ext. intros j x _. cbn. f_equal. f_equal. lia.
Qed.

Lemma map_Forall_ext {A B} (f h : A -> B) l :
  Forall (fun x => f x = h x) l -> map f l = map h l.
Proof. induction 1 as [|x l H _ IH]; [reflexivity|]. cbn. rewrite H, IH. reflexivity. Qed.

(** The first loop. *)
Lemma foldl_groups f g :
  foldl (fun b p => at_GroupPtr p f b) g (map fst (group_list_post g)) = map_groups f g.
Proof.
  induction g as [g IH] using Group_ind'.
  unfold group_list_post, map_groups. rewrite map_app, foldl_app. cbn [map foldl fst at_GroupPtr].
  f_equal. rewrite imap_below_0, fst_concat_below, map_map.
  rewrite <- (set_Group_Children_same g) at 1.
  change (Group_Children g) with ([] ++ Group_Children g) at 1.
  rewrite (foldl_children (fun p b => at_GroupPtr p f b)
             (fun c => map fst (child_groups_post c)) (map_groups_child f)); [reflexivity|].
  eapply Forall_impl; [exact IH|]. cbn beta. intros c Hc i g' E.
  rewrite group_list_post_child.
  assert (U : map_groups_child f c
              = if Child_IsGroup c then set_Child_Group (map_groups f (Child_Group c)) c else c).
  { destruct c as [p m t ig it]. destruct ig; reflexivity. }
  rewrite U. destruct (Child_IsGroup c).
  - rewrite (foldl_below (fun p b => at_GroupPtr p f b));
      [|apply Forall_forall; intros q _ g''; reflexivity].
    unfold at_Children. f_equal. apply list_alter_ext; [|reflexivity].
    intros x Ex. rewrite E in Ex. injection Ex as <-. unfold at_Child_Group. cbn beta.
    f_equal. exact Hc.
  - cbn [map foldl]. symmetry. unfold at_Children.
    replace (alter (fun _ => c) i (Group_Children g')) with (Group_Children g');
      [apply set_Group_Children_same|].
    apply list_eq. intros j. rewrite list_lookup_alter.
    destruct (decide (i = j)) as [->|]; [rewrite E; reflexivity|reflexivity].
Qed.

(** The second loop. *)
Lemma foldl_paths h g :
  foldl (fun b p => at_PathPtr p h b) g (map fst (leaf_list g)) = map_paths h g.
Proof.
  induction g as [g IH] using Group_ind'.
  unfold leaf_list, map_paths. rewrite imap_below_0, fst_concat_below, map_map.
  rewrite <- (set_Group_Children_same g) at 1.
  change (Group_Children g) with ([] ++ Group_Children g) at 1.
  rewrite (foldl_children (fun p b => at_PathPtr p h b)
             (fun c => map fst (child_leaves c)) (map_paths_child h)); [reflexivity|].
  eapply Forall_impl; [exact IH|]. cbn beta. intros c Hc i g' E.
  rewrite child_leaves_eq.
  assert (U : map_paths_child h c
              = if Child_IsGroup c then set_Child_Group (map_paths h (Child_Group c)) c
                else set_Child_Path (h (Child_Path c)) c).
  { destruct c as [p m t ig it]. destruct ig; reflexivity. }
  rewrite U. destruct (Child_IsGroup c).
  - rewrite (foldl_below (fun p b => at_PathPtr p h b)).
    + unfold at_Children. f_equal. apply list_alter_ext; [|reflexivity].
      intros x Ex. rewrite E in Ex. injection Ex as <-. unfold at_Child_Group. cbn beta.
      f_equal. exact Hc.
    + apply Forall_fmap. eapply Forall_impl; [apply leaf_list_nonempty|].
      intros [[|j q] l] N; [contradiction N; reflexivity|]. intros g''. reflexivity.
  - cbn [map foldl fst at_PathPtr]. unfold at_Children. f_equal.
    apply list_alter_ext; [|reflexivity].
    intros x Ex. rewrite E in Ex. injection Ex as <-. reflexivity.
Qed.

Lemma fst_concat_children {A} (F : Child -> list (list nat * A)) cs :
  map fst (concat (imap below (map F cs)))
  = concat (imap (fun j => map (cons (0 + j)%nat)) (map (fun c => map fst (F c)) cs)).
Proof. rewrite imap_below_0, fst_concat_below, map_map. reflexivity. Qed.

(** The first loop keeps the shape, and so the pointers to the paths. *)
Lemma leaf_ptrs_map_groups_child f :
  (forall g, Group_Children (f g) = Group_Children g) ->
  forall c, map fst (child_leaves (map_groups_child f c)) = map fst (child_leaves c).
Proof.
  intros Hf c. induction c as [c IH] using Child_ind'.
  rewrite !child_leaves_eq.
  destruct c as [p m t ig it]. destruct ig; [|reflexivity].
  cbn [map_groups_child Child_IsGroup Child_Group set_Child_Group] in *.
  unfold leaf_list. rewrite Hf. cbn [Group_Children set_Group_Children].
  rewrite !fst_concat_children, map_map. f_equal. f_equal.
  apply map_Forall_ext. exact IH.
Qed.

Lemma leaf_ptrs_map_groups f g :
  (forall g, Group_Children (f g) = Group_Children g) ->
  map fst (leaf_list (map_groups f g)) = map fst (leaf_list g).
Proof.
  intros Hf. unfold leaf_list, map_groups. rewrite Hf. cbn [Group_Children set_Group_Children].
  rewrite !fst_concat_children, map_map. f_equal. f_equal.
  apply map_ext. intros c. apply leaf_ptrs_map_groups_child, Hf.
Qed.

Lemma stripped_child_split c :
  map_paths_child (set_Path_Type "") (map_groups_child strip_attributes c) = stripped_child c.
Proof.
  induction c as [c IH] using Child_ind'.
  destruct c as [p m t ig it]. destruct ig; [|reflexivity].
  destruct m as [i e pt v n o pa tf po r ph rf s ch].
  cbn [map_groups_child map_paths_child stripped_child Child_IsGroup Child_Group
       set_Child_Group set_Group_Children strip_attributes Group_Children
       Group_ID Group_Style Child_Path Child_Text Child_IsText] in *.
  rewrite map_map. rewrite (map_Forall_ext _ _ _ IH). reflexivity.
Qed.

Lemma strip_tree_stripped base : strip_tree base = stripped base.
Proof.
  unfold strip_tree. cbn zeta.
  rewrite GetGroups_post, getPaths_leaf_list, !map_app_nil, foldl_groups.
  pose proof (foldl_paths (set_Path_Type "") (map_groups strip_attributes base)) as P.
  rewrite (leaf_ptrs_map_groups strip_attributes base) in P by reflexivity.
  etransitivity; [exact P|]. clear P. unfold map_paths, map_groups, stripped.
  destruct base as [i e pt v n o pa tf po r ph rf s ch].
  unfold strip_attributes, set_Group_Children. cbn [Group_Children Group_ID Group_Style].
  rewrite map_map. f_equal. apply map_ext. intros c. apply stripped_child_split.
Qed.

Lemma flat_map_map_Forall {A B C} (F : A -> list B) (h : A -> A) (k : B -> C) (k' : B -> C) cs :
  Forall (fun c => map k (F (h c)) = map k' (F c)) cs ->
  map k (flat_map F (map h cs)) = map k' (flat_map F cs).
Proof.
  induction 1 as [|c cs H _ IH]; [reflexivity|].
  cbn [map flat_map]. rewrite !map_app, H, IH. reflexivity.
Qed.

Lemma Forall_flat_map_map {A B} (P : B -> Prop) (F : A -> list B) (h : A -> A) cs :
  Forall (fun c => Forall P (F (h c))) cs -> Forall P (flat_map F (map h cs)).
Proof.
  induction 1 as [|c cs H _ IH]; [constructor|].
  cbn [map flat_map]. apply Forall_app. split; assumption.
Qed.

Lemma leaves_stripped_child c :
  map id (leaves_preorder (stripped_child c))
  = map (fun l => set_Child_Path (set_Path_Type "" (Child_Path l)) l) (leaves_preorder c).
Proof.
  induction c as [c IH] using Child_ind'.
  destruct c as [p m t ig it]. destruct ig; [|reflexivity].
  destruct m as [i e pt v n o pa tf po r ph rf s ch].
  cbn [stripped_child leaves_preorder Child_IsGroup Child_Group set_Child_Group
       set_Group_Children strip_attributes Group_Children] in *.
  apply flat_map_map_Forall, IH.
Qed.

Lemma groups_stripped_child c :
  map (fun m => (Group_ID m, Group_Style m)) (groups_preorder (stripped_child c))
  = map (fun m => (Group_ID m, Group_Style m)) (groups_preorder c).
Proof.
  induction c as [c IH] using Child_ind'.
  destruct c as [p m t ig it]. destruct ig; [|reflexivity].
  destruct m as [i e pt v n o pa tf po r ph rf s ch].
  cbn [stripped_child groups_preorder Child_IsGroup Child_Group set_Child_Group
       set_Group_Children strip_attributes Group_Children map Group_ID Group_Style] in *.
  f_equal. apply flat_map_map_Forall, IH.
Qed.

Lemma groups_stripped_child_clear c :
  Forall (fun m => strip_attributes m = m) (groups_preorder (stripped_child c)).
Proof.
  induction c as [c IH] using Child_ind'.
  destruct c as [p m t ig it]. destruct ig; [|constructor].
  destruct m as [i e pt v n o pa tf po r ph rf s ch].
  cbn [stripped_child groups_preorder Child_IsGroup Child_Group set_Child_Group
       set_Group_Children strip_attributes Group_Children map Group_ID Group_Style] in *.
  constructor; [reflexivity|]. apply Forall_flat_map_map, IH.
Qed.

(** X18 ([strip]).  The two loops of [strip], over the pointers of
    [GetGroups] and of [GetPaths], clear the eleven [kvg:] attributes of
    every group of the tree of the base group, the base group included,
    and the type of every child that is not a group; identifiers, styles,
    path data, texts and the shape of the tree stay. *)
Theorem X18_strip_clears :
  (forall base, strip_tree base = stripped base) /\
  (forall base,
     flat_map leaves_preorder (Group_Children (strip_tree base))
     = map (fun l => set_Child_Path (set_Path_Type "" (Child_Path l)) l)
         (flat_map leaves_preorder (Group_Children base))) /\
  (forall base,
     let groups g := g :: flat_map groups_preorder (Group_Children g) in
     map (fun m => (Group_ID m, Group_Style m)) (groups (strip_tree base))
     = map (fun m => (Group_ID m, Group_Style m)) (groups base) /\
     Forall (fun m => strip_attributes m = m) (groups (strip_tree base))) /\
  (forall kvg base,
     BaseGroup kvg = Return base kvg ->
     strip_body kvg = Return tt (at_BaseGroup (fun _ => stripped base) kvg)).
Proof.
  split; [exact strip_tree_stripped|]. split; [|split].
  - intros base. rewrite strip_tree_stripped.
    destruct base as [i e pt v n o pa tf po r ph rf s ch].
    cbn [stripped strip_attributes set_Group_Children Group_Children].
    rewrite <- (map_id (flat_map _ (map _ _))).
    apply flat_map_map_Forall, Forall_forall. intros c _. apply leaves_stripped_child.
  - intros base groups. subst groups. cbn beta. rewrite strip_tree_stripped.
    destruct base as [i e pt v n o pa tf po r ph rf s ch].
    cbn [stripped strip_attributes set_Group_Children Group_Children map Group_ID Group_Style].
    split.
    + f_equal. apply flat_map_map_Forall, Forall_forall. intros c _.
      apply groups_stripped_child.
    + constructor; [reflexivity|]. apply Forall_flat_map_map, Forall_forall.
      intros c _. apply groups_stripped_child_clear.
  - intros kvg base B. unfold strip_body, bind. rewrite B. unfold modify. f_equal.
    revert B. rewrite BaseGroup_eq.
    destruct (SVG_Groups kvg) as [|g0 gs] eqn:EG; [discriminate|].
    destruct (Group_Children g0) as [|c0 cs] eqn:EC; [discriminate|].
    intros [= <-]. unfold at_BaseGroup, at_Groups, at_Children, at_Child_Group.
    rewrite EG. cbn [alter list_alter]. rewrite EC. cbn [alter list_alter].
    rewrite strip_tree_stripped. reflexivity.
Qed.

Lemma X18_strip_clears_witness :
  strip_body example_doc
  = Return tt (at_BaseGroup
                 (fun _ => stripped (ex_group "kvg:09999" "X" example_children))
                 example_doc).
Proof.
  apply (proj2 (proj2 (proj2 X18_strip_clears)) example_doc). reflexivity.
Defined.

(** ** [guessShape] *)

Lemma wrap64_small z : - 2 ^ 63 <= z < 2 ^ 63 -> wrap64 z = z.
Proof.
  intros H. unfold wrap64. rewrite Z.mod_small by lia. lia.
Qed.

Lemma getPaths_length gp g : length (getPaths gp g) = length (leaf_list g).
Proof. rewrite getPaths_leaf_list. apply length_map. Qed.

Lemma first_child_paths base c0 cs :
  Group_Children base = c0 :: cs -> Child_IsGroup c0 = true ->
  (length (getPaths [] (Child_Group c0)) <= length (getPaths [] base))%nat.
Proof.
  intros E G. rewrite !getPaths_length.
  assert (L : leaf_list base
              = below 0 (leaf_list (Child_Group c0))
                ++ concat (imap (below ∘ S) (map child_leaves cs))).
  { unfold leaf_list at 1. rewrite E. cbn [map]. rewrite imap_cons. cbn [concat].
    rewrite child_leaves_eq, G. reflexivity. }
  rewrite L, length_app. unfold below at 1. rewrite length_map. apply Nat.le_add_r.
Qed.

Ltac guess_step :=
  match goal with
  | |- context [if ?b then _ else _] => destruct b
  end.

Lemma guessShape_cases base n :
  Z.of_nat (length (getPaths [] base)) < 2 ^ 63 - 1 ->
  let nbase := Z.of_nat (length (getPaths [] base)) in
  match guessShape base n with
  | inl e => Group_Children base = [] /\ e = IndexOutOfRange 0 0
  | inr (first, second, third, _) =>
      (first = SkipSolid /\ second = unknown /\ third = unknown) \/
      (first = SkipSolid /\ second = nbase /\ (third = SkipTop \/ third = SkipOthers)) \/
      ((first = SkipLeftRight \/ first = SkipUpDown \/ first = SkipEnclosure) /\
       second + third = nbase)
  end.
Proof.
  intros B nbase. unfold guessShape.
  destruct (Group_Children base) as [|c0 cs] eqn:E.
  { cbn. split; reflexivity. }
  destruct cs as [|c1 cs].
  { cbn. left. repeat split. }
  cbn [length Nat.eqb lookup list_lookup].
  destruct (Child_IsGroup c0) eqn:G; cbn [negb]; [|left; repeat split].
  pose proof (first_child_paths base c0 (c1 :: cs) E G) as L.
  fold nbase. set (nchild0 := Z.of_nat (length (getPaths [] (Child_Group c0)))).
  assert (H0 : 0 <= nchild0 <= nbase) by (subst nchild0 nbase; lia).
  assert (HB : nbase < 2 ^ 63 - 1) by exact B.
  clearbody nchild0 nbase. clear L B E.
  assert (W1 : wrap64 (nbase - nchild0) = nbase - nchild0) by (apply wrap64_small; lia).
  assert (W2 : wrap64 (nbase - nchild0 - 1) = nbase - nchild0 - 1) by (apply wrap64_small; lia).
  assert (W3 : incr64 nchild0 = nchild0 + 1) by (apply incr64_small; lia).
  assert (W4 : wrap64 (nbase - 2) = nbase - 2) by (apply wrap64_small; lia).
  assert (W5 : wrap64 (nbase - 3) = nbase - 3) by (apply wrap64_small; lia).
  rewrite W1, W4, W5.
  destruct (one_of (Group_Element (Child_Group c0)) ["匚"; "囗"]);
    rewrite ?W2, ?W3;
    repeat (guess_step;
            try (right; right; split; [auto|lia]);
            try (right; left; split; [reflexivity|split; [reflexivity|auto]])).
Qed.

(** X19 ([guessShape]).  [guessShape] panics only on a base group
    without children.  Otherwise, with fewer than 2^63 - 1 paths below
    [base]: both counts are [unknown] and the shape is solid, or the shape
    is solid and the first count is the number of paths below [base], or
    the two counts add up to that number; so the stroke count that
    [makeSkip] takes from a guess without [unknown] is the number of paths
    below [base]. *)
Theorem X19_guessShape_counts base n :
  Z.of_nat (length (getPaths [] base)) < 2 ^ 63 - 1 ->
  let nbase := Z.of_nat (length (getPaths [] base)) in
  match guessShape base n with
  | inl e => Group_Children base = [] /\ e = IndexOutOfRange 0 0
  | inr (first, second, third, _) =>
      ((first = SkipSolid /\ second = unknown /\ third = unknown) \/
       (first = SkipSolid /\ second = nbase /\ (third = SkipTop \/ third = SkipOthers)) \/
       ((first = SkipLeftRight \/ first = SkipUpDown \/ first = SkipEnclosure) /\
        second + third = nbase)) /\
      (second <> unknown -> third <> unknown -> strCount first second third = nbase)
  end.
Proof.
  intros B nbase. pose proof (guessShape_cases base n B) as H. cbn zeta in H. fold nbase in H.
  destruct (guessShape base n) as [e|[[[first second] third] n']]; [exact H|].
  split; [exact H|]. intros H2 H3. unfold strCount.
  destruct H as [(_ & E & _)|[(-> & -> & _)|([-> |[-> | ->]] & E)]];
    [contradiction|reflexivity|..];
    cbn [Z.eqb SkipLeftRight SkipUpDown SkipEnclosure Pos.eqb]; rewrite E;
    apply wrap64_small; subst nbase; lia.
Qed.

Lemma X19_guessShape_counts_witness :
  guessShape left_right_base (mkCounters 0 0 0)
  = inr (SkipLeftRight, 2, 4, mkCounters 0 0 0) /\
  strCount SkipLeftRight 2 4 = 6.
Proof.
  assert (E : guessShape left_right_base (mkCounters 0 0 0)
              = inr (SkipLeftRight, 2, 4, mkCounters 0 0 0)) by (vm_compute; reflexivity).
  split; [exact E|].
  assert (B : Z.of_nat (length (getPaths [] left_right_base)) < 2 ^ 63 - 1)
    by (vm_compute; reflexivity).
  pose proof (X19_guessShape_counts left_right_base (mkCounters 0 0 0) B) as H.
  cbn zeta in H. rewrite E in H. destruct H as [_ S].
  apply S; discriminate.
Defined.

(** ** [fixXML] *)

Lemma drop_tabs_app s t : drop_tabs (s +:+ t) = drop_tabs s +:+ drop_tabs t.
Proof.
  induction s as [|a s IH]; [reflexivity|].
  change (String a s +:+ t) with (String a (s +:+ t)). cbn [drop_tabs].
  destruct (Ascii.eqb a tab); [exact IH|].
  change (String a (drop_tabs s) +:+ drop_tabs t)
    with (String a (drop_tabs s +:+ drop_tabs t)).
  rewrite IH. reflexivity.
Qed.

(** Replacing [old] by a [new] that differs from it in tabs only changes
    tabs only. *)
Lemma replace_from_tabs old new :
  old <> "" -> drop_tabs old = drop_tabs new ->
  forall s skip,
    drop_tabs (replace_from old new skip s) = drop_tabs (default "" (str_drop skip s)).
Proof.
  intros N H. induction s as [|a s IH]; intros skip.
  - destruct skip; reflexivity.
  - destruct skip as [|k]; cbn [replace_from]; [|apply IH].
    destruct (String.prefix old (String a s)) eqn:P.
    + rewrite drop_tabs_app, IH, <- H.
      pose proof (prefix_split old _ P) as E.
      destruct old as [|b old']; [contradiction|].
      cbn [String.length str_drop] in E. cbn [String.length].
      replace (S (String.length old') - 1)%nat with (String.length old') by lia.
      rewrite <- drop_tabs_app, <- E. reflexivity.
    + cbn [str_drop default drop_tabs]. rewrite IH. reflexivity.
Qed.

Lemma Replace_tabs s old new :
  old <> "" -> drop_tabs old = drop_tabs new ->
  drop_tabs (Replace s old new) = drop_tabs s.
Proof. intros N H. apply (replace_from_tabs old new N H s 0). Qed.

(** X20 ([fixXML]).  Apart from tabs, what [fixXML] returns is the
    heading, the input with every [></path>] turned into [/>], and a line
    feed: the six later replacements remove tabs and nothing else. *)
Theorem X20_fixXML_only_tabs Heading xmlout :
  drop_tabs (fixXML Heading xmlout)
  = drop_tabs Heading +:+ drop_tabs (Replace xmlout "></path>" "/>")
    +:+ String line_feed "".
Proof.
  unfold fixXML. cbn zeta. rewrite !drop_tabs_app.
  rewrite !Replace_tabs by (discriminate || reflexivity). reflexivity.
Qed.

(** ** [skipToNums] *)

Lemma digit_val_nonneg a d : digit_val a = Some d -> 0 <= d.
Proof.
  unfold digit_val, in_range.
  change (nat_of_ascii "0") with 48%nat. change (nat_of_ascii "a") with 97%nat.
  change (nat_of_ascii "A") with 65%nat.
  repeat match goal with
         | |- context [(?x <=? ?y)%nat] => destruct (Nat.leb_spec x y)
         end; cbn [andb]; intros [= <-]; lia.
Qed.

Lemma parse_digits_ge s : forall acc m,
  0 <= acc -> parse_digits 10 acc s = Some m -> acc <= m.
Proof.
  induction s as [|a s IH]; intros acc m H0 P; cbn [parse_digits] in P.
  - injection P as <-. lia.
  - destruct (digit_val a) as [d|] eqn:D; [|discriminate].
    apply digit_val_nonneg in D. destruct (d <? 10); [|discriminate].
    apply IH in P; lia.
Qed.

(** Where [ParseUint] succeeds, the loop has its value. *)
Lemma atoi_digits_parse s : forall acc m,
  0 <= acc -> parse_digits 10 acc s = Some m -> m < 2 ^ 64 ->
  atoi_digits acc s = Some m.
Proof.
  induction s as [|a s IH]; intros acc m H0 P Hm; cbn [parse_digits atoi_digits] in *.
  - exact P.
  - destruct (digit_val a) as [d|] eqn:D; [|discriminate].
    pose proof (digit_val_nonneg _ _ D) as Dn.
    destruct (Z.ltb_spec d 10) as [D10|]; [|discriminate].
    assert (G : acc * 10 + d <= m) by (apply (parse_digits_ge s); [lia|exact P]).
    assert (Hd : is_digit a = true /\ d = Z.of_nat (nat_of_ascii a) - 48).
    { revert D D10. unfold digit_val, is_digit.
      destruct (in_range "0" "9" a); [intros [= <-]; auto|].
      destruct (in_range "a" "z" a) eqn:L.
      - unfold in_range in L. change (nat_of_ascii "a") with 97%nat in L.
        apply andb_prop in L. destruct L as [L _]. apply Nat.leb_le in L.
        intros [= <-] ?. exfalso. lia.
      - destruct (in_range "A" "Z" a) eqn:U; [|discriminate].
        unfold in_range in U. change (nat_of_ascii "A") with 65%nat in U.
        apply andb_prop in U. destruct U as [U _]. apply Nat.leb_le in U.
        intros [= <-] ?. exfalso. lia. }
    destruct Hd as [-> <-].
    destruct (Z.leb_spec ((2 ^ 64 - 1) / 10 + 1) acc) as [C|C].
    { exfalso. change ((2 ^ 64 - 1) / 10 + 1) with 1844674407370955162 in C. lia. }
    destruct (Z.ltb_spec (2 ^ 64 - 1) (acc * 10 + d)); [lia|].
    apply IH; [lia|exact P|exact Hm].
Qed.

(** [Atoi] has the value of [ParseInt] in base 10 where that succeeds. *)
Lemma Atoi_ParseInt s n : ParseInt s 10 = Some n -> Atoi s = n.
Proof.
  unfold ParseInt, Atoi. destruct (list_ascii_of_string s) as [|a s']; [discriminate|].
  cbn zeta. set (neg := Ascii.eqb a "-").
  set (digits := if Ascii.eqb a "+" || neg then s' else a :: s').
  unfold ParseUint. destruct digits as [|x l] eqn:E; [discriminate|].
  destruct (parse_digits 10 0 (x :: l)) as [un|] eqn:P; [|discriminate].
  destruct (Z.ltb_spec un (2 ^ 64)) as [Hu|]; [|discriminate].
  rewrite (atoi_digits_parse _ 0 un (Z.le_refl 0) P Hu).
  destruct (negb neg && (2 ^ 63 <=? un)); [discriminate|].
  destruct (neg && (2 ^ 63 <? un)); [discriminate|].
  intros [= <-]. reflexivity.
Qed.

Lemma Atoi_fmt_d n : 0 <= n < 2 ^ 63 -> Atoi (fmt_d n) = n.
Proof. intros H. apply Atoi_ParseInt, ParseInt_fmt_d, H. Qed.

(** The star stops in front of a character that is not of its class. *)
Lemma star_stop p w b rest : forall i c k res,
  Forall (fun a => p a = true) w -> p b = false ->
  k (b :: rest) (i + length w)%nat c = Some res ->
  star p (w ++ b :: rest) i c k = Some res.
Proof.
  induction w as [|a w IH]; intros i c k res Hw Hb Hk.
  - cbn [app length star] in *. rewrite Nat.add_0_r in Hk. rewrite Hb. exact Hk.
  - inversion Hw as [|? ? Pa Hw']; subst. cbn [app star]. rewrite Pa.
    rewrite (IH (S i) c k res Hw' Hb); [reflexivity|].
    cbn [length] in Hk. rewrite <- Nat.add_succ_comm in Hk. exact Hk.
Qed.

Lemma digit_not_minus a : is_digit a = true -> Ascii.eqb a "-" = false.
Proof. intros H. apply not_hyphen_eqb, digit_not_hyphen, H. Qed.

Lemma skipre_search sh a0 da b0 db :
  in_range "1" "4" sh = true ->
  Forall (fun x => is_digit x = true) (a0 :: da) ->
  Forall (fun x => is_digit x = true) (b0 :: db) ->
  search skipre (sh :: "-"%char :: (a0 :: da) ++ "-"%char :: b0 :: db) 0
  = Some [Some (0, 4 + length da + S (length db))%nat;
          Some (0, 1)%nat;
          Some (2, 3 + length da)%nat;
          Some (4 + length da, 4 + length da + S (length db))%nat].
Proof.
  intros Hs Ha Hb.
  inversion Ha as [|? ? Ha0 Hda]; subst. inversion Hb as [|? ? Hb0 Hdb]; subst.
  cbn [search app]. unfold match_at, skipre, digits1.
  cbn [ngroups Nat.max replicate]. cbn [run]. rewrite Hs.
  change (Ascii.eqb "-" "-") with true. cbv iota. rewrite Ha0.
  assert (Hm : is_digit "-" = false) by reflexivity.
  rewrite (star_stop is_digit da "-" (b0 :: db) 3 _ _
             [Some (0, 4 + length da + S (length db))%nat;
              Some (0, 1)%nat;
              Some (2, 3 + length da)%nat;
              Some (4 + length da, 4 + length da + S (length db))%nat] Hda Hm);
    [reflexivity|].
  cbn [run]. change (Ascii.eqb "-" "-") with true. cbv iota. rewrite Hb0.
  apply star_all; [exact Hdb|]. cbn [insert list_insert].
  replace (S (S (3 + length da)) + length db)%nat
    with (4 + length da + S (length db))%nat by lia.
  reflexivity.
Qed.

Lemma shape_digit n :
  1 <= n <= 4 ->
  exists sh, fmt_d n = String sh "" /\ in_range "1" "4" sh = true.
Proof.
  intros H. assert (C : n = 1 \/ n = 2 \/ n = 3 \/ n = 4) by lia.
  destruct C as [-> |[-> |[-> | ->]]]; eexists; split; reflexivity.
Qed.

Lemma fmt_d_digits n :
  0 <= n ->
  exists d0 ds, list_ascii_of_string (fmt_d n) = d0 :: ds /\
                Forall (fun x => is_digit x = true) (d0 :: ds).
Proof.
  intros H. destruct (fmt_d_uint n H) as (d & Nd & E & _).
  pose proof (uint_digits d) as D. rewrite <- E in D.
  destruct (list_ascii_of_string (fmt_d n)) as [|d0 ds] eqn:El.
  - rewrite E in El. destruct d; cbn in El; congruence.
  - eauto.
Qed.

(** X21 ([skipToNums]).  [skipToNums] never panics: it ends the process
    or returns.  It reads back a SKIP code as it is written: for a shape
    from 1 to 4 and two counts from 0 to 2^63 - 1, on [shape-a-b] in
    decimal it returns the three numbers. *)
Theorem X21_skipToNums_reads :
  (forall skip, exists p, skipToNums skip = inr p) /\
  (forall shape a b,
     1 <= shape <= 4 -> 0 <= a < 2 ^ 63 -> 0 <= b < 2 ^ 63 ->
     skipToNums (fmt_d shape +:+ "-" +:+ fmt_d a +:+ "-" +:+ fmt_d b)
     = inr (Returns (mkskipcode shape a b))).
Proof.
  split.
  - intros skip. unfold skipToNums.
    destruct (FindStringSubmatch skipre skip) as [l|] eqn:E; [|cbn; eauto].
    pose proof (FindStringSubmatch_length _ _ _ E) as L.
    change (ngroups skipre) with 3%nat in L.
    destruct l as [|x0 [|x1 [|x2 [|x3 [|]]]]]; try discriminate. cbn. eauto.
  - intros shape a b Hs Ha Hb.
    destruct (shape_digit shape Hs) as (sh & Es & Hsh).
    destruct (fmt_d_digits a (proj1 Ha)) as (a0 & da & Ea & Da).
    destruct (fmt_d_digits b (proj1 Hb)) as (b0 & db & Eb & Db).
    unfold skipToNums, FindStringSubmatch.
    assert (L : list_ascii_of_string (fmt_d shape +:+ "-" +:+ fmt_d a +:+ "-" +:+ fmt_d b)
                = sh :: "-"%char :: (a0 :: da) ++ "-"%char :: b0 :: db).
    { rewrite Es, !list_ascii_of_string_app, Ea, Eb. reflexivity. }
    rewrite L, (skipre_search sh a0 da b0 db Hsh Da Db).
    cbn [default map length Nat.eqb lookup list_lookup].
    pose proof (submatch_at [] [sh] ("-"%char :: (a0 :: da) ++ "-"%char :: b0 :: db)) as S1.
    pose proof (submatch_at [sh; "-"%char] (a0 :: da) ("-"%char :: b0 :: db)) as S2.
    pose proof (submatch_at ([sh; "-"%char] ++ (a0 :: da) ++ ["-"%char]) (b0 :: db) []) as S3.
    rewrite app_nil_r, <- !app_assoc in S3. rewrite !length_app in S3.
    cbn [app length Nat.add] in S1, S2, S3.
    rewrite !Nat.add_1_r in S3. cbn [Nat.add] in S3.
    cbn [app Nat.add]. rewrite S1, S2, S3.
    rewrite <- Ea, <- Eb, !string_of_list_ascii_of_string.
    cbn [string_of_list_ascii]. rewrite <- Es.
    unfold Datatypes.id. cbn [length Nat.eqb lookup list_lookup].
    rewrite !Atoi_fmt_d by lia. reflexivity.
Qed.

Lemma X21_skipToNums_reads_witness :
  skipToNums "1-4-3" = inr (Returns (mkskipcode 1 4 3)).
Proof. apply (proj2 X21_skipToNums_reads 1 4 3); lia. Defined.
